(** * IRGeneratorForStatements: lowering of Solidity statements and
      expressions to Yul text

    A shallow embedding of
    [libsolidity/codegen/ir/IRGeneratorForStatements.cpp].  The generator is
    an AST visitor that appends Yul text to the stream [m_code], keeps the
    optional "current lvalue" [m_currentLValue], and draws fresh names from
    the generation context.  It is embedded as a state-and-error monad over
    a record that holds exactly these members; [solAssert] and
    [solUnimplementedAssert] become the two errors of the monad. *)

From Stdlib Require Import String Ascii List NArith Arith Bool Lia.
From Stdlib Require DecimalString HexadecimalString.
Import ListNotations.
Local Open Scope list_scope.
Local Open Scope string_scope.

Set Implicit Arguments.
Set Warnings "-register-all".

(** ** Text *)

(** The line feed written ["\n"] in the C++ literals, and the tab of the raw
    string templates. *)
Definition LF : string := String "010"%char EmptyString.
Definition TAB : string := String "009"%char EmptyString.

Lemma append_nil_r (s : string) : s ++ "" = s.
Proof. induction s as [|c s IH]; simpl; [reflexivity | now rewrite IH]. Qed.

Lemma append_assoc (a b c : string) : (a ++ b) ++ c = a ++ (b ++ c).
Proof. induction a as [|x a IH]; simpl; [reflexivity | now rewrite IH]. Qed.

Lemma append_inv_head (a b c : string) : a ++ b = a ++ c -> b = c.
Proof.
  induction a as [|x a IH]; simpl; intros H; [exact H|].
  injection H as H. now apply IH.
Qed.

(** ** Errors

    [solAssert(cond, text)] throws an [InternalCompilerError] and
    [solUnimplementedAssert(cond, text)] / [solUnimplemented(text)] throw an
    [UnimplementedFeatureError]; both carry the description given as second
    argument at the call site. *)
Inductive Error : Type :=
| InternalCompilerError (description : string)
| UnimplementedFeatureError (description : string)
(** a failed [dynamic_cast] to a reference type, or the use of a pointer or
    an index that the type checker guarantees to be valid *)
| MalformedTree.

Inductive Result (A : Type) : Type :=
| OK (a : A)
| Err (e : Error).
Arguments OK {A} a.
Arguments Err {A} e.

(** ** Tokens, categories and kinds named by the generator *)

Module Token.
Inductive t : Type :=
| Assign | AssignBitOr | AssignBitXor | AssignBitAnd | AssignShl | AssignSar
| AssignShr | AssignAdd | AssignSub | AssignMul | AssignDiv | AssignMod
| Delete | Inc | Dec | Not | BitNot
| Add | Sub | Mul | Div | Mod | Exp
| BitOr | BitXor | BitAnd | SHL | SAR | SHR
| And | Or
| Equal | NotEqual | LessThan | GreaterThan | LessThanOrEqual
| GreaterThanOrEqual.

Definition eqb (a b : t) : bool :=
  match a, b with
  | Assign, Assign | AssignBitOr, AssignBitOr | AssignBitXor, AssignBitXor
  | AssignBitAnd, AssignBitAnd | AssignShl, AssignShl | AssignSar, AssignSar
  | AssignShr, AssignShr | AssignAdd, AssignAdd | AssignSub, AssignSub
  | AssignMul, AssignMul | AssignDiv, AssignDiv | AssignMod, AssignMod
  | Delete, Delete | Inc, Inc | Dec, Dec | Not, Not | BitNot, BitNot
  | Add, Add | Sub, Sub | Mul, Mul | Div, Div | Mod, Mod | Exp, Exp
  | BitOr, BitOr | BitXor, BitXor | BitAnd, BitAnd | SHL, SHL | SAR, SAR
  | SHR, SHR | And, And | Or, Or | Equal, Equal | NotEqual, NotEqual
  | LessThan, LessThan | GreaterThan, GreaterThan
  | LessThanOrEqual, LessThanOrEqual
  | GreaterThanOrEqual, GreaterThanOrEqual => true
  | _, _ => false
  end.

Lemma eqb_eq (a b : t) : eqb a b = true <-> a = b.
Proof. destruct a, b; simpl; split; intros H; congruence. Qed.

(** Modelled from the spec: [TokenTraits] is declared in
    liblangutil/Token.h, which is not among the sources.  The comparison
    operators are the six the generator tells apart ("comparisons ...
    [>=]/[<=] ... strict opposite", equality and inequality). *)
Definition isCompareOp (op : t) : bool :=
  match op with
  | Equal | NotEqual | LessThan | GreaterThan | LessThanOrEqual
  | GreaterThanOrEqual => true
  | _ => false
  end.

(** Modelled from the spec: [TokenTraits::AssignmentToBinaryOp] (same
    header) maps a compound assignment operator to the binary operator it
    applies ("compound assignment ... applies the operator"). *)
Definition AssignmentToBinaryOp (op : t) : t :=
  match op with
  | AssignBitOr => BitOr | AssignBitXor => BitXor | AssignBitAnd => BitAnd
  | AssignShl => SHL | AssignSar => SAR | AssignShr => SHR
  | AssignAdd => Add | AssignSub => Sub | AssignMul => Mul
  | AssignDiv => Div | AssignMod => Mod
  | other => other
  end.
End Token.

Module Category.
Inductive t : Type :=
| Address | Integer | RationalNumber | StringLiteral | Bool | FixedBytes
| Contract | Struct | Function | Enum | Tuple | Mapping | TypeType | Magic
| Array | Other.

Definition eqb (a b : t) : bool :=
  match a, b with
  | Address, Address | Integer, Integer | RationalNumber, RationalNumber
  | StringLiteral, StringLiteral | Bool, Bool | FixedBytes, FixedBytes
  | Contract, Contract | Struct, Struct | Function, Function | Enum, Enum
  | Tuple, Tuple | Mapping, Mapping | TypeType, TypeType | Magic, Magic
  | Array, Array | Other, Other => true
  | _, _ => false
  end.
End Category.

Module DataLocation.
Inductive t : Type := Storage | CallData | Memory.
End DataLocation.

Module StateMutability.
Inductive t : Type := Pure | View | NonPayable | Payable.

(** The enumerators in declaration order, as [<=] compares them. *)
Definition rank (m : t) : nat :=
  match m with Pure => 0 | View => 1 | NonPayable => 2 | Payable => 3 end.
Definition leb (a b : t) : bool := Nat.leb (rank a) (rank b).
Definition eqb (a b : t) : bool := Nat.eqb (rank a) (rank b).
End StateMutability.

(** [FunctionType::Kind]: the kinds the generator names, and [OtherKind n]
    for every other enumerator ([n] its integer value, printed by the
    default branch). *)
Module Kind.
Inductive t : Type :=
| Internal | External | DelegateCall | BareCall | BareCallCode
| BareDelegateCall | BareStaticCall | ECRecover | RIPEMD160 | KECCAK256
| Event | ArrayPush | ArrayPop | ObjectCreation | Assert | Require
| OtherKind (n : nat).

Definition eqb (a b : t) : bool :=
  match a, b with
  | Internal, Internal | External, External | DelegateCall, DelegateCall
  | BareCall, BareCall | BareCallCode, BareCallCode
  | BareDelegateCall, BareDelegateCall | BareStaticCall, BareStaticCall
  | ECRecover, ECRecover | RIPEMD160, RIPEMD160 | KECCAK256, KECCAK256
  | Event, Event | ArrayPush, ArrayPush | ArrayPop, ArrayPop
  | ObjectCreation, ObjectCreation | Assert, Assert | Require, Require =>
      true
  | OtherKind n, OtherKind m => Nat.eqb n m
  | _, _ => false
  end.
End Kind.

Module FunctionCallKind.
Inductive t : Type := FunctionCall | TypeConversion | StructConstructorCall.
End FunctionCallKind.

(** ** Types

    A type carries what the generator reads through its casts, and its
    [stackItems]: the named stack slots, a slot being either a plain slot
    ([None]) or a nested value of another type. *)

Record EventDefinition : Type := {
  isAnonymous : bool;
  (** [parameters()[i]->isIndexed()] *)
  parametersIndexed : list bool
}.

Record FunctionTypeInfo (T : Type) : Type := {
  kind : Kind.t;
  parameterTypes : list T;
  parameterNames : list string;
  returnParameterTypes : list T;
  returnParameterTypesWithoutDynamicTypes : list T;
  gasSet : bool;
  valueSet : bool;
  bound : bool;
  takesArbitraryParameters : bool;
  stateMutability : StateMutability.t;
  (** [declaration()], read only to cast it to an event definition *)
  declaration : option EventDefinition;
  externalSignature : string
}.

Inductive TypeKind (T : Type) : Type :=
| IntegerType (isSigned : bool)
| RationalNumberType
| BoolType
| AddressType (addressMutability : StateMutability.t)
| FixedBytesType (numBytes : nat)
| StringLiteralType
| TupleType (components : list (option T))
| FunctionType (f : FunctionTypeInfo T)
| ArrayType (location : DataLocation.t) (baseType : T) (length : option N)
            (isByteArray : bool)
| MappingType
| ContractType (isSuper : bool)
| EnumType (memberValue : string -> nat)
| StructType
| TypeType
| MagicType
| OtherType.
Arguments RationalNumberType {T}.
Arguments BoolType {T}.
Arguments IntegerType {T} isSigned.
Arguments AddressType {T} addressMutability.
Arguments FixedBytesType {T} numBytes.
Arguments StringLiteralType {T}.
Arguments MappingType {T}.
Arguments ContractType {T} isSuper.
Arguments EnumType {T} memberValue.
Arguments StructType {T}.
Arguments TypeType {T}.
Arguments MagicType {T}.
Arguments OtherType {T}.

Inductive SolType : Type :=
| mkType (tkind : TypeKind SolType)
         (stackItems : list (string * option SolType)).

Definition tkind (t : SolType) : TypeKind SolType :=
  match t with mkType k _ => k end.
Definition stackItems (t : SolType) : list (string * option SolType) :=
  match t with mkType _ items => items end.

Definition category (t : SolType) : Category.t :=
  match tkind t with
  | IntegerType _ => Category.Integer
  | RationalNumberType => Category.RationalNumber
  | BoolType => Category.Bool
  | AddressType _ => Category.Address
  | FixedBytesType _ => Category.FixedBytes
  | StringLiteralType => Category.StringLiteral
  | TupleType _ => Category.Tuple
  | FunctionType _ => Category.Function
  | ArrayType _ _ _ _ => Category.Array
  | MappingType => Category.Mapping
  | ContractType _ => Category.Contract
  | EnumType _ => Category.Enum
  | StructType => Category.Struct
  | TypeType => Category.TypeType
  | MagicType => Category.Magic
  | OtherType => Category.Other
  end.

(** [dynamic_cast<FunctionType const*>] *)
Definition asFunctionType (t : SolType) : option (FunctionTypeInfo SolType) :=
  match tkind t with FunctionType f => Some f | _ => None end.

(** Induction on a type through its stack items. *)
Lemma SolType_items_ind (P : SolType -> Prop)
  (step : forall k items,
      (forall n t, In (n, Some t) items -> P t) -> P (mkType k items)) :
  forall t, P t.
Proof.
  fix IH 1. intros [k items]. apply step.
  revert items. fix IHl 1. intros [|[m o] l] n t' H.
  - destruct H.
  - destruct o as [u|].
    + destruct H as [E|H].
      * injection E as _ E. rewrite <- E. apply IH.
      * exact (IHl l n t' H).
    + destruct H as [E|H].
      * discriminate E.
      * exact (IHl l n t' H).
Qed.

(** ** Declarations referenced by identifiers *)

Record VariableDeclaration : Type := {
  declId : nat;
  isConstant : bool;
  declType : SolType
}.

Inductive Declaration : Type :=
| MagicVariableDeclaration (magicType : SolType)
| FunctionDefinition (functionId : nat)
| VariableDecl (varDecl : VariableDeclaration)
| ContractDefinition (isLibrary : bool)
| EventDef
| EnumDefinition
| StructDefinition
| OtherDeclaration
| NoDeclaration.

(** ** Collaborators taken as interfaces

    The type system, the number and list formatting helpers, the name
    scheme of value handles, the Yul utility and ABI function collectors,
    the generation context and the gas schedule are declared outside
    [IRGeneratorForStatements.cpp]; the generator only calls them.  Each is
    an interface whose operations are total. *)

(** [Type] and [TypeProvider] (libsolidity/ast/Types.h, TypeProvider.h). *)
Class TypeSystem : Type := {
  (** [operator==] on types *)
  type_eqb : SolType -> SolType -> bool;
  (** [_a.closestTemporaryType(&_b)] *)
  closestTemporaryType : SolType -> SolType -> SolType;
  isValueType : SolType -> bool;
  sizeOnStack : SolType -> nat;
  (** [literalValue(_literal)]: the second argument tells whether a literal
      node is passed ([Some id]) or [nullptr] *)
  literalValue : SolType -> option nat -> N;
  dataStoredIn : SolType -> DataLocation.t -> bool;
  (** [dynamic_cast<ReferenceType const*>] succeeds *)
  isReferenceType : SolType -> bool;
  isDynamicallyEncoded : SolType -> bool;
  decodingType : SolType -> option SolType;
  calldataEncodedSize : SolType -> N;
  (** [!!memberType(_member)] *)
  hasMemberType : SolType -> string -> bool;
  (** [static_cast<int>(_kind)] *)
  kindNumber : Kind.t -> nat;
  isBareCall : FunctionTypeInfo SolType -> bool;
  (** [FunctionType(_declaration).externalIdentifier()] *)
  externalIdentifier : Declaration -> N;
  padArguments : FunctionTypeInfo SolType -> bool;
  boolean : SolType;
  emptyTuple : SolType;
  uint256 : SolType;
  address : SolType;
  byte : SolType;
  bytesMemory : SolType
}.

(** Number and list printing (the standard library, libsolutil). *)
Class Formatting : Type := {
  to_string : nat -> string;
  to_stringN : N -> string;
  formatNumber : N -> string;
  toCompactHexWithPrefix : N -> string;
  joinHumanReadable : list string -> string;
  joinHumanReadablePrefixed : list string -> string;
  (** [u256(h256::Arith(keccak256(_signature)))] *)
  keccak256 : string -> N
}.

(** A value handle: [IRVariable(_baseName, _type)]. *)
Record IRVariable : Type := {
  m_baseName : string;
  m_type : SolType
}.

(** The methods of [IRVariable] (libsolidity/codegen/ir/IRVariable.h). *)
Class IRVariableOps : Type := {
  (** base name of [IRVariable(Expression const&)], from the node id *)
  expressionName : nat -> string;
  (** base name of [IRVariable(VariableDeclaration const&)] *)
  declarationName : VariableDeclaration -> string;
  name : IRVariable -> string;
  part : IRVariable -> string -> IRVariable;
  commaSeparatedList : IRVariable -> string;
  commaSeparatedListPrefixed : IRVariable -> string;
  tupleComponent : IRVariable -> nat -> IRVariable
}.

(** The requests the generator makes to [YulUtilFunctions]; each returns the
    name of a Yul function. *)
Inductive UtilFunction : Type :=
| storageSetToZeroFunction (t : SolType)
| zeroValueFunction (t : SolType)
| incrementCheckedFunction (t : SolType)
| decrementCheckedFunction (t : SolType)
| negateNumberCheckedFunction (t : SolType)
| cleanupFunction (t : SolType)
| overflowCheckedIntAddFunction (t : SolType)
| overflowCheckedIntSubFunction (t : SolType)
| overflowCheckedIntMulFunction (t : SolType)
| overflowCheckedIntDivFunction (t : SolType)
| checkedIntModFunction (t : SolType)
| conversionFunction (from to : SolType)
| requireOrAssertFunction (isAssert : bool) (messageType : option SolType)
| allocateMemoryArrayFunction (t : SolType)
| arrayDataAreaFunction (t : SolType)
| arrayLengthFunction (t : SolType)
| storageArrayPopFunction (t : SolType)
| storageArrayPushZeroFunction (t : SolType)
| storageArrayPushFunction (t : SolType)
| packedHashFunction (givenTypes targetTypes : list SolType)
| mappingIndexAccessFunction (mappingType keyType : SolType)
| storageArrayIndexAccessFunction (t : SolType)
| memoryArrayIndexAccessFunction (t : SolType)
| calldataArrayIndexAccessFunction (t : SolType)
| readFromCalldata (t : SolType)
| updateStorageValueFunction (t : SolType) (offset : option nat)
| writeToMemoryFunction (t : SolType)
| readFromStorageDynamic (t : SolType) (splitFunctionTypes : bool)
| readFromStorage (t : SolType) (offset : nat) (splitFunctionTypes : bool)
| readFromMemory (t : SolType)
| shiftLeftFunction (numBits : nat)
| forwardingRevertFunction.

Class YulUtilFunctions : Type := {
  m_utils : UtilFunction -> string
}.

Inductive ABIFunction : Type :=
| tupleEncoder (givenTypes targetTypes : list SolType)
               (encodeAsLibraryTypes : bool)
| tupleDecoder (types : list SolType) (fromMemory : bool).

Class ABIFunctions : Type := {
  abi : ABIFunction -> string
}.

Record EVMVersion : Type := {
  hasStaticCall : bool;
  supportsReturndata : bool;
  canOverchargeGasForCall : bool
}.

(** The read-only services of [IRGenerationContext]; its counter of fresh
    names and its table of local variables are part of the state below. *)
Class IRGenerationContext : Type := {
  (** the name [newYulVariable()] returns for the counter value [n] *)
  yulVariableName : nat -> string;
  isStateVariable : VariableDeclaration -> bool;
  storageLocationOfVariable : VariableDeclaration -> N * nat;
  (** [virtualFunctionName(_functionDef)], by node id *)
  virtualFunctionName : nat -> string;
  (** [virtualFunction(_functionDef).id()] *)
  virtualFunctionId : nat -> nat;
  internalDispatch : nat -> nat -> string;
  evmVersion : EVMVersion
}.

(** [evmasm::GasCosts] (libevmasm/GasMeter.h): [callGas] returns an
    [unsigned], the two constants are [unsigned]. *)
Class GasCosts : Type := {
  callGas : EVMVersion -> N;
  callValueTransferGas : N;
  callNewAccountGas : N
}.

(** [CompilerUtils::freeMemoryPointer] *)
Class CompilerUtils : Type := {
  freeMemoryPointer : nat
}.

(** The inline assembly bridge.  The block is copied by [CopyTranslate] and
    printed by [yul::AsmPrinter]; both work on the Yul syntax tree (libyul).
    The interface gives, for an inline assembly node, the printed text of
    the translated block, or the error raised while translating it. *)
Class InlineAssemblyBridge : Type := {
  translatedBlock : nat -> Result string
}.

(** ** Lvalues

    Modelled from the spec: IRLValue.h is not among the sources.  "Lvalue:
    one of Stack(handle), Storage(slot expression, offset: static bit-offset
    or dynamic-offset expression), Memory(address expression, byte-element
    flag), Tuple(ordered sequence of optional Lvalue, holes permitted)". *)
Module IRLValue.
Inductive Kind (L : Type) : Type :=
| Stack (variable : IRVariable)
| Storage (slot : string) (offset : string + nat)
| Memory (address : string) (byteArrayElement : bool)
| Tuple (components : list (option L)).
Arguments Stack {L} variable.
Arguments Storage {L} slot offset.
Arguments Memory {L} address byteArrayElement.

Inductive t : Type :=
| mk (type : SolType) (kind : Kind t).

Definition type (l : t) : SolType := match l with mk ty _ => ty end.
Definition kind (l : t) : Kind t := match l with mk _ k => k end.
End IRLValue.

(** ** The syntax tree

    The tree is the type-checked one: every expression carries its node id,
    its type and the [lValueRequested] flag of its annotation, so that the
    assertion of the helper [type()] ("Type of expression not set.") holds
    by construction. *)
Record ExpressionAnnotation : Type := {
  id : nat;
  type : SolType;
  lValueRequested : bool
}.

Inductive Expression : Type :=
| Conditional (a : ExpressionAnnotation)
    (condition trueExpression falseExpression : Expression)
| Assignment (a : ExpressionAnnotation)
    (leftHandSide : Expression) (assignmentOperator : Token.t)
    (rightHandSide : Expression)
| TupleExpression (a : ExpressionAnnotation)
    (components : list (option Expression)) (isInlineArray : bool)
| UnaryOperation (a : ExpressionAnnotation)
    (operator : Token.t) (subExpression : Expression)
    (isPrefixOperation : bool)
| BinaryOperation (a : ExpressionAnnotation) (commonType : option SolType)
    (leftExpression : Expression) (operator : Token.t)
    (rightExpression : Expression)
| FunctionCall (a : ExpressionAnnotation) (callKind : FunctionCallKind.t)
    (expression : Expression) (arguments : list Expression)
    (names : list string)
| MemberAccess (a : ExpressionAnnotation)
    (referencedDeclaration : Declaration)
    (expression : Expression) (memberName : string)
| IndexAccess (a : ExpressionAnnotation)
    (baseExpression : Expression) (indexExpression : option Expression)
| IndexRangeAccess (a : ExpressionAnnotation)
    (baseExpression : Expression)
    (startExpression endExpression : option Expression)
| Identifier (a : ExpressionAnnotation)
    (referencedDeclaration : Declaration) (identifierName : string)
| Literal (a : ExpressionAnnotation)
(** an expression node of a kind the generator does not override: the base
    visitor descends into its children and emits nothing *)
| OtherExpression (a : ExpressionAnnotation) (children : list Expression).

Definition annotation (e : Expression) : ExpressionAnnotation :=
  match e with
  | Conditional a _ _ _ | Assignment a _ _ _ | TupleExpression a _ _
  | UnaryOperation a _ _ _ | BinaryOperation a _ _ _ _
  | FunctionCall a _ _ _ _ | MemberAccess a _ _ _ | IndexAccess a _ _
  | IndexRangeAccess a _ _ _ | Identifier a _ _ | Literal a
  | OtherExpression a _ => a
  end.

(** The helper [type(_expression)]. *)
Definition type_of (e : Expression) : SolType := type (annotation e).

Inductive Statement : Type :=
| Block (statements : list Statement)
| IfStatement (condition : Expression) (trueStatement : Statement)
    (falseStatement : option Statement)
| ForStatement (initializationExpression : option Statement)
    (condition : option Expression) (loopExpression : option Expression)
    (body : Statement)
| WhileStatement (condition : Expression) (body : Statement)
    (isDoWhile : bool)
| Continue
| Break
| Return (expression : option Expression)
    (functionReturnParameters : option (list VariableDeclaration))
| VariableDeclarationStatement
    (declarations : list (option VariableDeclaration))
    (initialValue : option Expression)
| ExpressionStatement (expression : Expression)
| InlineAssembly (asmId : nat)
(** a statement node of a kind the generator does not override *)
| OtherStatement (expressions : list Expression) (statements : list Statement).

(** ** The generator's state and its monad *)

Record State : Type := {
  (** the output stream [m_code] *)
  m_code : string;
  m_currentLValue : option IRLValue.t;
  (** the context's counter of fresh names *)
  m_varCounter : nat;
  (** the context's table of local variables, by declaration id *)
  m_localVariables : list (nat * IRVariable)
}.

Definition M (A : Type) : Type := State -> Result (A * State).

Definition ret {A : Type} (a : A) : M A := fun st => OK (a, st).

Definition bind {A B : Type} (m : M A) (k : A -> M B) : M B :=
  fun st =>
    match m st with
    | OK (a, st') => k a st'
    | Err e => Err e
    end.

Definition fail {A : Type} (e : Error) : M A := fun _ => Err e.

Declare Scope gen_scope.
Delimit Scope gen_scope with gen.
Notation "x <- c1 ;; c2" := (bind c1 (fun x => c2))
  (at level 61, c1 at next level, right associativity) : gen_scope.
Notation "c1 ;; c2" := (bind c1 (fun _ => c2))
  (at level 61, right associativity) : gen_scope.
Local Open Scope gen_scope.

Definition solAssert (condition : bool) (description : string) : M unit :=
  if condition then ret tt else fail (InternalCompilerError description).

Definition solUnimplementedAssert (condition : bool) (description : string)
  : M unit :=
  if condition then ret tt else fail (UnimplementedFeatureError description).

Definition solUnimplemented {A : Type} (description : string) : M A :=
  fail (UnimplementedFeatureError description).

(** [m_code << s] *)
Definition emit (s : string) : M unit :=
  fun st =>
    OK (tt, {| m_code := m_code st ++ s;
               m_currentLValue := m_currentLValue st;
               m_varCounter := m_varCounter st;
               m_localVariables := m_localVariables st |}).

Definition currentLValue : M (option IRLValue.t) :=
  fun st => OK (m_currentLValue st, st).

(** [m_currentLValue.emplace(...)] and [m_currentLValue.reset()] *)
Definition putLValue (l : option IRLValue.t) : M unit :=
  fun st =>
    OK (tt, {| m_code := m_code st;
               m_currentLValue := l;
               m_varCounter := m_varCounter st;
               m_localVariables := m_localVariables st |}).

Definition isSome {A : Type} (o : option A) : bool :=
  match o with Some _ => true | None => false end.

(** [for (auto const& x: xs) body(x)] *)
Definition forEach {A : Type} (xs : list A) (body : A -> M unit) : M unit :=
  (fix loop (l : list A) : M unit :=
     match l with
     | [] => ret tt
     | x :: l' => body x ;; loop l'
     end) xs.

(** ** Templates

    Modelled from the spec: Whiskers (libsolutil/Whiskers.h) is not among
    the sources.  "Template-string code emission": a template is text with
    [<tag>] placeholders; parameters and conditions are set one by one, and
    rendering replaces every placeholder by the parameter set for it.  A
    template is kept as its sequence of text pieces and tags. *)
Module Whiskers.
Inductive Piece : Type :=
| Text (s : string)
| Tag (name : string).

Record t : Type := {
  parameters : list (string * string);
  conditions : list (string * bool)
}.

Definition empty : t := {| parameters := []; conditions := [] |}.

(** [templ(_parameter, _value)] *)
Definition set (w : t) (parameter value : string) : t :=
  {| parameters := (parameters w ++ [(parameter, value)])%list;
     conditions := conditions w |}.

(** [templ(_parameter, bool _value)] *)
Definition setCondition (w : t) (parameter : string) (value : bool) : t :=
  {| parameters := parameters w;
     conditions := (conditions w ++ [(parameter, value)])%list |}.

Fixpoint lookup {A : Type} (key : string) (l : list (string * A))
  : option A :=
  match l with
  | [] => None
  | (k, v) :: l' => if String.eqb k key then Some v else lookup key l'
  end.

Fixpoint render (template : list Piece) (w : t) : option string :=
  match template with
  | [] => Some ""
  | Text s :: rest =>
      match render rest w with
      | Some r => Some (s ++ r)
      | None => None
      end
  | Tag n :: rest =>
      match lookup n (parameters w), render rest w with
      | Some v, Some r => Some (v ++ r)
      | _, _ => None
      end
  end.
End Whiskers.

Section Generator.

Context {TS : TypeSystem} {FM : Formatting} {VO : IRVariableOps}
        {YU : YulUtilFunctions} {AB : ABIFunctions}
        {CX : IRGenerationContext} {GC : GasCosts} {CU : CompilerUtils}
        {IA : InlineAssemblyBridge}.

(** Modelled from the spec: IRGenerationContext.cpp is not among the
    sources.  "A fresh-name generator unique within a compilation unit":
    each call advances the context's counter and names the new value. *)
Definition newYulVariable : M string :=
  fun st =>
    let n := S (m_varCounter st) in
    OK (yulVariableName n,
        {| m_code := m_code st;
           m_currentLValue := m_currentLValue st;
           m_varCounter := n;
           m_localVariables := m_localVariables st |}).

(** [IRVariable(Expression const&)] and
    [IRVariable(VariableDeclaration const&)] *)
Definition exprVar (a : ExpressionAnnotation) : IRVariable :=
  {| m_baseName := expressionName (id a); m_type := type a |}.

Definition IRVariable_of (e : Expression) : IRVariable :=
  exprVar (annotation e).

Definition IRVariable_decl (d : VariableDeclaration) : IRVariable :=
  {| m_baseName := declarationName d; m_type := declType d |}.

Fixpoint lookupLocal (n : nat) (l : list (nat * IRVariable))
  : option IRVariable :=
  match l with
  | [] => None
  | (k, v) :: l' => if Nat.eqb k n then Some v else lookupLocal n l'
  end.

Definition isLocalVariable (d : VariableDeclaration) : M bool :=
  fun st => OK (isSome (lookupLocal (declId d) (m_localVariables st)), st).

(** Modelled from the spec: the context's "per-declaration slot table"
    (IRGenerationContext.cpp is not among the sources).  A declaration is
    entered once, with the handle made from it; asking for a declaration
    that was not entered is an invariant violation. *)
Definition addLocalVariable (d : VariableDeclaration) : M IRVariable :=
  fun st =>
    match lookupLocal (declId d) (m_localVariables st) with
    | Some _ => Err (InternalCompilerError "Local variable added multiple times.")
    | None =>
        OK (IRVariable_decl d,
            {| m_code := m_code st;
               m_currentLValue := m_currentLValue st;
               m_varCounter := m_varCounter st;
               m_localVariables :=
                 (declId d, IRVariable_decl d) :: m_localVariables st |})
    end.

Definition localVariable (d : VariableDeclaration) : M IRVariable :=
  fun st =>
    match lookupLocal (declId d) (m_localVariables st) with
    | Some v => OK (v, st)
    | None => Err (InternalCompilerError "Unknown variable.")
    end.

(** *** Defining, declaring and assigning value handles *)

Definition fetchFreeMem : string :=
  "mload(" ++ to_string freeMemoryPointer ++ ")".

(** [std::ostream& define(IRVariable const& _var)]: the text that follows
    is appended by the caller. *)
Definition define (_var : IRVariable) : M unit :=
  if Nat.ltb 0 (sizeOnStack (m_type _var))
  then emit ("let " ++ commaSeparatedList _var ++ " := ")
  else ret tt.

(** [declareAssign]; [ty] is [_lhs.type()], whose stack items the loop
    walks: a nested item is the type of the part it names. *)
Fixpoint declareAssign_at (ty : SolType) (_lhs _rhs : IRVariable)
  (_declare : bool) {struct ty} : M unit :=
  if type_eqb (m_type _lhs) (m_type _rhs) then
    match ty with
    | mkType _ items =>
        (fix each (l : list (string * option SolType)) : M unit :=
           match l with
           | [] => ret tt
           | (stackItemName, stackItemType) :: l' =>
               match stackItemType with
               | Some t' =>
                   declareAssign_at t' (part _lhs stackItemName)
                     (part _rhs stackItemName) _declare
               | None =>
                   emit ((if _declare then "let " else "") ++
                         name (part _lhs stackItemName) ++ " := " ++
                         name (part _rhs stackItemName) ++ LF)
               end ;;
               each l'
           end) items
    end
  else
    emit ((if _declare then "let " else "") ++
          commaSeparatedList _lhs ++ " := " ++
          m_utils (conversionFunction (m_type _rhs) (m_type _lhs)) ++
          "(" ++ commaSeparatedList _rhs ++ ")" ++ LF).

Definition declareAssign (_lhs _rhs : IRVariable) (_declare : bool)
  : M unit :=
  declareAssign_at (m_type _lhs) _lhs _rhs _declare.

(** Modelled from the spec: the two-argument [define] and [assign] are
    defined in IRGeneratorForStatements.h, which is not among the sources.
    "[define(result, sourceValue)]: binds a fresh name to [result] by
    reading [sourceValue] and converting if types differ"; [assign] rebinds
    an existing handle the same way.  Both are [declareAssign], with and
    without the declaration. *)
Definition defineAs (_var _value : IRVariable) : M unit :=
  declareAssign _var _value true.

Definition assign (_var _value : IRVariable) : M unit :=
  declareAssign _var _value false.

Definition declare (_var : IRVariable) : M unit :=
  if Nat.ltb 0 (sizeOnStack (m_type _var))
  then emit ("let " ++ commaSeparatedList _var ++ LF)
  else ret tt.

Definition convert (_from : IRVariable) (_to : SolType) : M IRVariable :=
  if type_eqb (m_type _from) _to then ret _from
  else
    fresh <- newYulVariable ;;
    let converted := {| m_baseName := fresh; m_type := _to |} in
    defineAs converted _from ;;
    ret converted.

Definition expressionAsType (_expression : Expression) (_to : SolType)
  : string :=
  let from := IRVariable_of _expression in
  if type_eqb (m_type from) _to then commaSeparatedList from
  else m_utils (conversionFunction (m_type from) _to) ++ "(" ++
       commaSeparatedList from ++ ")".

Definition isIntegerType (t : SolType) : bool :=
  match tkind t with IntegerType _ => true | _ => false end.

Definition binaryOperation (_operator : Token.t) (_type : SolType)
  (_left _right : string) : M string :=
  if isIntegerType _type then
    let fun_ :=
      match _operator with
      | Token.Add => m_utils (overflowCheckedIntAddFunction _type)
      | Token.Sub => m_utils (overflowCheckedIntSubFunction _type)
      | Token.Mul => m_utils (overflowCheckedIntMulFunction _type)
      | Token.Div => m_utils (overflowCheckedIntDivFunction _type)
      | Token.Mod => m_utils (checkedIntModFunction _type)
      | _ => ""
      end in
    solUnimplementedAssert (negb (String.eqb fun_ "")) "" ;;
    ret (fun_ ++ "(" ++ _left ++ ", " ++ _right ++ ")" ++ LF)
  else
    solUnimplementedAssert false "" ;;
    ret "".

(** *** Reading and writing lvalues *)

(** [IRLValue::Storage::offsetString()] (IRLValue.h): the offset as text. *)
Definition offsetString (offset : string + nat) : string :=
  match offset with
  | inl s => s
  | inr n => to_string n
  end.

Fixpoint writeToLValue (_lvalue : IRLValue.t) (_value : IRVariable)
  {struct _lvalue} : M unit :=
  match _lvalue with
  | IRLValue.mk lvType (IRLValue.Storage slot offset) =>
      let offset' := match offset with inr n => Some n | inl _ => None end in
      emit (m_utils (updateStorageValueFunction lvType offset') ++
            "(" ++ slot ++
            (match offset with inl s => ", " ++ s | inr _ => "" end) ++
            commaSeparatedListPrefixed _value ++ ")" ++ LF)
  | IRLValue.mk lvType (IRLValue.Memory address_ byteArrayElement) =>
      if isValueType lvType then
        fresh <- newYulVariable ;;
        let prepared := {| m_baseName := fresh; m_type := lvType |} in
        defineAs prepared _value ;;
        if byteArrayElement then
          solAssert (type_eqb lvType byte) "" ;;
          emit ("mstore8(" ++ address_ ++ ", byte(0, " ++
                commaSeparatedList prepared ++ "))" ++ LF)
        else
          emit (m_utils (writeToMemoryFunction lvType) ++ "(" ++ address_ ++
                ", " ++ commaSeparatedList prepared ++ ")" ++ LF)
      else
        solAssert (Nat.eqb (sizeOnStack lvType) 1) "" ;;
        solAssert (isReferenceType lvType) "" ;;
        solAssert (isReferenceType (m_type _value) &&
                   dataStoredIn (m_type _value) DataLocation.Memory) "" ;;
        emit ("mstore(" ++ address_ ++ ", " ++ name _value ++ ")" ++ LF)
  | IRLValue.mk _ (IRLValue.Stack variable) => assign variable _value
  | IRLValue.mk _ (IRLValue.Tuple components) =>
      let size := List.length components in
      (** the body of the loop: write to [components[idx]] when it is set *)
      let writeAt :=
        fix writeAt (cs : list (option IRLValue.t)) (idx : nat)
            (value : IRVariable) {struct cs} : M unit :=
          match cs, idx with
          | [], _ => ret tt
          | c :: _, O =>
              match c with
              | Some component => writeToLValue component value
              | None => ret tt
              end
          | _ :: cs', S idx' => writeAt cs' idx' value
          end in
      forEach (seq 0 size)
        (fun i =>
           let idx := size - i - 1 in
           writeAt components idx (tupleComponent _value idx))
  end.

Definition readFromLValue (_lvalue : IRLValue.t) : M IRVariable :=
  fresh <- newYulVariable ;;
  let lvType := IRLValue.type _lvalue in
  let result := {| m_baseName := fresh; m_type := lvType |} in
  match IRLValue.kind _lvalue with
  | IRLValue.Storage slot offset =>
      if negb (isValueType lvType) then
        define result ;; emit (slot ++ LF)
      else
        match offset with
        | inl dynamicOffset =>
            define result ;;
            emit (m_utils (readFromStorageDynamic lvType false) ++ "(" ++
                  slot ++ ", " ++ dynamicOffset ++ ")" ++ LF)
        | inr staticOffset =>
            define result ;;
            emit (m_utils (readFromStorage lvType staticOffset false) ++
                  "(" ++ slot ++ ")" ++ LF)
        end
  | IRLValue.Memory address_ byteArrayElement =>
      if byteArrayElement then
        define result ;;
        emit (m_utils (cleanupFunction lvType) ++ "(mload(" ++ address_ ++
              "))" ++ LF)
      else if isValueType lvType then
        define result ;;
        emit (m_utils (readFromMemory lvType) ++ "(" ++ address_ ++ ")" ++ LF)
      else
        define result ;; emit ("mload(" ++ address_ ++ ")" ++ LF)
  | IRLValue.Stack variable => defineAs result variable
  | IRLValue.Tuple _ =>
      solAssert false "Attempted to read from tuple lvalue."
  end ;;
  ret result.

Definition setLValue (_expression : ExpressionAnnotation)
  (_lvalue : IRLValue.t) : M unit :=
  cur <- currentLValue ;;
  solAssert (negb (isSome cur)) "" ;;
  if lValueRequested _expression then
    putLValue (Some _lvalue) ;;
    solAssert
      (negb (dataStoredIn (IRLValue.type _lvalue) DataLocation.CallData)) ""
  else
    value <- readFromLValue _lvalue ;;
    defineAs (exprVar _expression) value.

(** *** Expressions

    Each [visit]/[endVisit] below receives the annotation of its node, the
    node's children, and [accept], the traversal of a sub-expression. *)

Section ExpressionVisits.

Variable accept : Expression -> M unit.

Definition visit_Conditional (_conditional : ExpressionAnnotation)
  (condition trueExpression falseExpression : Expression) : M unit :=
  accept condition ;;
  let condition_ := expressionAsType condition boolean in
  declare (exprVar _conditional) ;;
  emit ("switch " ++ condition_ ++ LF ++ "case 0 {" ++ LF) ;;
  accept falseExpression ;;
  assign (exprVar _conditional) (IRVariable_of falseExpression) ;;
  emit ("}" ++ LF ++ "default {" ++ LF) ;;
  accept trueExpression ;;
  assign (exprVar _conditional) (IRVariable_of trueExpression) ;;
  emit ("}" ++ LF).

Definition visit_Assignment (_assignment : ExpressionAnnotation)
  (leftHandSide : Expression) (assignmentOperator : Token.t)
  (rightHandSide : Expression) : M unit :=
  accept rightHandSide ;;
  let intermediateType :=
    closestTemporaryType (type_of rightHandSide) (type_of leftHandSide) in
  value <- convert (IRVariable_of rightHandSide) intermediateType ;;
  accept leftHandSide ;;
  cur <- currentLValue ;;
  match cur with
  | None => fail (InternalCompilerError "LValue not retrieved.")
  | Some lvalue =>
      (if negb (Token.eqb assignmentOperator Token.Assign) then
         solAssert (type_eqb (type_of leftHandSide) intermediateType) "" ;;
         solAssert (isValueType intermediateType)
           "Compound operators only available for value types." ;;
         leftIntermediate <- readFromLValue lvalue ;;
         operation <- binaryOperation
                        (Token.AssignmentToBinaryOp assignmentOperator)
                        intermediateType (name leftIntermediate)
                        (name value) ;;
         emit (name value ++ " := " ++ operation)
       else ret tt) ;;
      writeToLValue lvalue value ;;
      putLValue None ;;
      if negb (type_eqb (type _assignment) emptyTuple)
      then defineAs (exprVar _assignment) value
      else ret tt
  end.

(** The loop of [visit(TupleExpression)] over the components, from index
    [i] on; [lvalues] is the vector filled so far. *)
Fixpoint lowerTupleComponents (_tuple : ExpressionAnnotation)
  (cs : list (option Expression)) (i : nat)
  (lvalues : list (option IRLValue.t)) {struct cs}
  : M (list (option IRLValue.t)) :=
  match cs with
  | [] => ret lvalues
  | Some component :: cs' =>
      accept component ;;
      if lValueRequested _tuple then
        cur <- currentLValue ;;
        solAssert (isSome cur) "" ;;
        putLValue None ;;
        lowerTupleComponents _tuple cs' (S i) (lvalues ++ [cur])%list
      else
        defineAs (tupleComponent (exprVar _tuple) i)
          (IRVariable_of component) ;;
        lowerTupleComponents _tuple cs' (S i) lvalues
  | None :: cs' =>
      if lValueRequested _tuple
      then lowerTupleComponents _tuple cs' (S i) (lvalues ++ [None])%list
      else lowerTupleComponents _tuple cs' (S i) lvalues
  end.

Definition visit_TupleExpression (_tuple : ExpressionAnnotation)
  (components : list (option Expression)) (isInlineArray : bool) : M unit :=
  if isInlineArray then solUnimplementedAssert false ""
  else
    let lValueRequested_ := lValueRequested _tuple in
    (if lValueRequested_
     then cur <- currentLValue ;; solAssert (negb (isSome cur)) ""
     else ret tt) ;;
    if Nat.eqb (List.length components) 1 then
      match components with
      | Some front :: _ =>
          accept front ;;
          if lValueRequested_
          then cur <- currentLValue ;; solAssert (isSome cur) ""
          else defineAs (exprVar _tuple) (IRVariable_of front)
      | _ => solAssert false ""
      end
    else
      lvalues <- lowerTupleComponents _tuple components 0 [] ;;
      if lValueRequested _tuple
      then putLValue
             (Some (IRLValue.mk (type _tuple) (IRLValue.Tuple lvalues)))
      else ret tt.

Definition appendAndOrOperatorCode (_binOp : ExpressionAnnotation)
  (leftExpression : Expression) (op : Token.t)
  (rightExpression : Expression) : M unit :=
  solAssert (Token.eqb op Token.Or || Token.eqb op Token.And) "" ;;
  accept leftExpression ;;
  let value := exprVar _binOp in
  defineAs value (IRVariable_of leftExpression) ;;
  (if Token.eqb op Token.Or
   then emit ("if iszero(" ++ name value ++ ") {" ++ LF)
   else emit ("if " ++ name value ++ " {" ++ LF)) ;;
  accept rightExpression ;;
  assign value (IRVariable_of rightExpression) ;;
  emit ("}" ++ LF).

(** The text of a comparison, as the chain of [if]s of
    [visit(BinaryOperation)] builds it. *)
Definition compareExpression (op : Token.t) (isSigned : bool)
  (args : string) : M string :=
  if Token.eqb op Token.Equal then
    ret ("eq(" ++ args ++ ")")
  else if Token.eqb op Token.NotEqual then
    ret ("iszero(eq(" ++ args ++ "))")
  else if Token.eqb op Token.GreaterThanOrEqual then
    ret ("iszero(" ++ (if isSigned then "slt(" else "lt(") ++ args ++ "))")
  else if Token.eqb op Token.LessThanOrEqual then
    ret ("iszero(" ++ (if isSigned then "sgt(" else "gt(") ++ args ++ "))")
  else if Token.eqb op Token.GreaterThan then
    ret ((if isSigned then "sgt(" else "gt(") ++ args ++ ")")
  else if Token.eqb op Token.LessThan then
    ret ((if isSigned then "slt(" else "lt(") ++ args ++ ")")
  else
    solAssert false "Unknown comparison operator." ;; ret "".

Definition visit_BinaryOperation (_binOp : ExpressionAnnotation)
  (commonType_ : option SolType) (leftExpression : Expression)
  (op : Token.t) (rightExpression : Expression) : M unit :=
  match commonType_ with
  | None => solAssert false ""
  | Some commonType =>
      if Token.eqb op Token.And || Token.eqb op Token.Or then
        appendAndOrOperatorCode _binOp leftExpression op rightExpression
      else
        accept leftExpression ;;
        accept rightExpression ;;
        if Category.eqb (category commonType) Category.RationalNumber then
          define (exprVar _binOp) ;;
          emit (toCompactHexWithPrefix (literalValue commonType None) ++ LF)
        else if Token.isCompareOp op then
          match asFunctionType commonType with
          | Some functionType =>
              solAssert (Token.eqb op Token.Equal ||
                         Token.eqb op Token.NotEqual)
                "Invalid function pointer comparison!" ;;
              solAssert (negb (Kind.eqb (kind functionType) Kind.External))
                "External function comparison not allowed!"
          | None => ret tt
          end ;;
          solAssert (isValueType commonType) "" ;;
          let isSigned :=
            match tkind commonType with
            | IntegerType isSigned_ => isSigned_
            | _ => false
            end in
          let args :=
            expressionAsType leftExpression commonType ++ ", " ++
            expressionAsType rightExpression commonType in
          expr <- compareExpression op isSigned args ;;
          define (exprVar _binOp) ;;
          emit (expr ++ LF)
        else
          let left := expressionAsType leftExpression commonType in
          let right := expressionAsType rightExpression commonType in
          define (exprVar _binOp) ;;
          operation <- binaryOperation op commonType left right ;;
          emit (operation ++ LF)
  end.

End ExpressionVisits.

Definition appendSimpleUnaryOperation (_operation : ExpressionAnnotation)
  (op : Token.t) (_expr : Expression) : M unit :=
  func <- match op with
          | Token.Not => ret "iszero"
          | Token.BitNot => ret "not"
          | _ => solAssert false "Invalid Token!" ;; ret ""
          end ;;
  define (exprVar _operation) ;;
  emit (m_utils (cleanupFunction (type_of _expr)) ++ "(" ++ func ++ "(" ++
        commaSeparatedList (IRVariable_of _expr) ++ ")" ++ ")" ++ LF).

Definition endVisit_UnaryOperation (_unaryOperation : ExpressionAnnotation)
  (op : Token.t) (subExpression : Expression) (isPrefixOperation : bool)
  : M unit :=
  let resultType := type _unaryOperation in
  if Token.eqb op Token.Delete then
    cur <- currentLValue ;;
    match cur with
    | None => fail (InternalCompilerError "LValue not retrieved.")
    | Some lvalue =>
        match IRLValue.kind lvalue with
        | IRLValue.Storage slot offset =>
            emit (m_utils (storageSetToZeroFunction (IRLValue.type lvalue)) ++
                  "(" ++ slot ++ ", " ++ offsetString offset ++ ")" ++ LF) ;;
            putLValue None
        | _ =>
            fresh <- newYulVariable ;;
            let zeroValue :=
              {| m_baseName := fresh; m_type := IRLValue.type lvalue |} in
            define zeroValue ;;
            emit (m_utils (zeroValueFunction (IRLValue.type lvalue)) ++
                  "()" ++ LF) ;;
            writeToLValue lvalue zeroValue ;;
            putLValue None
        end
    end
  else if Category.eqb (category resultType) Category.RationalNumber then
    define (exprVar _unaryOperation) ;;
    emit (formatNumber (literalValue resultType None) ++ LF)
  else if Category.eqb (category resultType) Category.Integer then
    solAssert (type_eqb resultType (type_of subExpression))
      "Result type doesn't match!" ;;
    if Token.eqb op Token.Inc || Token.eqb op Token.Dec then
      cur <- currentLValue ;;
      match cur with
      | None => fail (InternalCompilerError "LValue not retrieved.")
      | Some lvalue =>
          fresh <- newYulVariable ;;
          let modifiedValue :=
            {| m_baseName := fresh; m_type := resultType |} in
          originalValue <- readFromLValue lvalue ;;
          define modifiedValue ;;
          emit ((if Token.eqb op Token.Inc
                 then m_utils (incrementCheckedFunction resultType)
                 else m_utils (decrementCheckedFunction resultType)) ++
                "(" ++ name originalValue ++ ")" ++ LF) ;;
          writeToLValue lvalue modifiedValue ;;
          putLValue None ;;
          defineAs (exprVar _unaryOperation)
            (if isPrefixOperation then modifiedValue else originalValue)
      end
    else if Token.eqb op Token.BitNot then
      appendSimpleUnaryOperation _unaryOperation op subExpression
    else if Token.eqb op Token.Add then
      solAssert false "Use of unary + is disallowed."
    else if Token.eqb op Token.Sub then
      define (exprVar _unaryOperation) ;;
      emit (m_utils (negateNumberCheckedFunction resultType) ++ "(" ++
            name (IRVariable_of subExpression) ++ ")" ++ LF)
    else
      solUnimplementedAssert false "Unary operator not yet implemented"
  else if Category.eqb (category resultType) Category.Bool then
    solAssert (negb (Token.eqb op Token.BitNot))
      "Bitwise Negation can't be done on bool!" ;;
    appendSimpleUnaryOperation _unaryOperation op subExpression
  else
    solUnimplementedAssert false "Unary operator not yet implemented".

(** *** External calls *)

(** [unsigned] and [u256] arithmetic *)
Definition add32 (a b : N) : N := ((a + b) mod 2 ^ 32)%N.
Definition add256 (a b : N) : N := ((a + b) mod 2 ^ 256)%N.

(** The loop of [appendExternalFunctionCall] over the return types: the
    pair is ([retSize], [dynamicReturnSize]). *)
Fixpoint returnSize (haveReturndatacopy : bool) (returnTypes : list SolType)
  (retSize : N) : M (N * bool) :=
  match returnTypes with
  | [] => ret (retSize, false)
  | retType :: rest =>
      if isDynamicallyEncoded retType then
        solAssert haveReturndatacopy "" ;;
        ret (0%N, true)
      else
        match decodingType retType with
        | Some decoding =>
            returnSize haveReturndatacopy rest
              (add32 retSize (calldataEncodedSize decoding))
        | None =>
            returnSize haveReturndatacopy rest
              (add32 retSize (calldataEncodedSize retType))
        end
  end.

(** [appendExternalFunctionCall].  The function fills the template [templ]
    and returns without rendering it; the value returned here is that local
    template as it stands when the function ends.  [callGas] returns an
    [unsigned] and the 10 is added to it in [unsigned] arithmetic, before
    the sum is widened to the [u256] to which the other constants are
    added. *)
Definition appendExternalFunctionCall (_functionCall : ExpressionAnnotation)
  (expression : Expression) (_arguments : list Expression)
  : M Whiskers.t :=
  match asFunctionType (type_of expression) with
  | None => fail MalformedTree
  | Some funType =>
      solAssert (takesArbitraryParameters funType ||
                 Nat.eqb (List.length _arguments)
                         (List.length (parameterTypes funType))) "" ;;
      solUnimplementedAssert (negb (bound funType)) "" ;;
      let funKind := kind funType in
      solAssert (negb (Kind.eqb funKind Kind.BareStaticCall) ||
                 hasStaticCall evmVersion) "" ;;
      solAssert (negb (Kind.eqb funKind Kind.BareCallCode))
        "Callcode has been removed." ;;
      let returnSuccessConditionAndReturndata :=
        Kind.eqb funKind Kind.BareCall ||
        Kind.eqb funKind Kind.BareDelegateCall ||
        Kind.eqb funKind Kind.BareStaticCall in
      let isDelegateCall :=
        Kind.eqb funKind Kind.BareDelegateCall ||
        Kind.eqb funKind Kind.DelegateCall in
      let useStaticCall :=
        Kind.eqb funKind Kind.BareStaticCall ||
        (StateMutability.leb (stateMutability funType) StateMutability.View
         && hasStaticCall evmVersion) in
      let haveReturndatacopy := supportsReturndata evmVersion in
      let returnTypes :=
        if negb returnSuccessConditionAndReturndata then
          if haveReturndatacopy then returnParameterTypes funType
          else returnParameterTypesWithoutDynamicTypes funType
        else [] in
      sizes <- (if negb returnSuccessConditionAndReturndata
                then returnSize haveReturndatacopy returnTypes 0%N
                else ret (0%N, false)) ;;
      let retSize := fst sizes in
      let dynamicReturnSize := snd sizes in
      let argumentTypes := List.map type_of _arguments in
      let argumentStrings :=
        List.map (fun arg => commaSeparatedList (IRVariable_of arg))
          _arguments in
      let argumentString := joinHumanReadable argumentStrings in
      solUnimplementedAssert (negb (Kind.eqb funKind Kind.ECRecover)) "" ;;
      (if negb (canOverchargeGasForCall evmVersion) then
         if negb (gasSet funType) && N.ltb 0 retSize
         then emit ("mstore(add(" ++ fetchFreeMem ++ ", " ++
                    to_stringN retSize ++ "), 0)" ++ LF)
         else ret tt
       else ret tt) ;;
      solUnimplementedAssert (negb (isBareCall funType)) "" ;;
      let templ := Whiskers.empty in
      pos <- newYulVariable ;;
      let templ := Whiskers.set templ "pos" pos in
      end_ <- newYulVariable ;;
      let templ := Whiskers.set templ "end" end_ in
      result <- newYulVariable ;;
      let templ := Whiskers.set templ "result" result in
      let templ := Whiskers.set templ "freeMem" fetchFreeMem in
      let templ :=
        Whiskers.set templ "shl28" (m_utils (shiftLeftFunction (8 * (32 - 4)))) in
      let templ :=
        Whiskers.set templ "funId"
          (name (part (IRVariable_of expression) "functionIdentifier")) in
      let encodeInPlace :=
        if Kind.eqb (kind funType) Kind.ECRecover then false
        else takesArbitraryParameters funType || isBareCall funType in
      let encodeForLibraryCall := Kind.eqb funKind Kind.DelegateCall in
      solUnimplementedAssert (negb encodeInPlace) "" ;;
      solUnimplementedAssert (negb (padArguments funType)) "" ;;
      let templ :=
        Whiskers.set templ "encodeArgs"
          (abi (tupleEncoder argumentTypes (parameterTypes funType)
                  encodeForLibraryCall)) in
      let templ := Whiskers.set templ "argumentString" argumentString in
      let templ := Whiskers.set templ "retSize" (to_stringN retSize) in
      solUnimplementedAssert (negb (Kind.eqb funKind Kind.ECRecover)) "" ;;
      templ <-
        (if isDelegateCall then
           solAssert (negb (valueSet funType)) "Value set for delegatecall" ;;
           ret templ
         else if useStaticCall then
           solAssert (negb (valueSet funType)) "Value set for staticcall" ;;
           ret templ
         else if valueSet funType then
           ret (Whiskers.set templ "value"
                  (name (part (IRVariable_of expression) "value")))
         else
           ret (Whiskers.set templ "value" "0")) ;;
      let checkExistence :=
        Kind.eqb funKind Kind.External ||
        Kind.eqb funKind Kind.DelegateCall in
      let templ := Whiskers.setCondition templ "checkExistence" checkExistence in
      let templ :=
        if gasSet funType then
          Whiskers.set templ "gas"
            (name (part (IRVariable_of expression) "gas"))
        else if canOverchargeGasForCall evmVersion then
          Whiskers.set templ "gas" "gas()"
        else
          let gasNeededByCaller := add32 (callGas evmVersion) 10 in
          let gasNeededByCaller :=
            if valueSet funType
            then add256 gasNeededByCaller callValueTransferGas
            else gasNeededByCaller in
          let gasNeededByCaller :=
            if negb checkExistence
            then add256 gasNeededByCaller callNewAccountGas
            else gasNeededByCaller in
          Whiskers.set templ "gas"
            ("sub(gas(), " ++ formatNumber gasNeededByCaller ++ ")") in
      let templ :=
        if isDelegateCall then Whiskers.set templ "call" "delegatecall"
        else if useStaticCall then Whiskers.set templ "call" "staticcall"
        else Whiskers.set templ "call" "call" in
      let templ :=
        Whiskers.set templ "forwardingRevert"
          (m_utils forwardingRevertFunction) in
      solUnimplementedAssert (negb returnSuccessConditionAndReturndata) "" ;;
      solUnimplementedAssert (negb (Kind.eqb funKind Kind.RIPEMD160)) "" ;;
      solUnimplementedAssert (negb (Kind.eqb funKind Kind.ECRecover)) "" ;;
      let templ :=
        Whiskers.setCondition templ "dynamicReturnSize" dynamicReturnSize in
      let templ :=
        if haveReturndatacopy
        then Whiskers.set templ "returnSize" "returndatasize()"
        else Whiskers.set templ "returnSize" (to_stringN retSize) in
      let templ :=
        Whiskers.set templ "abiDecode" (abi (tupleDecoder returnTypes true)) in
      let templ :=
        Whiskers.setCondition templ "returns"
          (negb (Nat.eqb (List.length returnTypes) 0)) in
      let templ :=
        Whiskers.set templ "retVars"
          (commaSeparatedList (exprVar _functionCall)) in
      ret templ
  end.

(** *** Calls *)

Definition renderTemplate (template : list Whiskers.Piece) (w : Whiskers.t)
  : M string :=
  match Whiskers.render template w with
  | Some text => ret text
  | None => fail MalformedTree
  end.

(** [std::find_if] over the names of the call, as an index *)
Fixpoint findName (parameterName : string) (argNames : list string)
  : option nat :=
  match argNames with
  | [] => None
  | n :: rest =>
      if String.eqb n parameterName then Some 0
      else option_map S (findName parameterName rest)
  end.

(** [v[i]] for an index the type checker guarantees to be in range *)
Definition at_ {A : Type} (v : list A) (i : nat) : M A :=
  match nth_error v i with
  | Some x => ret x
  | None => fail MalformedTree
  end.

Fixpoint namedArguments (callArguments : list Expression)
  (callArgumentNames parameterNames_ : list string) : M (list Expression) :=
  match parameterNames_ with
  | [] => ret []
  | parameterName :: rest =>
      match findName parameterName callArgumentNames with
      | None => solAssert false "" ;; ret []
      | Some distance =>
          argument <- at_ callArguments distance ;;
          others <- namedArguments callArguments callArgumentNames rest ;;
          ret (argument :: others)
      end
  end.

(** The argument loop of an internal call, from index [i] on. *)
Fixpoint internalCallArguments (arbitrary : bool)
  (parameterTypes_ : list SolType) (arguments : list Expression) (i : nat)
  : M (list string) :=
  match arguments with
  | [] => ret []
  | argument :: rest =>
      arg <- (if arbitrary
              then ret (commaSeparatedList (IRVariable_of argument))
              else parameterType <- at_ parameterTypes_ i ;;
                   converted <- convert (IRVariable_of argument)
                                  parameterType ;;
                   ret (commaSeparatedList converted)) ;;
      args <- internalCallArguments arbitrary parameterTypes_ rest (S i) ;;
      ret (arg :: args)
  end.

(** The state of the loop over the parameters of an event. *)
Record EventArguments : Type := {
  indexedArgs : list IRVariable;
  nonIndexedArgs : string;
  nonIndexedArgTypes : list SolType;
  nonIndexedParamTypes : list SolType
}.

Fixpoint eventArguments (indexed : list bool) (arguments : list Expression)
  (paramTypes : list SolType) (i : nat) (acc : EventArguments)
  : M EventArguments :=
  match indexed with
  | [] => ret acc
  | isIndexed :: rest =>
      arg <- at_ arguments i ;;
      paramType <- at_ paramTypes i ;;
      acc' <-
        (if isIndexed then
           if isReferenceType paramType then
             fresh <- newYulVariable ;;
             let hashed := {| m_baseName := fresh; m_type := uint256 |} in
             define hashed ;;
             emit (m_utils (packedHashFunction [type_of arg] [paramType]) ++
                   "(" ++ commaSeparatedList (IRVariable_of arg) ++ ")") ;;
             ret {| indexedArgs := (indexedArgs acc ++ [hashed])%list;
                    nonIndexedArgs := nonIndexedArgs acc;
                    nonIndexedArgTypes := nonIndexedArgTypes acc;
                    nonIndexedParamTypes := nonIndexedParamTypes acc |}
           else
             converted <- convert (IRVariable_of arg) paramType ;;
             ret {| indexedArgs := (indexedArgs acc ++ [converted])%list;
                    nonIndexedArgs := nonIndexedArgs acc;
                    nonIndexedArgTypes := nonIndexedArgTypes acc;
                    nonIndexedParamTypes := nonIndexedParamTypes acc |}
         else
           let vars := commaSeparatedList (IRVariable_of arg) in
           ret {| indexedArgs := indexedArgs acc;
                  nonIndexedArgs :=
                    if String.eqb vars "" then nonIndexedArgs acc
                    else ", " ++ vars ++ nonIndexedArgs acc;
                  nonIndexedArgTypes :=
                    (nonIndexedArgTypes acc ++ [type_of arg])%list;
                  nonIndexedParamTypes :=
                    (nonIndexedParamTypes acc ++ [paramType])%list |}) ;;
      eventArguments rest arguments paramTypes (S i) acc'
  end.

Definition eventTemplate : list Whiskers.Piece :=
  [ Whiskers.Text ("{" ++ LF ++ TAB ++ TAB ++ TAB ++ "let ");
    Whiskers.Tag "pos"; Whiskers.Text " := mload(";
    Whiskers.Tag "freeMemoryPointer";
    Whiskers.Text (")" ++ LF ++ TAB ++ TAB ++ TAB ++ "let ");
    Whiskers.Tag "end"; Whiskers.Text " := "; Whiskers.Tag "encode";
    Whiskers.Text "("; Whiskers.Tag "pos"; Whiskers.Text " ";
    Whiskers.Tag "nonIndexedArgs";
    Whiskers.Text (")" ++ LF ++ TAB ++ TAB ++ TAB);
    Whiskers.Tag "log"; Whiskers.Text "("; Whiskers.Tag "pos";
    Whiskers.Text ", sub("; Whiskers.Tag "end"; Whiskers.Text ", ";
    Whiskers.Tag "pos"; Whiskers.Text ") "; Whiskers.Tag "indexedArgs";
    Whiskers.Text (")" ++ LF ++ TAB ++ TAB ++ "}") ].

Definition isArrayType (t : SolType) : bool :=
  match tkind t with ArrayType _ _ _ _ => true | _ => false end.

(** [arrayType.baseType()] *)
Definition arrayBaseType (t : SolType) : M SolType :=
  match tkind t with
  | ArrayType _ baseType_ _ _ => ret baseType_
  | _ => fail MalformedTree
  end.

(** [dynamic_cast<MemberAccess const&>(_expression).expression()] with its
    type cast to an array type *)
Definition memberAccessArrayType (expression : Expression) : M SolType :=
  match expression with
  | MemberAccess _ _ memberAccessExpression _ =>
      if isArrayType (type_of memberAccessExpression)
      then ret (type_of memberAccessExpression)
      else fail MalformedTree
  | _ => fail MalformedTree
  end.

Definition endVisit_FunctionCall (_functionCall : ExpressionAnnotation)
  (callKind : FunctionCallKind.t) (expression : Expression)
  (callArguments : list Expression) (callArgumentNames : list string)
  : M unit :=
  solUnimplementedAssert
    (match callKind with
     | FunctionCallKind.FunctionCall | FunctionCallKind.TypeConversion => true
     | _ => false
     end)
    "This type of function call is not yet implemented" ;;
  let funcType := type_of expression in
  match callKind with
  | FunctionCallKind.TypeConversion =>
      solAssert (Category.eqb (category funcType) Category.TypeType)
        "Expected category to be TypeType" ;;
      solAssert (Nat.eqb (List.length callArguments) 1)
        "Expected one argument for type conversion" ;;
      front <- at_ callArguments 0 ;;
      defineAs (exprVar _functionCall) (IRVariable_of front)
  | _ =>
      match asFunctionType funcType with
      | None => fail MalformedTree
      | Some functionType =>
          let parameterTypes_ := parameterTypes functionType in
          (if negb (takesArbitraryParameters functionType)
           then solAssert (Nat.eqb (List.length callArguments)
                                   (List.length parameterTypes_)) ""
           else ret tt) ;;
          arguments <-
            (match callArgumentNames with
             | [] => ret callArguments
             | _ => namedArguments callArguments callArgumentNames
                      (parameterNames functionType)
             end) ;;
          solUnimplementedAssert (negb (bound functionType)) "" ;;
          match kind functionType with
          | Kind.Internal =>
              args <- internalCallArguments
                        (takesArbitraryParameters functionType)
                        parameterTypes_ arguments 0 ;;
              match expression with
              | Identifier _ (FunctionDefinition functionDef) _ =>
                  solAssert (negb (bound functionType)) "" ;;
                  define (exprVar _functionCall) ;;
                  emit (virtualFunctionName functionDef ++ "(" ++
                        joinHumanReadable args ++ ")" ++ LF)
              | Identifier _ _ _ =>
                  solAssert (negb (bound functionType)) "" ;;
                  define (exprVar _functionCall) ;;
                  emit (internalDispatch
                          (List.length (parameterTypes functionType))
                          (List.length (returnParameterTypes functionType)) ++
                        "(" ++
                        name (part (IRVariable_of expression)
                                "functionIdentifier") ++
                        joinHumanReadablePrefixed args ++ ")" ++ LF)
              | _ =>
                  define (exprVar _functionCall) ;;
                  emit (internalDispatch
                          (List.length (parameterTypes functionType))
                          (List.length (returnParameterTypes functionType)) ++
                        "(" ++
                        name (part (IRVariable_of expression)
                                "functionIdentifier") ++
                        joinHumanReadablePrefixed args ++ ")" ++ LF)
              end
          | Kind.External | Kind.DelegateCall | Kind.BareCall
          | Kind.BareDelegateCall | Kind.BareStaticCall =>
              appendExternalFunctionCall _functionCall expression arguments ;;
              ret tt
          | Kind.BareCallCode =>
              solAssert false "Callcode has been removed."
          | Kind.Event =>
              match declaration functionType with
              | None => fail MalformedTree
              | Some event =>
                  let paramTypes := parameterTypes functionType in
                  initial <-
                    (if negb (isAnonymous event) then
                       fresh <- newYulVariable ;;
                       let signature :=
                         {| m_baseName := fresh; m_type := uint256 |} in
                       define signature ;;
                       emit (formatNumber
                               (keccak256 (externalSignature functionType)) ++
                             LF) ;;
                       ret [signature]
                     else ret []) ;;
                  collected <-
                    eventArguments (parametersIndexed event) arguments
                      paramTypes 0
                      {| indexedArgs := initial;
                         nonIndexedArgs := "";
                         nonIndexedArgTypes := [];
                         nonIndexedParamTypes := [] |} ;;
                  solAssert
                    (Nat.leb (List.length (indexedArgs collected)) 4)
                    "Too many indexed arguments." ;;
                  let templ := Whiskers.empty in
                  pos <- newYulVariable ;;
                  let templ := Whiskers.set templ "pos" pos in
                  end_ <- newYulVariable ;;
                  let templ := Whiskers.set templ "end" end_ in
                  let templ :=
                    Whiskers.set templ "freeMemoryPointer"
                      (to_string freeMemoryPointer) in
                  let templ :=
                    Whiskers.set templ "encode"
                      (abi (tupleEncoder (nonIndexedArgTypes collected)
                              (nonIndexedParamTypes collected) false)) in
                  let templ :=
                    Whiskers.set templ "nonIndexedArgs"
                      (nonIndexedArgs collected) in
                  let templ :=
                    Whiskers.set templ "log"
                      ("log" ++
                       to_string (List.length (indexedArgs collected))) in
                  let templ :=
                    Whiskers.set templ "indexedArgs"
                      (joinHumanReadablePrefixed
                         (List.map commaSeparatedList
                            (indexedArgs collected))) in
                  text <- renderTemplate eventTemplate templ ;;
                  emit text
              end
          | Kind.Assert | Kind.Require =>
              solAssert (Nat.ltb 0 (List.length arguments))
                "Expected at least one parameter for require/assert" ;;
              solAssert (Nat.leb (List.length arguments) 2)
                "Expected no more than two parameters for require/assert" ;;
              let messageArgumentType :=
                if Nat.ltb 1 (List.length arguments)
                then option_map type_of (nth_error arguments 1)
                else None in
              let requireOrAssertFunction_ :=
                m_utils (requireOrAssertFunction
                           (Kind.eqb (kind functionType) Kind.Assert)
                           messageArgumentType) in
              condition <- at_ arguments 0 ;;
              emit (requireOrAssertFunction_ ++ "(" ++
                    name (IRVariable_of condition)) ;;
              match messageArgumentType with
              | Some messageType =>
                  if Nat.ltb 0 (sizeOnStack messageType) then
                    message <- at_ arguments 1 ;;
                    emit (", " ++ commaSeparatedList (IRVariable_of message))
                  else ret tt
              | None => ret tt
              end ;;
              emit (")" ++ LF)
          | Kind.ObjectCreation =>
              (if isArrayType (type _functionCall) then ret tt
               else fail MalformedTree) ;;
              let arrayType := type _functionCall in
              solAssert (Nat.eqb (List.length arguments) 1) "" ;;
              size <- at_ arguments 0 ;;
              value <- convert (IRVariable_of size) uint256 ;;
              define (exprVar _functionCall) ;;
              emit (m_utils (allocateMemoryArrayFunction arrayType) ++ "(" ++
                    commaSeparatedList value ++ ")" ++ LF)
          | Kind.KECCAK256 =>
              solAssert (Nat.eqb (List.length arguments) 1) "" ;;
              let arrayType := bytesMemory in
              data <- at_ arguments 0 ;;
              array <- convert (IRVariable_of data) arrayType ;;
              define (exprVar _functionCall) ;;
              emit ("keccak256(" ++
                    m_utils (arrayDataAreaFunction arrayType) ++ "(" ++
                    commaSeparatedList array ++ "), " ++
                    m_utils (arrayLengthFunction arrayType) ++ "(" ++
                    commaSeparatedList array ++ "))" ++ LF)
          | Kind.ArrayPop =>
              arrayType <- memberAccessArrayType expression ;;
              define (exprVar _functionCall) ;;
              emit (m_utils (storageArrayPopFunction arrayType) ++ "(" ++
                    commaSeparatedList (IRVariable_of expression) ++ ")" ++
                    LF)
          | Kind.ArrayPush =>
              arrayType <- memberAccessArrayType expression ;;
              baseType_ <- arrayBaseType arrayType ;;
              match arguments with
              | [] =>
                  slotName <- newYulVariable ;;
                  offsetName <- newYulVariable ;;
                  emit ("let " ++ slotName ++ ", " ++ offsetName ++ " := " ++
                        m_utils (storageArrayPushZeroFunction arrayType) ++
                        "(" ++
                        commaSeparatedList (IRVariable_of expression) ++
                        ")" ++ LF) ;;
                  setLValue _functionCall
                    (IRLValue.mk baseType_
                       (IRLValue.Storage slotName (inl offsetName)))
              | front :: _ =>
                  argument <- convert (IRVariable_of front) baseType_ ;;
                  emit (m_utils (storageArrayPushFunction arrayType) ++ "(" ++
                        commaSeparatedList (IRVariable_of expression) ++
                        ", " ++ commaSeparatedList argument ++ ")" ++ LF)
              end
          | other =>
              solUnimplemented
                ("FunctionKind " ++ to_string (kindNumber other) ++
                 " not yet implemented")
          end
      end
  end.

(** *** Member and index access, identifiers, literals *)

Definition memberIn (member : string) (names : list string) : bool :=
  existsb (String.eqb member) names.

Definition endVisit_MemberAccess (_memberAccess : ExpressionAnnotation)
  (referencedDeclaration : Declaration) (expression : Expression)
  (member : string) : M unit :=
  match asFunctionType (type _memberAccess) with
  | Some funType =>
      if bound funType then solUnimplementedAssert false "" else ret tt
  | None => ret tt
  end ;;
  let baseType_ := type_of expression in
  match tkind baseType_ with
  | ContractType isSuper_ =>
      if isSuper_ then solUnimplementedAssert false ""
      else
        match referencedDeclaration with
        | NoDeclaration => solAssert false "Invalid member access in contract"
        | VariableDecl _ | FunctionDefinition _ =>
            let identifier := externalIdentifier referencedDeclaration in
            defineAs (part (exprVar _memberAccess) "address")
              (IRVariable_of expression) ;;
            define (part (exprVar _memberAccess) "functionIdentifier") ;;
            emit (formatNumber identifier ++ LF)
        | _ =>
            solAssert false
              "Contract member is neither variable nor function."
        end
  | IntegerType _ => solAssert false "Invalid member access to integer"
  | AddressType addressMutability_ =>
      if String.eqb member "balance" then
        define (exprVar _memberAccess) ;;
        emit ("balance(" ++ expressionAsType expression address ++ ")" ++ LF)
      else if memberIn member ["send"; "transfer"] then
        solAssert
          (StateMutability.eqb addressMutability_ StateMutability.Payable)
          "" ;;
        defineAs (part (exprVar _memberAccess) "address")
          (IRVariable_of expression)
      else if memberIn member
                ["call"; "callcode"; "delegatecall"; "staticcall"] then
        defineAs (part (exprVar _memberAccess) "address")
          (IRVariable_of expression)
      else solAssert false "Invalid member access to address"
  | FunctionType _ =>
      if String.eqb member "selector" then solUnimplementedAssert false ""
      else if String.eqb member "address" then solUnimplementedAssert false ""
      else solAssert (hasMemberType baseType_ member)
             "Invalid member access to function."
  | MagicType =>
      if String.eqb member "coinbase" then
        define (exprVar _memberAccess) ;; emit ("coinbase()" ++ LF)
      else if String.eqb member "timestamp" then
        define (exprVar _memberAccess) ;; emit ("timestamp()" ++ LF)
      else if String.eqb member "difficulty" then
        define (exprVar _memberAccess) ;; emit ("difficulty()" ++ LF)
      else if String.eqb member "number" then
        define (exprVar _memberAccess) ;; emit ("number()" ++ LF)
      else if String.eqb member "gaslimit" then
        define (exprVar _memberAccess) ;; emit ("gaslimit()" ++ LF)
      else if String.eqb member "sender" then
        define (exprVar _memberAccess) ;; emit ("caller()" ++ LF)
      else if String.eqb member "value" then
        define (exprVar _memberAccess) ;; emit ("callvalue()" ++ LF)
      else if String.eqb member "origin" then
        define (exprVar _memberAccess) ;; emit ("origin()" ++ LF)
      else if String.eqb member "gasprice" then
        define (exprVar _memberAccess) ;; emit ("gasprice()" ++ LF)
      else if String.eqb member "data" then
        let var := exprVar _memberAccess in
        declare var ;;
        define (part var "offset") ;; emit ("0" ++ LF) ;;
        define (part var "length") ;; emit ("calldatasize()" ++ LF)
      else if String.eqb member "sig" then
        define (exprVar _memberAccess) ;;
        emit ("and(calldataload(0), " ++
              formatNumber (N.shiftl 4294967295 (256 - 32)) ++ ")" ++ LF)
      else if String.eqb member "gas" then
        solAssert false "Gas has been removed."
      else if String.eqb member "blockhash" then
        solAssert false "Blockhash has been removed."
      else if String.eqb member "creationCode" ||
              String.eqb member "runtimeCode" then
        solUnimplementedAssert false ""
      else if String.eqb member "name" then
        solUnimplementedAssert false ""
      else if memberIn member
                ["encode"; "encodePacked"; "encodeWithSelector";
                 "encodeWithSignature"; "decode"] then
        ret tt
      else solAssert false "Unknown magic member."
  | StructType => solUnimplementedAssert false ""
  | EnumType memberValue_ =>
      define (exprVar _memberAccess) ;;
      emit (to_string (memberValue_ member) ++ LF)
  | ArrayType location_ _ length_ _ =>
      if String.eqb member "length" then
        match length_ with
        | Some staticLength =>
            define (exprVar _memberAccess) ;;
            emit (to_stringN staticLength ++ LF)
        | None =>
            match location_ with
            | DataLocation.CallData =>
                defineAs (exprVar _memberAccess)
                  (part (IRVariable_of expression) "length")
            | DataLocation.Storage =>
                define (exprVar _memberAccess) ;;
                emit (m_utils (arrayLengthFunction baseType_) ++ "(" ++
                      commaSeparatedList (IRVariable_of expression) ++ ")" ++
                      LF)
            | DataLocation.Memory =>
                define (exprVar _memberAccess) ;;
                emit ("mload(" ++
                      commaSeparatedList (IRVariable_of expression) ++ ")" ++
                      LF)
            end
        end
      else if String.eqb member "pop" || String.eqb member "push" then
        solAssert
          (match location_ with DataLocation.Storage => true | _ => false end)
          "" ;;
        defineAs (part (exprVar _memberAccess) "slot")
          (part (IRVariable_of expression) "slot")
      else solAssert false "Invalid array member access."
  | FixedBytesType numBytes_ =>
      if String.eqb member "length" then
        define (exprVar _memberAccess) ;; emit (to_string numBytes_ ++ LF)
      else solAssert false "Illegal fixed bytes member."
  | _ => solAssert false "Member access to unknown type."
  end.

Definition mappingTemplate : list Whiskers.Piece :=
  [ Whiskers.Text "let "; Whiskers.Tag "slot"; Whiskers.Text " := ";
    Whiskers.Tag "indexAccess"; Whiskers.Text "("; Whiskers.Tag "base";
    Whiskers.Text " "; Whiskers.Tag "key"; Whiskers.Text (")" ++ LF) ].

Definition storageArrayTemplate : list Whiskers.Piece :=
  [ Whiskers.Text (LF ++ TAB ++ TAB ++ TAB ++ TAB ++ TAB ++ "let ");
    Whiskers.Tag "slot"; Whiskers.Text ", "; Whiskers.Tag "offset";
    Whiskers.Text " := "; Whiskers.Tag "indexFunc"; Whiskers.Text "(";
    Whiskers.Tag "array"; Whiskers.Text ", "; Whiskers.Tag "index";
    Whiskers.Text (")" ++ LF ++ TAB ++ TAB ++ TAB ++ TAB) ].

Definition endVisit_IndexAccess (_indexAccess : ExpressionAnnotation)
  (baseExpression : Expression) (indexExpression : option Expression)
  : M unit :=
  let baseType_ := type_of baseExpression in
  match tkind baseType_ with
  | MappingType =>
      match indexExpression with
      | None => solAssert false "Index expression expected."
      | Some index =>
          let keyType := type_of index in
          solAssert (Nat.leb (sizeOnStack keyType) 1) "" ;;
          slot <- newYulVariable ;;
          let templ := Whiskers.set Whiskers.empty "slot" slot in
          let templ :=
            Whiskers.set templ "indexAccess"
              (m_utils (mappingIndexAccessFunction baseType_ keyType)) in
          let templ :=
            Whiskers.set templ "base"
              (commaSeparatedList (IRVariable_of baseExpression)) in
          let templ :=
            if Nat.eqb (sizeOnStack keyType) 0
            then Whiskers.set templ "key" ""
            else Whiskers.set templ "key"
                   (", " ++ commaSeparatedList (IRVariable_of index)) in
          text <- renderTemplate mappingTemplate templ ;;
          emit text ;;
          setLValue _indexAccess
            (IRLValue.mk (type _indexAccess) (IRLValue.Storage slot (inr 0)))
      end
  | ArrayType location_ arrayBaseType_ _ isByteArray_ =>
      match indexExpression with
      | None => solAssert false "Index expression expected."
      | Some index =>
          match location_ with
          | DataLocation.Storage =>
              slot <- newYulVariable ;;
              offset <- newYulVariable ;;
              let templ := Whiskers.set Whiskers.empty "slot" slot in
              let templ := Whiskers.set templ "offset" offset in
              let templ :=
                Whiskers.set templ "indexFunc"
                  (m_utils (storageArrayIndexAccessFunction baseType_)) in
              let templ :=
                Whiskers.set templ "array"
                  (name (part (IRVariable_of baseExpression) "slot")) in
              let templ :=
                Whiskers.set templ "index" (name (IRVariable_of index)) in
              text <- renderTemplate storageArrayTemplate templ ;;
              emit text ;;
              setLValue _indexAccess
                (IRLValue.mk (type _indexAccess)
                   (IRLValue.Storage slot (inl offset)))
          | DataLocation.Memory =>
              let memAddress :=
                m_utils (memoryArrayIndexAccessFunction baseType_) ++ "(" ++
                name (part (IRVariable_of baseExpression) "mpos") ++ ", " ++
                expressionAsType index uint256 ++ ")" in
              setLValue _indexAccess
                (IRLValue.mk arrayBaseType_ (IRLValue.Memory memAddress false))
          | DataLocation.CallData =>
              fresh <- newYulVariable ;;
              let var := {| m_baseName := fresh; m_type := arrayBaseType_ |} in
              define var ;;
              emit (m_utils (calldataArrayIndexAccessFunction baseType_) ++
                    "(" ++
                    commaSeparatedList (IRVariable_of baseExpression) ++
                    ", " ++ expressionAsType index uint256 ++ ")" ++ LF) ;;
              if isByteArray_ then
                define (exprVar _indexAccess) ;;
                emit (m_utils (cleanupFunction arrayBaseType_) ++
                      "(calldataload(" ++ name var ++ "))" ++ LF)
              else if isValueType arrayBaseType_ then
                define (exprVar _indexAccess) ;;
                emit (m_utils (readFromCalldata arrayBaseType_) ++ "(" ++
                      commaSeparatedList var ++ ")" ++ LF)
              else defineAs (exprVar _indexAccess) var
          end
      end
  | FixedBytesType _ => solUnimplementedAssert false ""
  | TypeType =>
      solAssert (Nat.eqb (sizeOnStack baseType_) 0) "" ;;
      solAssert (Nat.eqb (sizeOnStack (type _indexAccess)) 0) ""
  | _ => solAssert false "Index access only allowed for mappings or arrays."
  end.

Definition endVisit_IndexRangeAccess : M unit :=
  solUnimplementedAssert false "Index range accesses not yet implemented.".

Definition endVisit_Identifier (_identifier : ExpressionAnnotation)
  (declaration_ : Declaration) (identifierName : string) : M unit :=
  match declaration_ with
  | MagicVariableDeclaration magicType =>
      match tkind magicType with
      | ContractType isSuper_ =>
          if isSuper_ then solAssert (String.eqb identifierName "super") ""
          else
            solAssert (String.eqb identifierName "this") "" ;;
            define (exprVar _identifier) ;; emit ("address()" ++ LF)
      | IntegerType _ =>
          solAssert (String.eqb identifierName "now") "" ;;
          define (exprVar _identifier) ;; emit ("timestamp()" ++ LF)
      | _ => ret tt
      end
  | FunctionDefinition functionDef =>
      define (exprVar _identifier) ;;
      emit (to_string (virtualFunctionId functionDef) ++ LF)
  | VariableDecl varDecl =>
      solUnimplementedAssert (negb (isConstant varDecl)) "" ;;
      isLocal <- isLocalVariable varDecl ;;
      if isLocal then
        variable <- localVariable varDecl ;;
        setLValue _identifier
          (IRLValue.mk (declType varDecl) (IRLValue.Stack variable))
      else if isStateVariable varDecl then
        setLValue _identifier
          (IRLValue.mk (declType varDecl)
             (IRLValue.Storage
                (toCompactHexWithPrefix
                   (fst (storageLocationOfVariable varDecl)))
                (inr (snd (storageLocationOfVariable varDecl)))))
      else solAssert false "Invalid variable kind."
  | ContractDefinition isLibrary_ =>
      solUnimplementedAssert (negb isLibrary_) "Libraries not yet supported."
  | EventDef | EnumDefinition | StructDefinition => ret tt
  | _ =>
      solAssert false "Identifier type not expected in expression context."
  end.

Definition visit_Literal (_literal : ExpressionAnnotation) : M unit :=
  let literalType := type _literal in
  match category literalType with
  | Category.RationalNumber | Category.Bool | Category.Address =>
      define (exprVar _literal) ;;
      emit (toCompactHexWithPrefix
              (literalValue literalType (Some (id _literal))) ++ LF)
  | Category.StringLiteral => ret tt
  | _ =>
      solUnimplemented
        "Only integer, boolean and string literals implemented for now."
  end.

(** *** The traversal of expressions

    The [accept] of a node calls [visit], then the children unless [visit]
    returned [false], then [endVisit].  Modelled from the spec, for the
    nodes on which only [endVisit] is overridden (the [accept] functions are
    in libsolidity/ast/AST_accept.h, not among the sources): "for
    expressions, children are lowered before the parent (matching
    left-to-right, operand-before-operator evaluation order)". *)
Fixpoint accept (e : Expression) : M unit :=
  match e with
  | Conditional a condition trueExpression falseExpression =>
      visit_Conditional accept a condition trueExpression falseExpression
  | Assignment a leftHandSide op rightHandSide =>
      visit_Assignment accept a leftHandSide op rightHandSide
  | TupleExpression a components isInlineArray =>
      visit_TupleExpression accept a components isInlineArray
  | UnaryOperation a op subExpression isPrefixOperation =>
      accept subExpression ;;
      endVisit_UnaryOperation a op subExpression isPrefixOperation
  | BinaryOperation a commonType_ leftExpression op rightExpression =>
      visit_BinaryOperation accept a commonType_ leftExpression op
        rightExpression
  | FunctionCall a callKind expression arguments names =>
      accept expression ;;
      forEach arguments accept ;;
      endVisit_FunctionCall a callKind expression arguments names
  | MemberAccess a referencedDeclaration expression memberName =>
      accept expression ;;
      endVisit_MemberAccess a referencedDeclaration expression memberName
  | IndexAccess a baseExpression indexExpression =>
      accept baseExpression ;;
      match indexExpression with
      | Some index => accept index
      | None => ret tt
      end ;;
      endVisit_IndexAccess a baseExpression indexExpression
  | IndexRangeAccess a baseExpression startExpression endExpression =>
      accept baseExpression ;;
      match startExpression with
      | Some start => accept start
      | None => ret tt
      end ;;
      match endExpression with
      | Some end_ => accept end_
      | None => ret tt
      end ;;
      endVisit_IndexRangeAccess
  | Identifier a declaration_ identifierName =>
      endVisit_Identifier a declaration_ identifierName
  | Literal a => visit_Literal a
  | OtherExpression a children => forEach children accept
  end.

(** *** Statements *)

Definition acceptOptional (e : option Expression) : M unit :=
  match e with
  | Some expression => accept expression
  | None => ret tt
  end.

Section StatementVisits.

Variable acceptStatement : Statement -> M unit.

Definition visit_IfStatement (condition : Expression)
  (trueStatement : Statement) (falseStatement : option Statement) : M unit :=
  accept condition ;;
  let condition_ := expressionAsType condition boolean in
  match falseStatement with
  | Some falseStatement_ =>
      emit ("switch " ++ condition_ ++ LF ++ "case 0 {" ++ LF) ;;
      acceptStatement falseStatement_ ;;
      emit ("}" ++ LF ++ "default {" ++ LF)
  | None => emit ("if " ++ condition_ ++ " {" ++ LF)
  end ;;
  acceptStatement trueStatement ;;
  emit ("}" ++ LF).

(** [generateLoop]; the loop expression of a [for] is an expression
    statement, whose traversal is that of its expression. *)
Definition generateLoop (_body : Statement)
  (_conditionExpression : option Expression)
  (_initExpression : option Statement)
  (_loopExpression : option Expression) (_isDoWhile : bool) : M unit :=
  firstRun <-
    (if _isDoWhile then
       solAssert (isSome _conditionExpression)
         "Expected condition for doWhile" ;;
       fresh <- newYulVariable ;;
       emit ("let " ++ fresh ++ " := 1" ++ LF) ;;
       ret fresh
     else ret "") ;;
  emit ("for {" ++ LF) ;;
  match _initExpression with
  | Some init => acceptStatement init
  | None => ret tt
  end ;;
  emit ("} 1 {" ++ LF) ;;
  acceptOptional _loopExpression ;;
  emit ("}" ++ LF) ;;
  emit ("{" ++ LF) ;;
  match _conditionExpression with
  | Some condition =>
      (if _isDoWhile
       then emit ("if iszero(" ++ firstRun ++ ") {" ++ LF)
       else ret tt) ;;
      accept condition ;;
      emit ("if iszero(" ++ expressionAsType condition boolean ++
            ") { break }" ++ LF) ;;
      if _isDoWhile
      then emit ("}" ++ LF ++ firstRun ++ " := 0" ++ LF)
      else ret tt
  | None => ret tt
  end ;;
  acceptStatement _body ;;
  emit ("}" ++ LF).

Definition visit_ForStatement (initializationExpression : option Statement)
  (condition : option Expression) (loopExpression : option Expression)
  (body : Statement) : M unit :=
  generateLoop body condition initializationExpression loopExpression false.

Definition visit_WhileStatement (condition : Expression) (body : Statement)
  (isDoWhile : bool) : M unit :=
  generateLoop body (Some condition) None None isDoWhile.

End StatementVisits.

Definition visit_Continue : M unit := emit ("continue" ++ LF).

Definition visit_Break : M unit := emit ("break" ++ LF).

(** The loop of [endVisit(Return)] over several return parameters. *)
Fixpoint assignReturnParameters (returnParameters : list VariableDeclaration)
  (value : IRVariable) (i : nat) : M unit :=
  match returnParameters with
  | [] => ret tt
  | parameter :: rest =>
      variable <- localVariable parameter ;;
      assign variable (tupleComponent value i) ;;
      assignReturnParameters rest value (S i)
  end.

Definition endVisit_Return (expression : option Expression)
  (functionReturnParameters : option (list VariableDeclaration)) : M unit :=
  match expression with
  | Some value =>
      match functionReturnParameters with
      | None => solAssert false "Invalid return parameters pointer."
      | Some returnParameters =>
          if Nat.ltb 1 (List.length returnParameters) then
            assignReturnParameters returnParameters (IRVariable_of value) 0
          else if Nat.eqb (List.length returnParameters) 1 then
            front <- at_ returnParameters 0 ;;
            variable <- localVariable front ;;
            assign variable (IRVariable_of value)
          else ret tt
      end
  | None => ret tt
  end ;;
  emit ("leave" ++ LF).

(** [dynamic_cast<TupleType const*>(_type)->components()] *)
Definition tupleComponents (t : SolType) : option (list (option SolType)) :=
  match tkind t with
  | TupleType components => Some components
  | _ => None
  end.

(** The loop of [endVisit(VariableDeclarationStatement)] over the
    declarations of a tuple declaration. *)
Fixpoint defineTupleDeclarations
  (declarations : list (option VariableDeclaration))
  (components : list (option SolType)) (value : IRVariable) (i : nat)
  : M unit :=
  match declarations with
  | [] => ret tt
  | Some decl :: rest =>
      component <- at_ components i ;;
      solAssert (isSome component) "" ;;
      variable <- addLocalVariable decl ;;
      defineAs variable (tupleComponent value i) ;;
      defineTupleDeclarations rest components value (S i)
  | None :: rest => defineTupleDeclarations rest components value (S i)
  end.

Definition endVisit_VariableDeclarationStatement
  (declarations : list (option VariableDeclaration))
  (initialValue : option Expression) : M unit :=
  match initialValue with
  | Some expression =>
      if Nat.ltb 1 (List.length declarations) then
        match tupleComponents (type_of expression) with
        | None => solAssert false "Expected expression of tuple type."
        | Some components =>
            solAssert (Nat.eqb (List.length declarations)
                               (List.length components))
              "Invalid number of tuple components." ;;
            defineTupleDeclarations declarations components
              (IRVariable_of expression) 0
        end
      else
        match declarations with
        | Some varDecl :: _ =>
            variable <- addLocalVariable varDecl ;;
            defineAs variable (IRVariable_of expression)
        | _ => fail MalformedTree
        end
  | None =>
      forEach declarations
        (fun decl =>
           match decl with
           | Some d => variable <- addLocalVariable d ;; declare variable
           | None => ret tt
           end)
  end.

Definition visit_InlineAssembly (asmId : nat) : M unit :=
  match translatedBlock asmId with
  | OK text => emit (text ++ LF)
  | Err e => fail e
  end.

(** The traversal of statements; nodes without an override (blocks,
    expression statements, ...) are traversed by the base visitor. *)
Fixpoint acceptStatement (s : Statement) : M unit :=
  match s with
  | Block statements => forEach statements acceptStatement
  | IfStatement condition trueStatement falseStatement =>
      visit_IfStatement acceptStatement condition trueStatement falseStatement
  | ForStatement initializationExpression condition loopExpression body =>
      visit_ForStatement acceptStatement initializationExpression condition
        loopExpression body
  | WhileStatement condition body isDoWhile =>
      visit_WhileStatement acceptStatement condition body isDoWhile
  | Continue => visit_Continue
  | Break => visit_Break
  | Return expression functionReturnParameters =>
      acceptOptional expression ;;
      endVisit_Return expression functionReturnParameters
  | VariableDeclarationStatement declarations initialValue =>
      acceptOptional initialValue ;;
      endVisit_VariableDeclarationStatement declarations initialValue
  | ExpressionStatement expression => accept expression
  | InlineAssembly asmId => visit_InlineAssembly asmId
  | OtherStatement expressions statements =>
      forEach expressions accept ;;
      forEach statements acceptStatement
  end.

(** *** Entry points *)

Definition code : M string :=
  cur <- currentLValue ;;
  solAssert (negb (isSome cur)) "LValue not reset!" ;;
  fun st => OK (m_code st, st).

(** [initializeStateVar]; [value] is [_varDecl.value()]. *)
Definition initializeStateVar (_varDecl : VariableDeclaration)
  (value : option Expression) : M unit :=
  solAssert (isStateVariable _varDecl) "Must be a state variable." ;;
  solAssert (negb (isConstant _varDecl)) "" ;;
  match value with
  | Some initialValue =>
      accept initialValue ;;
      writeToLValue
        (IRLValue.mk (declType _varDecl)
           (IRLValue.Storage
              (toCompactHexWithPrefix
                 (fst (storageLocationOfVariable _varDecl)))
              (inr (snd (storageLocationOfVariable _varDecl)))))
        (IRVariable_of initialValue)
  | None => ret tt
  end.

End Generator.

(** * The inline assembly bridge: identifiers

    [CopyTranslate] copies the Yul block of an inline assembly statement
    and rewrites its identifiers on the way.  The three functions that it
    overrides are embedded here.  The identifiers of the block are keyed by
    their node in the map of external references (the source keys them by
    address). *)

(** [InlineAssemblyAnnotation::ExternalIdentifierInfo] *)
Module ExternalIdentifierInfo.
Record t : Type := {
  declaration : Declaration;
  isSlot : bool;
  isOffset : bool
}.
End ExternalIdentifierInfo.

Module Yul.
(** [yul::Identifier] *)
Record Identifier : Type := {
  node : nat;
  name : string
}.

(** The expressions that the copy of an identifier gives: a number literal
    or an identifier. *)
Inductive Expression : Type :=
| NumberLiteral (value : string)
| IdentifierExpression (identifierName : string).
End Yul.

Record CopyTranslate : Type := {
  (** [m_dialect.builtin(_name)] is not null *)
  m_dialect : string -> bool;
  m_references : nat -> option ExternalIdentifierInfo.t
}.

Section InlineAssemblyIdentifiers.

Context {FM : Formatting} {VO : IRVariableOps} {CX : IRGenerationContext}.

Variable this : CopyTranslate.

Definition translateIdentifier (_name : string) : string :=
  if m_dialect this _name then _name else "usr$" ++ _name.

(** [translate(yul::Identifier const&)]: the name of the identifier it
    returns.  Modelled from the spec, for an identifier that is not in the
    map of references ([ASTCopier::translate] is in libyul/optimiser, not
    among the sources): "every other identifier is namespace-prefixed to
    avoid colliding with output-language primitives, unless it names one of
    those primitives, which passes through unprefixed". *)
Definition translate (_identifier : Yul.Identifier) : M string :=
  match m_references this (Yul.node _identifier) with
  | None => ret (translateIdentifier (Yul.name _identifier))
  | Some reference =>
      match ExternalIdentifierInfo.declaration reference with
      | VariableDecl varDecl =>
          solAssert
            (negb (ExternalIdentifierInfo.isOffset reference) &&
             negb (ExternalIdentifierInfo.isSlot reference))
            "Should not be called for offset/slot" ;;
          variable <- localVariable varDecl ;;
          ret (name variable)
      | _ => solUnimplemented ""
      end
  end.

(** [operator()(yul::Identifier const&)].  Modelled from the spec, for the
    call of the base class at its end ([ASTCopier::operator()] is not among
    the sources): "an identifier referring to a high-level local variable
    is replaced by its generated IR name; every other identifier is
    namespace-prefixed", which is what [translate] does. *)
Definition copyIdentifier (_identifier : Yul.Identifier)
  : M Yul.Expression :=
  let base :=
    translated <- translate _identifier ;;
    ret (Yul.IdentifierExpression translated) in
  match m_references this (Yul.node _identifier) with
  | Some reference =>
      match ExternalIdentifierInfo.declaration reference with
      | VariableDecl varDecl =>
          if ExternalIdentifierInfo.isOffset reference ||
             ExternalIdentifierInfo.isSlot reference
          then
            solAssert
              (negb (Bool.eqb (ExternalIdentifierInfo.isOffset reference)
                       (ExternalIdentifierInfo.isSlot reference))) "" ;;
            let slot_offset := storageLocationOfVariable varDecl in
            let value :=
              if ExternalIdentifierInfo.isSlot reference
              then to_stringN (fst slot_offset)
              else to_string (snd slot_offset) in
            ret (Yul.NumberLiteral value)
          else base
      | _ => solUnimplemented ""
      end
  | None => base
  end.

End InlineAssemblyIdentifiers.

(** * A concrete configuration

    The interfaces instantiated with a small type system and plain names.
    The examples and the witnesses of the theorems run the generator on
    it. *)
Module Demo.

Definition decimal (n : nat) : string :=
  DecimalString.NilZero.string_of_uint (Nat.to_uint n).

Definition decimalN (n : N) : string :=
  DecimalString.NilZero.string_of_uint (N.to_uint n).

Definition hexN (n : N) : string :=
  "0x" ++ HexadecimalString.NilZero.string_of_uint (N.to_hex_uint n).

Definition slot : list (string * option SolType) := [("", None)].

Definition uint256T : SolType := mkType (IntegerType false) slot.
Definition int256T : SolType := mkType (IntegerType true) slot.
Definition boolT : SolType := mkType BoolType slot.
Definition addressT : SolType :=
  mkType (AddressType StateMutability.NonPayable) slot.
Definition byteT : SolType := mkType (FixedBytesType 1) slot.
Definition bytesMemoryT : SolType :=
  mkType (ArrayType DataLocation.Memory byteT None true) [("mpos", None)].

Fixpoint componentItems (cs : list (option SolType)) (i : nat)
  : list (string * option SolType) :=
  match cs with
  | [] => []
  | Some t :: cs' =>
      ("component_" ++ decimal i, Some t) :: componentItems cs' (S i)
  | None :: cs' => componentItems cs' (S i)
  end.

Definition tupleT (cs : list (option SolType)) : SolType :=
  mkType (TupleType cs) (componentItems cs 1).

Definition functionT (f : FunctionTypeInfo SolType) : SolType :=
  mkType (FunctionType f) [("address", None); ("functionIdentifier", None)].

Definition typeCode (t : SolType) : nat :=
  match tkind t with
  | IntegerType false => 1
  | IntegerType true => 2
  | BoolType => 3
  | AddressType _ => 4
  | RationalNumberType => 5
  | StringLiteralType => 6
  | FunctionType _ => 7
  | ArrayType _ _ _ _ => 8
  | MappingType => 9
  | ContractType _ => 10
  | EnumType _ => 11
  | StructType => 12
  | TypeType => 13
  | MagicType => 14
  | OtherType => 15
  | FixedBytesType n => 100 + n
  | TupleType cs => 200 + List.length cs
  end.

Definition bareKind (k : Kind.t) : bool :=
  match k with
  | Kind.BareCall | Kind.BareCallCode | Kind.BareDelegateCall
  | Kind.BareStaticCall | Kind.ECRecover | Kind.RIPEMD160 => true
  | _ => false
  end.

#[export] Instance typeSystem : TypeSystem := {|
  type_eqb := fun a b => Nat.eqb (typeCode a) (typeCode b);
  closestTemporaryType := fun _ target => target;
  isValueType := fun t =>
    match tkind t with
    | IntegerType _ | BoolType | AddressType _ | FixedBytesType _
    | EnumType _ | ContractType _ => true
    | _ => false
    end;
  sizeOnStack := fun t => List.length (stackItems t);
  literalValue := fun _ _ => 1%N;
  dataStoredIn := fun t loc =>
    match tkind t, loc with
    | ArrayType DataLocation.Storage _ _ _, DataLocation.Storage
    | ArrayType DataLocation.Memory _ _ _, DataLocation.Memory
    | ArrayType DataLocation.CallData _ _ _, DataLocation.CallData => true
    | _, _ => false
    end;
  isReferenceType := fun t =>
    match tkind t with
    | ArrayType _ _ _ _ | StructType => true
    | _ => false
    end;
  isDynamicallyEncoded := fun t =>
    match tkind t with
    | ArrayType _ _ None _ => true
    | _ => false
    end;
  decodingType := fun _ => None;
  calldataEncodedSize := fun _ => 32%N;
  hasMemberType := fun _ _ => false;
  kindNumber := fun k => match k with Kind.OtherKind n => n | _ => 0 end;
  isBareCall := fun f => bareKind (kind f);
  externalIdentifier := fun _ => 0%N;
  padArguments := fun _ => false;
  boolean := boolT;
  emptyTuple := tupleT [];
  uint256 := uint256T;
  address := addressT;
  byte := byteT;
  bytesMemory := bytesMemoryT
|}.

Definition joinWith (separator : string) (l : list string) : string :=
  String.concat separator l.

#[export] Instance formatting : Formatting := {|
  to_string := decimal;
  to_stringN := decimalN;
  formatNumber := decimalN;
  toCompactHexWithPrefix := hexN;
  joinHumanReadable := joinWith ", ";
  joinHumanReadablePrefixed := fun l =>
    match l with
    | [] => ""
    | _ => ", " ++ joinWith ", " l
    end;
  keccak256 := fun s => N.of_nat (String.length s)
|}.

(** A name is printed as a Yul identifier: letters, digits, [_], [$] and
    [.] stand for themselves, any other character is printed as [_]. *)
Definition isIdentifierChar (c : ascii) : bool :=
  let n := N_of_ascii c in
  (N.leb 48 n && N.leb n 57) || (N.leb 65 n && N.leb n 90) ||
  (N.leb 97 n && N.leb n 122) || N.eqb n 95 || N.eqb n 36 || N.eqb n 46.

Fixpoint identifier (s : string) : string :=
  match s with
  | EmptyString => EmptyString
  | String c s' =>
      String (if isIdentifierChar c then c else "_"%char) (identifier s')
  end.

Definition suffixedName (base suffix : string) : string :=
  if String.eqb suffix "" then base else base ++ "_" ++ suffix.

Fixpoint stackSlots (t : SolType) (base : string) : list string :=
  match t with
  | mkType _ items =>
      flat_map
        (fun item =>
           match snd item with
           | Some nested => stackSlots nested (suffixedName base (fst item))
           | None => [identifier (suffixedName base (fst item))]
           end) items
  end.

Definition partOf (v : IRVariable) (slotName : string) : IRVariable :=
  {| m_baseName := suffixedName (m_baseName v) slotName;
     m_type :=
       match Whiskers.lookup slotName (stackItems (m_type v)) with
       | Some (Some nested) => nested
       | _ => m_type v
       end |}.

#[export] Instance variableOps : IRVariableOps := {|
  expressionName := fun n => "expr_" ++ decimal n;
  declarationName := fun d => "vloc_" ++ decimal (declId d);
  name := fun v => identifier (m_baseName v);
  part := partOf;
  commaSeparatedList := fun v =>
    joinWith ", " (stackSlots (m_type v) (m_baseName v));
  commaSeparatedListPrefixed := fun v =>
    String.concat ""
      (List.map (fun s => ", " ++ s) (stackSlots (m_type v) (m_baseName v)));
  tupleComponent := fun v i => partOf v ("component_" ++ decimal (i + 1))
|}.

#[export] Instance yulUtilFunctions : YulUtilFunctions := {|
  m_utils := fun f =>
    match f with
    | storageSetToZeroFunction _ => "storage_set_to_zero"
    | zeroValueFunction _ => "zero_value"
    | incrementCheckedFunction _ => "increment"
    | decrementCheckedFunction _ => "decrement"
    | negateNumberCheckedFunction _ => "negate"
    | cleanupFunction _ => "cleanup"
    | overflowCheckedIntAddFunction _ => "checked_add"
    | overflowCheckedIntSubFunction _ => "checked_sub"
    | overflowCheckedIntMulFunction _ => "checked_mul"
    | overflowCheckedIntDivFunction _ => "checked_div"
    | checkedIntModFunction _ => "checked_mod"
    | conversionFunction _ _ => "convert"
    | requireOrAssertFunction true _ => "assert_helper"
    | requireOrAssertFunction false _ => "require_helper"
    | allocateMemoryArrayFunction _ => "allocate_memory_array"
    | arrayDataAreaFunction _ => "array_dataslot"
    | arrayLengthFunction _ => "array_length"
    | storageArrayPopFunction _ => "array_pop"
    | storageArrayPushZeroFunction _ => "array_push_zero"
    | storageArrayPushFunction _ => "array_push"
    | packedHashFunction _ _ => "packed_hash"
    | mappingIndexAccessFunction _ _ => "mapping_index_access"
    | storageArrayIndexAccessFunction _ => "storage_array_index_access"
    | memoryArrayIndexAccessFunction _ => "memory_array_index_access"
    | calldataArrayIndexAccessFunction _ => "calldata_array_index_access"
    | readFromCalldata _ => "read_from_calldata"
    | updateStorageValueFunction _ (Some n) =>
        "update_storage_value_offset_" ++ decimal n
    | updateStorageValueFunction _ None => "update_storage_value"
    | writeToMemoryFunction _ => "write_to_memory"
    | readFromStorageDynamic _ _ => "read_from_storage_dynamic"
    | readFromStorage _ n _ => "read_from_storage_offset_" ++ decimal n
    | readFromMemory _ => "read_from_memory"
    | shiftLeftFunction n => "shift_left_" ++ decimal n
    | forwardingRevertFunction => "revert_forward"
    end
|}.

#[export] Instance abiFunctions : ABIFunctions := {|
  abi := fun f =>
    match f with
    | tupleEncoder _ _ _ => "abi_encode_tuple"
    | tupleDecoder _ _ => "abi_decode_tuple"
    end
|}.

(** An EVM before the gas repricing: no overcharging of calls. *)
Definition homestead : EVMVersion :=
  {| hasStaticCall := false;
     supportsReturndata := false;
     canOverchargeGasForCall := false |}.

#[export] Instance context : IRGenerationContext := {|
  yulVariableName := fun n => "_" ++ decimal n;
  isStateVariable := fun _ => true;
  storageLocationOfVariable := fun d => (N.of_nat (declId d), 0);
  virtualFunctionName := fun n => "fun_" ++ decimal n;
  virtualFunctionId := fun n => n;
  internalDispatch := fun i o =>
    "dispatch_internal_in_" ++ decimal i ++ "_out_" ++ decimal o;
  evmVersion := homestead
|}.

#[export] Instance gasCosts : GasCosts := {|
  callGas := fun v => if canOverchargeGasForCall v then 700%N else 40%N;
  callValueTransferGas := 9000%N;
  callNewAccountGas := 25000%N
|}.

#[export] Instance compilerUtils : CompilerUtils := {|
  freeMemoryPointer := 64
|}.

#[export] Instance inlineAssemblyBridge : InlineAssemblyBridge := {|
  translatedBlock := fun _ => OK "{ }"
|}.

Definition start : State :=
  {| m_code := "";
     m_currentLValue := None;
     m_varCounter := 0;
     m_localVariables := [] |}.

(** Nodes: a local variable [x] (declaration 1) of type [uint256], read or
    written; a state variable [s] (declaration 2); a boolean local [b]
    (declaration 3). *)
Definition xDecl : VariableDeclaration :=
  {| declId := 1; isConstant := false; declType := uint256T |}.
Definition sDecl : VariableDeclaration :=
  {| declId := 2; isConstant := false; declType := uint256T |}.
Definition bDecl : VariableDeclaration :=
  {| declId := 3; isConstant := false; declType := boolT |}.

Definition withLocals : State :=
  {| m_code := "";
     m_currentLValue := None;
     m_varCounter := 0;
     m_localVariables :=
       [(1, {| m_baseName := "vloc_1"; m_type := uint256T |});
        (3, {| m_baseName := "vloc_3"; m_type := boolT |})] |}.

Definition node (n : nat) (t : SolType) (lvalue : bool)
  : ExpressionAnnotation :=
  {| id := n; type := t; lValueRequested := lvalue |}.

Definition readX (n : nat) : Expression :=
  Identifier (node n uint256T false) (VariableDecl xDecl) "x".
Definition writeX (n : nat) : Expression :=
  Identifier (node n uint256T true) (VariableDecl xDecl) "x".
Definition readS (n : nat) : Expression :=
  Identifier (node n uint256T false) (VariableDecl sDecl) "s".
Definition writeS (n : nat) : Expression :=
  Identifier (node n uint256T true) (VariableDecl sDecl) "s".
Definition readB (n : nat) : Expression :=
  Identifier (node n boolT false) (VariableDecl bDecl) "b".
Definition one (n : nat) : Expression :=
  Literal (node n (mkType RationalNumberType []) false).

(** [x += s], [x = s] (and the same annotated with the empty tuple type),
    [++s], [x <= s] over [int256], [b && b], [b || b]. *)
Definition compoundAssignment : Expression :=
  Assignment (node 10 uint256T false) (writeX 11) Token.AssignAdd (readS 12).
Definition plainAssignment : Expression :=
  Assignment (node 10 uint256T false) (writeX 11) Token.Assign (readS 12).
Definition unitAssignment : Expression :=
  Assignment (node 10 (tupleT []) false) (writeX 11) Token.Assign (readS 12).
Definition prefixIncrement : Expression :=
  UnaryOperation (node 20 uint256T false) Token.Inc (writeS 21) true.
Definition postfixDecrement : Expression :=
  UnaryOperation (node 20 uint256T false) Token.Dec (writeS 21) false.
Definition signedLessOrEqual : Expression :=
  BinaryOperation (node 30 boolT false) (Some int256T) (readX 31)
    Token.LessThanOrEqual (readS 32).
Definition conjunction : Expression :=
  BinaryOperation (node 30 boolT false) (Some boolT) (readB 31) Token.And
    (readB 32).
Definition disjunction : Expression :=
  BinaryOperation (node 30 boolT false) (Some boolT) (readB 31) Token.Or
    (readB 32).

(** [do { x; } while (b)] and [while (b) { x; }]. *)
Definition doWhile : Statement :=
  WhileStatement (readB 40) (ExpressionStatement (readX 41)) true.
Definition while : Statement :=
  WhileStatement (readB 40) (ExpressionStatement (readX 41)) false.

(** [(x, , s) = ...]: the tuple on the left of an assignment, with a hole. *)
Definition tupleTarget : Expression :=
  TupleExpression
    (node 60 (tupleT [Some uint256T; None; Some uint256T]) true)
    [Some (writeX 61); None; Some (writeS 62)] false.

(** A low-level call [a.call(...)] on an address [a] (declaration 4), and
    an external call [c.f{value: v}(x)] of a function with one [uint256]
    parameter. *)
Definition aDecl : VariableDeclaration :=
  {| declId := 4; isConstant := false; declType := addressT |}.

Definition withAddress : State :=
  {| m_code := "";
     m_currentLValue := None;
     m_varCounter := 0;
     m_localVariables :=
       [(1, {| m_baseName := "vloc_1"; m_type := uint256T |});
        (4, {| m_baseName := "vloc_4"; m_type := addressT |})] |}.

Definition bareCallType : FunctionTypeInfo SolType :=
  {| kind := Kind.BareCall;
     parameterTypes := [];
     parameterNames := [];
     returnParameterTypes := [boolT; bytesMemoryT];
     returnParameterTypesWithoutDynamicTypes := [boolT];
     gasSet := false;
     valueSet := false;
     bound := false;
     takesArbitraryParameters := true;
     stateMutability := StateMutability.Payable;
     declaration := None;
     externalSignature := "" |}.

Definition bareCallee : Expression :=
  MemberAccess (node 51 (functionT bareCallType) false) NoDeclaration
    (Identifier (node 52 addressT false) (VariableDecl aDecl) "a") "call".

Definition bareCall : Expression :=
  FunctionCall (node 50 uint256T false) FunctionCallKind.FunctionCall
    bareCallee [readX 53] [].

Definition externalCallType : FunctionTypeInfo SolType :=
  {| kind := Kind.External;
     parameterTypes := [uint256T];
     parameterNames := ["x"];
     returnParameterTypes := [uint256T];
     returnParameterTypesWithoutDynamicTypes := [uint256T];
     gasSet := false;
     valueSet := true;
     bound := false;
     takesArbitraryParameters := false;
     stateMutability := StateMutability.Payable;
     declaration := None;
     externalSignature := "f(uint256)" |}.

Definition externalCallee : Expression :=
  Identifier
    (node 71
       (mkType (FunctionType externalCallType)
          [("address", None); ("functionIdentifier", None); ("value", None)])
       false)
    OtherDeclaration "f".

(** [b ? x : s], [if (b) x; else s;], [for (;;) { x; }] and [return s;]
    in a function whose return parameter is [x]. *)
Definition conditional : Expression :=
  Conditional (node 80 uint256T false) (readB 81) (readX 82) (readS 83).
Definition ifElse : Statement :=
  IfStatement (readB 84) (ExpressionStatement (readX 85))
    (Some (ExpressionStatement (readS 86))).
Definition forever : Statement :=
  ForStatement None None None (ExpressionStatement (readX 87)).
Definition returnS : Statement :=
  Return (Some (readS 88)) (Some [xDecl]).

(** [(x)] on the left of an assignment, and [x + s]. *)
Definition parenthesised : Expression :=
  TupleExpression (node 90 uint256T true) [Some (writeX 91)] false.
Definition sum : Expression :=
  BinaryOperation (node 30 uint256T false) (Some uint256T) (readX 31)
    Token.Add (readS 32).

(** [uint256 y;] (declaration 5) and [(uint256 y, , uint256 z) = (x, s, x);]
    (declarations 5 and 6). *)
Definition yDecl : VariableDeclaration :=
  {| declId := 5; isConstant := false; declType := uint256T |}.
Definition zDecl : VariableDeclaration :=
  {| declId := 6; isConstant := false; declType := uint256T |}.
Definition declareY : Statement :=
  VariableDeclarationStatement [Some yDecl] None.
Definition triple : Expression :=
  TupleExpression
    (node 100 (tupleT [Some uint256T; Some uint256T; Some uint256T]) false)
    [Some (readX 101); Some (readS 102); Some (readX 103)] false.
Definition declareYZ : Statement :=
  VariableDeclarationStatement [Some yDecl; None; Some zDecl] (Some triple).

(** [require(b)] and the emission of an event [E(uint256 indexed, uint256)]
    on [x] and [s]. *)
Definition requireType : FunctionTypeInfo SolType :=
  {| kind := Kind.Require;
     parameterTypes := [boolT];
     parameterNames := [""];
     returnParameterTypes := [];
     returnParameterTypesWithoutDynamicTypes := [];
     gasSet := false;
     valueSet := false;
     bound := false;
     takesArbitraryParameters := false;
     stateMutability := StateMutability.Pure;
     declaration := None;
     externalSignature := "" |}.

Definition requireCallee : Expression :=
  Identifier (node 111 (functionT requireType) false) OtherDeclaration
    "require".

Definition eventType : FunctionTypeInfo SolType :=
  {| kind := Kind.Event;
     parameterTypes := [uint256T; uint256T];
     parameterNames := ["a"; "b"];
     returnParameterTypes := [];
     returnParameterTypesWithoutDynamicTypes := [];
     gasSet := false;
     valueSet := false;
     bound := false;
     takesArbitraryParameters := false;
     stateMutability := StateMutability.NonPayable;
     declaration :=
       Some {| isAnonymous := false; parametersIndexed := [true; false] |};
     externalSignature := "E(uint256,uint256)" |}.

Definition eventCallee : Expression :=
  Identifier (node 121 (functionT eventType) false) EventDef "E".

(** An inline assembly block with three identifiers: node 1 refers to the
    slot of [s], node 2 to the local variable [x], node 3 to nothing
    outside the block.  The dialect has a few builtins of the EVM. *)
Definition evmBuiltins : list string :=
  ["add"; "sub"; "mul"; "div"; "mload"; "mstore"; "sload"; "sstore";
   "call"; "gas"; "pop"; "revert"; "return"].

Definition copier : CopyTranslate :=
  {| m_dialect := fun n => existsb (fun b => String.eqb b n) evmBuiltins;
     m_references := fun n =>
       match n with
       | 1 =>
           Some {| ExternalIdentifierInfo.declaration := VariableDecl sDecl;
                   ExternalIdentifierInfo.isSlot := true;
                   ExternalIdentifierInfo.isOffset := false |}
       | 2 =>
           Some {| ExternalIdentifierInfo.declaration := VariableDecl xDecl;
                   ExternalIdentifierInfo.isSlot := false;
                   ExternalIdentifierInfo.isOffset := false |}
       | _ => None
       end |}.

End Demo.

(** * Reasoning about runs of the generator *)

(** [lowers m st out a st']: run from [st], [m] returns [a] in state [st']
    and has appended exactly [out] to the output stream. *)
Definition lowers {A : Type} (m : M A) (st : State) (out : string) (a : A)
  (st' : State) : Prop :=
  m st = OK (a, st') /\ m_code st' = m_code st ++ out.

(** The output stream is append-only: a run that returns leaves what was
    written before it in place. *)
Definition appends {A : Type} (m : M A) : Prop :=
  forall st a st',
    m st = OK (a, st') -> exists out, m_code st' = m_code st ++ out.

Lemma bind_OK {A B : Type} (m : M A) (k : A -> M B) st b st' :
  bind m k st = OK (b, st') ->
  exists a st1, m st = OK (a, st1) /\ k a st1 = OK (b, st').
Proof.
  unfold bind. destruct (m st) as [[a st1]|e]; intros H; [|discriminate].
  exists a, st1. split; [reflexivity | exact H].
Qed.

Lemma bind_Err {A B : Type} (m : M A) (k : A -> M B) st e :
  m st = Err e -> bind m k st = Err e.
Proof. unfold bind. intros ->. reflexivity. Qed.

Lemma bind_step {A B : Type} (m : M A) (k : A -> M B) st a st1 :
  m st = OK (a, st1) -> bind m k st = k a st1.
Proof. unfold bind. intros ->. reflexivity. Qed.

Lemma appends_lowers {A : Type} (m : M A) st a st' :
  appends m -> m st = OK (a, st') -> exists out, lowers m st out a st'.
Proof.
  intros Hm H. destruct (Hm _ _ _ H) as [out Hout].
  exists out. split; assumption.
Qed.

Lemma appends_out {A : Type} (m : M A) st a st' :
  appends m -> m st = OK (a, st') ->
  exists out, m_code st' = m_code st ++ out.
Proof. intros Hm H. exact (Hm _ _ _ H). Qed.
Arguments appends_out {A m st a st'} _ _.
Arguments appends_lowers {A m st a st'} _ _.

Lemma appends_ret {A : Type} (a : A) : appends (ret a).
Proof.
  intros st x st' H. injection H as _ <-. exists "".
  now rewrite append_nil_r.
Qed.

Lemma appends_fail {A : Type} (e : Error) : appends (@fail A e).
Proof. intros st x st' H. discriminate H. Qed.

Lemma appends_bind {A B : Type} (m : M A) (k : A -> M B) :
  appends m -> (forall a, appends (k a)) -> appends (bind m k).
Proof.
  intros Hm Hk st b st' H.
  apply bind_OK in H as (a & st1 & H1 & H2).
  destruct (Hm _ _ _ H1) as [o1 E1]. destruct (Hk _ _ _ _ H2) as [o2 E2].
  exists (o1 ++ o2). now rewrite E2, E1, append_assoc.
Qed.

Lemma appends_emit (s : string) : appends (emit s).
Proof. intros st x st' H. injection H as _ <-. now exists s. Qed.

Lemma appends_solAssert c d : appends (solAssert c d).
Proof. destruct c; [apply appends_ret | apply appends_fail]. Qed.

Lemma appends_solUnimplementedAssert c d :
  appends (solUnimplementedAssert c d).
Proof. destruct c; [apply appends_ret | apply appends_fail]. Qed.

Lemma appends_solUnimplemented {A : Type} d :
  appends (@solUnimplemented A d).
Proof. apply appends_fail. Qed.

Lemma appends_currentLValue : appends currentLValue.
Proof.
  intros st x st' H. injection H as _ <-. exists "".
  now rewrite append_nil_r.
Qed.

Lemma appends_putLValue l : appends (putLValue l).
Proof.
  intros st x st' H. injection H as _ <-. exists "". simpl.
  now rewrite append_nil_r.
Qed.

Lemma appends_forEach {A : Type} (xs : list A) (body : A -> M unit) :
  (forall x, In x xs -> appends (body x)) -> appends (forEach xs body).
Proof.
  unfold forEach. induction xs as [|x xs IH]; intros H.
  - apply appends_ret.
  - apply appends_bind.
    + apply H. now left.
    + intros _. apply IH. intros y Hy. apply H. now right.
Qed.

Create HintDb gen discriminated.
#[export] Hint Resolve appends_ret appends_fail appends_emit appends_solAssert
  appends_solUnimplementedAssert appends_solUnimplemented
  appends_currentLValue appends_putLValue : gen.

(** One step of a proof that a computation only appends. *)
Ltac appends_step :=
  first
    [ solve [auto with gen]
    | progress cbv zeta
    | apply appends_bind; [| intro]
    | match goal with
      | |- appends (if ?c then _ else _) => destruct c
      | |- appends (match ?x with _ => _ end) => destruct x
      end ].

Ltac appends_tac := repeat appends_step.

(** Inversion of a run that returned: split the first [bind]. *)
Tactic Notation "run_inv" hyp(H) "as" simple_intropattern(a) ident(st)
  ident(H1) :=
  apply bind_OK in H as (a & st & H1 & H).

Section Appends.

Context {TS : TypeSystem} {FM : Formatting} {VO : IRVariableOps}
        {YU : YulUtilFunctions} {AB : ABIFunctions}
        {CX : IRGenerationContext} {GC : GasCosts} {CU : CompilerUtils}
        {IA : InlineAssemblyBridge}.

Lemma appends_newYulVariable : appends newYulVariable.
Proof.
  intros st x st' H. injection H as _ <-. exists "". simpl.
  now rewrite append_nil_r.
Qed.

Lemma appends_isLocalVariable d : appends (isLocalVariable d).
Proof.
  intros st x st' H. injection H as _ <-. exists "".
  now rewrite append_nil_r.
Qed.

Lemma appends_addLocalVariable d : appends (addLocalVariable d).
Proof.
  intros st x st' H. unfold addLocalVariable in H.
  destruct (lookupLocal (declId d) (m_localVariables st)); [discriminate|].
  injection H as _ <-. exists "". simpl. now rewrite append_nil_r.
Qed.

Lemma appends_localVariable d : appends (localVariable d).
Proof.
  intros st x st' H. unfold localVariable in H.
  destruct (lookupLocal (declId d) (m_localVariables st)); [|discriminate].
  injection H as _ <-. exists "". now rewrite append_nil_r.
Qed.

Hint Resolve appends_newYulVariable appends_isLocalVariable
  appends_addLocalVariable appends_localVariable : gen.

Lemma appends_define v : appends (define v).
Proof. unfold define. appends_tac. Qed.

Lemma appends_declare v : appends (declare v).
Proof. unfold declare. appends_tac. Qed.

Lemma appends_declareAssign_at ty :
  forall lhs rhs d, appends (declareAssign_at ty lhs rhs d).
Proof.
  induction ty as [k items IH] using SolType_items_ind. intros lhs rhs d.
  simpl. destruct (type_eqb (m_type lhs) (m_type rhs)); [|appends_tac].
  induction items as [|[n [t|]] items IHitems].
  - appends_tac.
  - apply appends_bind.
    + apply (IH n t). now left.
    + intros _. apply IHitems. intros n' t' H. apply (IH n' t'). now right.
  - apply appends_bind; [appends_tac|].
    intros _. apply IHitems. intros n' t' H. apply (IH n' t'). now right.
Qed.

Lemma appends_declareAssign lhs rhs d : appends (declareAssign lhs rhs d).
Proof. apply appends_declareAssign_at. Qed.

Lemma appends_defineAs v x : appends (defineAs v x).
Proof. apply appends_declareAssign. Qed.

Lemma appends_assign v x : appends (assign v x).
Proof. apply appends_declareAssign. Qed.

Hint Resolve appends_define appends_declare appends_defineAs appends_assign
  : gen.

Lemma appends_convert v t : appends (convert v t).
Proof. unfold convert. appends_tac. Qed.

Lemma appends_binaryOperation op t l r : appends (binaryOperation op t l r).
Proof. unfold binaryOperation. appends_tac. Qed.

Hint Resolve appends_convert appends_binaryOperation : gen.

(** Induction on an lvalue through the components of a tuple. *)
Lemma IRLValue_components_ind (P : IRLValue.t -> Prop)
  (HStack : forall ty v, P (IRLValue.mk ty (IRLValue.Stack v)))
  (HStorage : forall ty s o, P (IRLValue.mk ty (IRLValue.Storage s o)))
  (HMemory : forall ty a b, P (IRLValue.mk ty (IRLValue.Memory a b)))
  (HTuple : forall ty cs,
      (forall l, In (Some l) cs -> P l) ->
      P (IRLValue.mk ty (IRLValue.Tuple cs))) :
  forall l, P l.
Proof.
  fix IH 1. intros [ty [v|s o|a b|cs]].
  - apply HStack.
  - apply HStorage.
  - apply HMemory.
  - apply HTuple. revert cs. fix IHcs 1. intros [|[c|] cs] l H.
    + destruct H.
    + destruct H as [E|H].
      * injection E as E. rewrite <- E. apply IH.
      * exact (IHcs cs l H).
    + destruct H as [E|H].
      * discriminate E.
      * exact (IHcs cs l H).
Qed.

(** The body of the loop of [writeToLValue] on a tuple: the write to the
    component at [idx], when there is one. *)
Definition writeComponent (cs : list (option IRLValue.t)) (idx : nat)
  (value : IRVariable) : M unit :=
  match nth_error cs idx with
  | Some (Some component) => writeToLValue component value
  | _ => ret tt
  end.

Lemma writeToLValue_Tuple ty cs v :
  writeToLValue (IRLValue.mk ty (IRLValue.Tuple cs)) v =
  forEach (seq 0 (List.length cs))
    (fun i =>
       let idx := List.length cs - i - 1 in
       writeComponent cs idx (tupleComponent v idx)).
Proof.
  simpl. unfold forEach.
  induction (seq 0 (List.length cs)) as [|i idxs IH]; [reflexivity|].
  rewrite IH. clear IH. f_equal.
  generalize (List.length cs - i - 1) as idx. intros idx.
  generalize (tupleComponent v idx) as value. intros value.
  unfold writeComponent. revert idx.
  induction cs as [|c cs IHcs]; intros [|idx]; simpl; try reflexivity.
  apply IHcs.
Qed.

Lemma appends_writeToLValue l : forall v, appends (writeToLValue l v).
Proof.
  induction l as [ty x|ty s o|ty a b|ty cs IH] using IRLValue_components_ind;
    intros v.
  - simpl. appends_tac.
  - simpl. appends_tac.
  - simpl. appends_tac.
  - rewrite writeToLValue_Tuple. apply appends_forEach. intros i _.
    cbv zeta. unfold writeComponent.
    destruct (nth_error cs (List.length cs - i - 1)) as [[c|]|] eqn:E;
      try apply appends_ret.
    apply IH. eapply nth_error_In; eauto.
Qed.

Hint Resolve appends_writeToLValue : gen.

Lemma appends_readFromLValue l : appends (readFromLValue l).
Proof. unfold readFromLValue. appends_tac. Qed.

Hint Resolve appends_readFromLValue : gen.

Lemma appends_setLValue e l : appends (setLValue e l).
Proof. unfold setLValue. appends_tac. Qed.

Hint Resolve appends_setLValue : gen.

Lemma appends_at_ {A : Type} (v : list A) i : appends (at_ v i).
Proof. unfold at_. appends_tac. Qed.

Lemma appends_renderTemplate t w : appends (renderTemplate t w).
Proof. unfold renderTemplate. appends_tac. Qed.

Lemma appends_arrayBaseType t : appends (arrayBaseType t).
Proof. unfold arrayBaseType. appends_tac. Qed.

Lemma appends_memberAccessArrayType e : appends (memberAccessArrayType e).
Proof. unfold memberAccessArrayType. appends_tac. Qed.

Hint Resolve appends_at_ appends_renderTemplate appends_arrayBaseType
  appends_memberAccessArrayType : gen.

Lemma appends_namedArguments args names ps :
  appends (namedArguments args names ps).
Proof. induction ps as [|p ps IH]; simpl; appends_tac. Qed.

Lemma appends_internalCallArguments arb ps args :
  forall i, appends (internalCallArguments arb ps args i).
Proof. induction args as [|a args IH]; intros i; simpl; appends_tac. Qed.

Lemma appends_eventArguments indexed args ps :
  forall i acc, appends (eventArguments indexed args ps i acc).
Proof.
  induction indexed as [|b indexed IH]; intros i acc; simpl; appends_tac.
Qed.

Lemma appends_returnSize b ts : forall n, appends (returnSize b ts n).
Proof. induction ts as [|t ts IH]; intros n; simpl; appends_tac. Qed.

Hint Resolve appends_namedArguments appends_internalCallArguments
  appends_eventArguments appends_returnSize : gen.

Lemma appends_appendExternalFunctionCall a e args :
  appends (appendExternalFunctionCall a e args).
Proof. unfold appendExternalFunctionCall. appends_tac. Qed.

Hint Resolve appends_appendExternalFunctionCall : gen.

Lemma appends_endVisit_FunctionCall a k e args names :
  appends (endVisit_FunctionCall a k e args names).
Proof. unfold endVisit_FunctionCall. appends_tac. Qed.

Lemma appends_endVisit_MemberAccess a d e m :
  appends (endVisit_MemberAccess a d e m).
Proof. unfold endVisit_MemberAccess. appends_tac. Qed.

Lemma appends_endVisit_IndexAccess a b i :
  appends (endVisit_IndexAccess a b i).
Proof. unfold endVisit_IndexAccess. appends_tac. Qed.

Lemma appends_endVisit_Identifier a d n :
  appends (endVisit_Identifier a d n).
Proof. unfold endVisit_Identifier. appends_tac. Qed.

Lemma appends_visit_Literal a : appends (visit_Literal a).
Proof. unfold visit_Literal. appends_tac. Qed.

Lemma appends_appendSimpleUnaryOperation a op e :
  appends (appendSimpleUnaryOperation a op e).
Proof. unfold appendSimpleUnaryOperation. appends_tac. Qed.

Hint Resolve appends_appendSimpleUnaryOperation : gen.

Lemma appends_endVisit_UnaryOperation a op e p :
  appends (endVisit_UnaryOperation a op e p).
Proof. unfold endVisit_UnaryOperation. appends_tac. Qed.

Lemma appends_compareExpression op sg args :
  appends (compareExpression op sg args).
Proof. unfold compareExpression. appends_tac. Qed.

Hint Resolve appends_endVisit_FunctionCall appends_endVisit_MemberAccess
  appends_endVisit_IndexAccess appends_endVisit_Identifier
  appends_visit_Literal appends_endVisit_UnaryOperation
  appends_compareExpression : gen.

(** Induction on an expression through its sub-expressions. *)
Lemma Expression_sub_ind (P : Expression -> Prop)
  (HConditional : forall a c t f,
      P c -> P t -> P f -> P (Conditional a c t f))
  (HAssignment : forall a l op r, P l -> P r -> P (Assignment a l op r))
  (HTuple : forall a cs i,
      (forall e, In (Some e) cs -> P e) -> P (TupleExpression a cs i))
  (HUnary : forall a op e p, P e -> P (UnaryOperation a op e p))
  (HBinary : forall a ct l op r,
      P l -> P r -> P (BinaryOperation a ct l op r))
  (HCall : forall a k e args names,
      P e -> (forall x, In x args -> P x) -> P (FunctionCall a k e args names))
  (HMember : forall a d e m, P e -> P (MemberAccess a d e m))
  (HIndex : forall a b i,
      P b -> (forall x, i = Some x -> P x) -> P (IndexAccess a b i))
  (HRange : forall a b s e,
      P b -> (forall x, s = Some x -> P x) -> (forall x, e = Some x -> P x) ->
      P (IndexRangeAccess a b s e))
  (HIdentifier : forall a d n, P (Identifier a d n))
  (HLiteral : forall a, P (Literal a))
  (HOther : forall a children,
      (forall x, In x children -> P x) -> P (OtherExpression a children)) :
  forall e, P e.
Proof.
  fix IH 1. intros [a c t f|a l op r|a cs i|a op e p|a ct l op r
                   |a k e args names|a d e m|a b i|a b s e|a d n|a
                   |a children].
  - apply HConditional; apply IH.
  - apply HAssignment; apply IH.
  - apply HTuple. revert cs. fix IHcs 1. intros [|[c|] cs] e H.
    + destruct H.
    + destruct H as [E|H].
      * injection E as E. rewrite <- E. apply IH.
      * exact (IHcs cs e H).
    + destruct H as [E|H].
      * discriminate E.
      * exact (IHcs cs e H).
  - apply HUnary; apply IH.
  - apply HBinary; apply IH.
  - apply HCall; [apply IH|].
    revert args. fix IHargs 1. intros [|x args] y H.
    + destruct H.
    + destruct H as [E|H].
      * rewrite <- E. apply IH.
      * exact (IHargs args y H).
  - apply HMember; apply IH.
  - apply HIndex; [apply IH|]. destruct i as [x|]; intros y E.
    + injection E as E. rewrite <- E. apply IH.
    + discriminate E.
  - apply HRange; [apply IH| |].
    + destruct s as [x|]; intros y E.
      * injection E as E. rewrite <- E. apply IH.
      * discriminate E.
    + destruct e as [x|]; intros y E.
      * injection E as E. rewrite <- E. apply IH.
      * discriminate E.
  - apply HIdentifier.
  - apply HLiteral.
  - apply HOther. revert children. fix IHch 1. intros [|x children] y H.
    + destruct H.
    + destruct H as [E|H].
      * rewrite <- E. apply IH.
      * exact (IHch children y H).
Qed.

Lemma appends_lowerTupleComponents (acc : Expression -> M unit) a cs :
  (forall e, In (Some e) cs -> appends (acc e)) ->
  forall i lvalues, appends (lowerTupleComponents acc a cs i lvalues).
Proof.
  induction cs as [|[c|] cs IH]; intros H i lvalues; simpl.
  - appends_tac.
  - apply appends_bind; [apply H; now left|]. intros _.
    assert (forall e, In (Some e) cs -> appends (acc e))
      by (intros e He; apply H; now right).
    appends_tac.
  - assert (forall e, In (Some e) cs -> appends (acc e))
      by (intros e He; apply H; now right).
    appends_tac.
Qed.

Lemma appends_accept : forall e, appends (accept e).
Proof.
  induction e using Expression_sub_ind; simpl.
  - unfold visit_Conditional. appends_tac.
  - unfold visit_Assignment. appends_tac.
  - unfold visit_TupleExpression.
    destruct i; [appends_tac|].
    apply appends_bind; [appends_tac|]. intros _.
    destruct (Nat.eqb (List.length cs) 1).
    + destruct cs as [|[front|] cs]; [appends_tac| |appends_tac].
      apply appends_bind; [apply H; now left|]. intros _. appends_tac.
    + apply appends_bind;
        [apply appends_lowerTupleComponents; exact H|].
      intros lvalues. appends_tac.
  - appends_tac.
  - unfold visit_BinaryOperation, appendAndOrOperatorCode. appends_tac.
  - apply appends_bind; [assumption|]. intros _.
    apply appends_bind; [apply appends_forEach; assumption|]. intros _.
    appends_tac.
  - appends_tac.
  - apply appends_bind; [assumption|]. intros _.
    apply appends_bind.
    + destruct i as [x|]; [apply H; reflexivity | appends_tac].
    + intros _. appends_tac.
  - apply appends_bind; [assumption|]. intros _.
    apply appends_bind.
    + destruct s as [x|]; [apply H; reflexivity | appends_tac].
    + intros _. apply appends_bind.
      * destruct e0 as [x|]; [apply H0; reflexivity | appends_tac].
      * intros _. unfold endVisit_IndexRangeAccess. appends_tac.
  - appends_tac.
  - appends_tac.
  - apply appends_forEach. assumption.
Qed.

Hint Resolve appends_accept : gen.

Lemma appends_acceptOptional e : appends (acceptOptional e).
Proof. unfold acceptOptional. appends_tac. Qed.

Hint Resolve appends_acceptOptional : gen.

(** Induction on a statement through its sub-statements. *)
Lemma Statement_sub_ind (P : Statement -> Prop)
  (HBlock : forall ss, (forall x, In x ss -> P x) -> P (Block ss))
  (HIf : forall c t f,
      P t -> (forall x, f = Some x -> P x) -> P (IfStatement c t f))
  (HFor : forall i c l b,
      (forall x, i = Some x -> P x) -> P b -> P (ForStatement i c l b))
  (HWhile : forall c b d, P b -> P (WhileStatement c b d))
  (HContinue : P Continue)
  (HBreak : P Break)
  (HReturn : forall e ps, P (Return e ps))
  (HDecl : forall ds e, P (VariableDeclarationStatement ds e))
  (HExpr : forall e, P (ExpressionStatement e))
  (HAsm : forall n, P (InlineAssembly n))
  (HOther : forall es ss,
      (forall x, In x ss -> P x) -> P (OtherStatement es ss)) :
  forall s, P s.
Proof.
  fix IH 1. intros [ss|c t f|i c l b|c b d| | |e ps|ds e|e|n|es ss].
  - apply HBlock. revert ss. fix IHss 1. intros [|x ss] y H.
    + destruct H.
    + destruct H as [E|H].
      * rewrite <- E. apply IH.
      * exact (IHss ss y H).
  - apply HIf; [apply IH|]. destruct f as [x|]; intros y E.
    + injection E as E. rewrite <- E. apply IH.
    + discriminate E.
  - apply HFor; [|apply IH]. destruct i as [x|]; intros y E.
    + injection E as E. rewrite <- E. apply IH.
    + discriminate E.
  - apply HWhile; apply IH.
  - apply HContinue.
  - apply HBreak.
  - apply HReturn.
  - apply HDecl.
  - apply HExpr.
  - apply HAsm.
  - apply HOther. revert ss. fix IHss 1. intros [|x ss] y H.
    + destruct H.
    + destruct H as [E|H].
      * rewrite <- E. apply IH.
      * exact (IHss ss y H).
Qed.

Lemma appends_generateLoop (acc : Statement -> M unit) body c i l d :
  appends (acc body) -> (forall x, i = Some x -> appends (acc x)) ->
  appends (generateLoop acc body c i l d).
Proof.
  intros Hb Hi. unfold generateLoop.
  apply appends_bind; [appends_tac|]. intros firstRun.
  apply appends_bind; [appends_tac|]. intros _.
  apply appends_bind.
  { destruct i as [x|]; [apply Hi; reflexivity | appends_tac]. }
  intros _. appends_tac.
Qed.

Lemma appends_assignReturnParameters ps v :
  forall i, appends (assignReturnParameters ps v i).
Proof. induction ps as [|p ps IH]; intros i; simpl; appends_tac. Qed.

Lemma appends_defineTupleDeclarations ds cs v :
  forall i, appends (defineTupleDeclarations ds cs v i).
Proof. induction ds as [|[d|] ds IH]; intros i; simpl; appends_tac. Qed.

Hint Resolve appends_assignReturnParameters appends_defineTupleDeclarations
  : gen.

Lemma appends_acceptStatement : forall s, appends (acceptStatement s).
Proof.
  induction s using Statement_sub_ind; simpl.
  - apply appends_forEach. assumption.
  - unfold visit_IfStatement.
    apply appends_bind; [appends_tac|]. intros _. cbv zeta.
    apply appends_bind.
    + destruct f as [x|]; [|appends_tac].
      apply appends_bind; [appends_tac|]. intros _.
      apply appends_bind; [apply H; reflexivity|]. intros _. appends_tac.
    + intros _. appends_tac.
  - unfold visit_ForStatement. apply appends_generateLoop; assumption.
  - unfold visit_WhileStatement. apply appends_generateLoop;
      [assumption | discriminate].
  - unfold visit_Continue. appends_tac.
  - unfold visit_Break. appends_tac.
  - unfold endVisit_Return. appends_tac.
  - unfold endVisit_VariableDeclarationStatement.
    apply appends_bind; [appends_tac|]. intros _.
    destruct e as [x|]; [appends_tac|].
    apply appends_forEach. intros [d|] _; appends_tac.
  - appends_tac.
  - unfold visit_InlineAssembly. appends_tac.
  - apply appends_bind; [apply appends_forEach; intros; appends_tac|].
    intros _. apply appends_forEach. assumption.
Qed.

End Appends.

(** * Runs that returned *)

Lemma ret_OK {A : Type} (a b : A) st st' :
  ret a st = OK (b, st') -> b = a /\ st' = st.
Proof. intros H. injection H as -> ->. split; reflexivity. Qed.

Lemma currentLValue_OK cur st st' :
  currentLValue st = OK (cur, st') -> cur = m_currentLValue st /\ st' = st.
Proof. intros H. injection H as <- <-. split; reflexivity. Qed.

Lemma solAssert_OK c d u st st' :
  solAssert c d st = OK (u, st') -> c = true /\ st' = st.
Proof.
  destruct c; simpl; intros H; [|discriminate].
  injection H as _ <-. split; reflexivity.
Qed.

Lemma solUnimplementedAssert_OK c d u st st' :
  solUnimplementedAssert c d st = OK (u, st') -> c = true /\ st' = st.
Proof.
  destruct c; simpl; intros H; [|discriminate].
  injection H as _ <-. split; reflexivity.
Qed.

Lemma putLValue_OK l u st st' :
  putLValue l st = OK (u, st') ->
  m_code st' = m_code st /\ m_currentLValue st' = l /\
  m_varCounter st' = m_varCounter st /\
  m_localVariables st' = m_localVariables st.
Proof. intros H. injection H as _ <-. repeat split. Qed.

Lemma emit_OK s u st st' :
  emit s st = OK (u, st') ->
  m_code st' = m_code st ++ s /\
  m_currentLValue st' = m_currentLValue st /\
  m_varCounter st' = m_varCounter st /\
  m_localVariables st' = m_localVariables st.
Proof. intros H. injection H as _ <-. repeat split. Qed.

Lemma lowers_emit s st u st' :
  emit s st = OK (u, st') -> lowers (emit s) st s u st'.
Proof. intros H. split; [exact H | now apply emit_OK in H]. Qed.

Lemma unit_eta (u : unit) : u = tt.
Proof. now destruct u. Qed.

(** * Blocks of the emitted text

    The emitted text is read as Yul by a later stage.  The generator writes
    neither string literals nor comments, so what that stage takes as the
    body of a block is decided by the braces alone: the body ends at the
    first closing brace that is not matched by an opening brace of the
    body.  [braceDepth s d] scans [s] from nesting depth [d] and gives the
    depth at the end, unless a closing brace has no block to close. *)

Definition isOpenBrace (c : ascii) : bool := Ascii.eqb c "{"%char.
Definition isCloseBrace (c : ascii) : bool := Ascii.eqb c "}"%char.

Fixpoint braceDepth (s : string) (d : nat) : option nat :=
  match s with
  | EmptyString => Some d
  | String c s' =>
      if isOpenBrace c then braceDepth s' (S d)
      else if isCloseBrace c then
        match d with
        | O => None
        | S d' => braceDepth s' d'
        end
      else braceDepth s' d
  end.

Definition level (s : string) (d d' : nat) : Prop := braceDepth s d = Some d'.

(** A text is balanced when it opens and closes blocks of its own only. *)
Definition balanced (s : string) : Prop := forall d, level s d d.

(** [blockBody s d]: [s] follows the opening brace of a block and [d]
    blocks were opened since; the result is the text up to the brace that
    closes the block, and the text after that brace. *)
Fixpoint blockBody (s : string) (d : nat) : option (string * string) :=
  match s with
  | EmptyString => None
  | String c s' =>
      let keep (r : option (string * string)) :=
        match r with
        | Some (body, rest) => Some (String c body, rest)
        | None => None
        end in
      if isOpenBrace c then keep (blockBody s' (S d))
      else if isCloseBrace c then
        match d with
        | O => Some (EmptyString, s')
        | S d' => keep (blockBody s' d')
        end
      else keep (blockBody s' d)
  end.

Lemma braceDepth_app a b d :
  braceDepth (a ++ b) d =
  match braceDepth a d with
  | Some d' => braceDepth b d'
  | None => None
  end.
Proof.
  revert d. induction a as [|c a IH]; intros d; simpl; [reflexivity|].
  destruct (isOpenBrace c); [apply IH|].
  destruct (isCloseBrace c); [|apply IH].
  destruct d; [reflexivity | apply IH].
Qed.

Lemma level_app a b d d1 d2 :
  level a d d1 -> level b d1 d2 -> level (a ++ b) d d2.
Proof. unfold level. intros Ha Hb. now rewrite braceDepth_app, Ha. Qed.

Lemma level_nil d : level "" d d.
Proof. reflexivity. Qed.

Lemma balanced_nil : balanced "".
Proof. intros d. reflexivity. Qed.

Lemma balanced_app a b : balanced a -> balanced b -> balanced (a ++ b).
Proof. intros Ha Hb d. eapply level_app; [apply Ha | apply Hb]. Qed.

Lemma level_cons_plain c s d d' :
  isOpenBrace c = false -> isCloseBrace c = false ->
  level s d d' -> level (String c s) d d'.
Proof. unfold level. simpl. intros -> ->. exact (fun H => H). Qed.

Lemma level_cons_open c s d d' :
  isOpenBrace c = true -> level s (S d) d' -> level (String c s) d d'.
Proof. unfold level. simpl. intros ->. exact (fun H => H). Qed.

Lemma level_cons_close c s d d' :
  isOpenBrace c = false -> isCloseBrace c = true ->
  level s d d' -> level (String c s) (S d) d'.
Proof. unfold level. simpl. intros -> ->. exact (fun H => H). Qed.

Lemma blockBody_level b t d d' :
  level b d d' ->
  blockBody (b ++ t) d =
  match blockBody t d' with
  | Some (body, rest) => Some (b ++ body, rest)
  | None => None
  end.
Proof.
  unfold level. revert d. induction b as [|c b IH]; intros d H; simpl in *.
  - injection H as <-. destruct (blockBody t d) as [[body rest]|]; reflexivity.
  - destruct (isOpenBrace c).
    + rewrite (IH _ H).
      destruct (blockBody t d') as [[body rest]|]; reflexivity.
    + destruct (isCloseBrace c).
      * destruct d as [|d0]; [discriminate|].
        rewrite (IH _ H).
        destruct (blockBody t d') as [[body rest]|]; reflexivity.
      * rewrite (IH _ H).
        destruct (blockBody t d') as [[body rest]|]; reflexivity.
Qed.

(** A balanced text followed by a closing brace is the body of the block
    that the brace closes. *)
Lemma blockBody_balanced b rest :
  balanced b -> blockBody (b ++ "}" ++ rest) 0 = Some (b, rest).
Proof.
  intros H. rewrite (blockBody_level _ (H 0)). simpl.
  now rewrite append_nil_r.
Qed.

(** ** What a run may assume of the values it handles

    The texts that flow through the generator as values (names, argument
    lists, the slot and address expressions kept in an lvalue) are
    balanced. *)
Class Checked (A : Type) : Type := checked : A -> Prop.

#[export] Instance Checked_unit : Checked unit := fun _ => True.
#[export] Instance Checked_bool : Checked bool := fun _ => True.
#[export] Instance Checked_nat : Checked nat := fun _ => True.
#[export] Instance Checked_N : Checked N := fun _ => True.
#[export] Instance Checked_SolType : Checked SolType := fun _ => True.
#[export] Instance Checked_Expression : Checked Expression := fun _ => True.
#[export] Instance Checked_IRVariable : Checked IRVariable := fun _ => True.
#[export] Instance Checked_Whiskers : Checked Whiskers.t := fun _ => True.
#[export] Instance Checked_VariableDeclaration
  : Checked VariableDeclaration := fun _ => True.
#[export] Instance Checked_string : Checked string := balanced.
#[export] Instance Checked_EventArguments : Checked EventArguments :=
  fun e => balanced (nonIndexedArgs e).
#[export] Instance Checked_list (A : Type) `{Checked A} : Checked (list A) :=
  Forall checked.
#[export] Instance Checked_option (A : Type) `{Checked A}
  : Checked (option A) :=
  fun o => match o with Some x => checked x | None => True end.
#[export] Instance Checked_prod (A B : Type) `{Checked A} `{Checked B}
  : Checked (A * B) :=
  fun p => checked (fst p) /\ checked (snd p).

Fixpoint checkedLValue (l : IRLValue.t) : Prop :=
  match l with
  | IRLValue.mk _ (IRLValue.Stack _) => True
  | IRLValue.mk _ (IRLValue.Storage slot offset) =>
      balanced slot /\
      match offset with
      | inl dynamicOffset => balanced dynamicOffset
      | inr _ => True
      end
  | IRLValue.mk _ (IRLValue.Memory address_ _) => balanced address_
  | IRLValue.mk _ (IRLValue.Tuple components) =>
      (fix all (cs : list (option IRLValue.t)) : Prop :=
         match cs with
         | [] => True
         | Some c :: cs' => checkedLValue c /\ all cs'
         | None :: cs' => all cs'
         end) components
  end.

#[export] Instance Checked_IRLValue : Checked IRLValue.t := checkedLValue.

(** [emitsLevel m d d']: a run of [m] that returns, from a state whose
    active lvalue is checked, leaves a checked lvalue, returns a checked
    value, and appends a text that takes the nesting depth from [d] to
    [d']. *)
Definition emitsLevel {A : Type} {CA : Checked A} (m : M A) (d d' : nat)
  : Prop :=
  forall st a st',
    checked (m_currentLValue st) -> m st = OK (a, st') ->
    checked (m_currentLValue st') /\ checked a /\
    exists out, m_code st' = m_code st ++ out /\ level out d d'.

Lemma emitsLevel_ret {A : Type} {CA : Checked A} (a : A) d :
  checked a -> emitsLevel (ret a) d d.
Proof.
  intros Ha st x st' Hst H. apply ret_OK in H as [-> ->].
  repeat split; try assumption. exists "".
  split; [now rewrite append_nil_r | reflexivity].
Qed.

Lemma emitsLevel_fail {A : Type} {CA : Checked A} (e : Error) d d' :
  emitsLevel (@fail A e) d d'.
Proof. intros st x st' _ H. discriminate H. Qed.

Lemma emitsLevel_bind {A B : Type} {CA : Checked A} {CB : Checked B}
  (m : M A) (k : A -> M B) d d1 d2 :
  emitsLevel m d d1 ->
  (forall a, checked a -> emitsLevel (k a) d1 d2) ->
  emitsLevel (bind m k) d d2.
Proof.
  intros Hm Hk st b st' Hst H.
  apply bind_OK in H as (a & st1 & H1 & H2).
  destruct (Hm _ _ _ Hst H1) as (Hst1 & Ha & o1 & E1 & L1).
  destruct (Hk _ Ha _ _ _ Hst1 H2) as (Hst' & Hb & o2 & E2 & L2).
  repeat split; try assumption. exists (o1 ++ o2).
  split; [now rewrite E2, E1, append_assoc | eapply level_app; eassumption].
Qed.

Lemma emitsLevel_emit s d d' : level s d d' -> emitsLevel (emit s) d d'.
Proof.
  intros Hs st x st' Hst H. apply emit_OK in H as (Hc & Hl & _).
  rewrite Hl. repeat split; try assumption. now exists s.
Qed.

Lemma checked_emit s u st st' :
  emit s st = OK (u, st') ->
  checked (m_currentLValue st) -> checked (m_currentLValue st').
Proof. intros H Hst. apply emit_OK in H as (_ & -> & _). exact Hst. Qed.

Lemma emitsLevel_solAssert c text d : emitsLevel (solAssert c text) d d.
Proof.
  destruct c; [apply emitsLevel_ret; exact I | apply emitsLevel_fail].
Qed.

Lemma emitsLevel_solUnimplementedAssert c text d :
  emitsLevel (solUnimplementedAssert c text) d d.
Proof.
  destruct c; [apply emitsLevel_ret; exact I | apply emitsLevel_fail].
Qed.

Lemma emitsLevel_solUnimplemented {A : Type} {CA : Checked A} text d d' :
  emitsLevel (@solUnimplemented A text) d d'.
Proof. apply emitsLevel_fail. Qed.

Lemma emitsLevel_currentLValue d : emitsLevel currentLValue d d.
Proof.
  intros st x st' Hst H. apply currentLValue_OK in H as [-> ->].
  repeat split; try assumption. exists "".
  split; [now rewrite append_nil_r | reflexivity].
Qed.

Lemma emitsLevel_putLValue l d : checked l -> emitsLevel (putLValue l) d d.
Proof.
  intros Hl st x st' Hst H. apply putLValue_OK in H as (Hc & -> & _).
  repeat split; try assumption. exists "".
  split; [now rewrite append_nil_r | reflexivity].
Qed.

(** The text that a balanced computation appends is balanced. *)
Lemma emitsLevel_lowers {A : Type} {CA : Checked A} (m : M A) st out a st' :
  (forall d, emitsLevel m d d) ->
  checked (m_currentLValue st) -> lowers m st out a st' ->
  checked (m_currentLValue st') /\ checked a /\ balanced out.
Proof.
  intros Hm Hst [H Hout].
  destruct (Hm 0 _ _ _ Hst H) as (Hst' & Ha & _).
  repeat split; try assumption. intros d.
  destruct (Hm d _ _ _ Hst H) as (_ & _ & o & Eo & Lo).
  rewrite Hout in Eo. apply append_inv_head in Eo. now subst o.
Qed.

Lemma emitsLevel_checked {A : Type} {CA : Checked A} (m : M A) d d' st a st' :
  emitsLevel m d d' ->
  checked (m_currentLValue st) -> m st = OK (a, st') ->
  checked (m_currentLValue st') /\ checked a.
Proof.
  intros Hm Hst H. destruct (Hm _ _ _ Hst H) as (Hst' & Ha & _).
  split; assumption.
Qed.

Lemma emitsLevel_lvalue {A : Type} {CA : Checked A} (m : M A) d d' st a st' :
  emitsLevel m d d' ->
  checked (m_currentLValue st) -> m st = OK (a, st') ->
  checked (m_currentLValue st').
Proof. intros Hm Hst H. exact (proj1 (Hm _ _ _ Hst H)). Qed.

Lemma emitsLevel_forEach {A : Type} (xs : list A) (body : A -> M unit) d :
  (forall x, In x xs -> emitsLevel (body x) d d) ->
  emitsLevel (forEach xs body) d d.
Proof.
  unfold forEach. induction xs as [|x xs IH]; intros H.
  - apply emitsLevel_ret. exact I.
  - eapply emitsLevel_bind.
    + apply H. now left.
    + intros _ _. apply IH. intros y Hy. apply H. now right.
Qed.

(** ** The texts supplied by the interfaces

    The names and numbers that the collaborators print are Yul identifiers,
    literals and lists of them; an inline assembly block is printed with
    its braces.  None of them opens a block that it does not close. *)
Class BalancedInterfaces {FM : Formatting} {VO : IRVariableOps}
  {YU : YulUtilFunctions} {AB : ABIFunctions} {CX : IRGenerationContext}
  {IA : InlineAssemblyBridge} : Prop := {
  to_string_balanced : forall n, balanced (to_string n);
  to_stringN_balanced : forall n, balanced (to_stringN n);
  formatNumber_balanced : forall n, balanced (formatNumber n);
  toCompactHexWithPrefix_balanced :
    forall n, balanced (toCompactHexWithPrefix n);
  joinHumanReadable_balanced :
    forall l, Forall balanced l -> balanced (joinHumanReadable l);
  joinHumanReadablePrefixed_balanced :
    forall l, Forall balanced l -> balanced (joinHumanReadablePrefixed l);
  name_balanced : forall v, balanced (name v);
  commaSeparatedList_balanced : forall v, balanced (commaSeparatedList v);
  commaSeparatedListPrefixed_balanced :
    forall v, balanced (commaSeparatedListPrefixed v);
  m_utils_balanced : forall f, balanced (m_utils f);
  abi_balanced : forall f, balanced (abi f);
  yulVariableName_balanced : forall n, balanced (yulVariableName n);
  virtualFunctionName_balanced : forall n, balanced (virtualFunctionName n);
  internalDispatch_balanced : forall i o, balanced (internalDispatch i o);
  translatedBlock_balanced :
    forall n text, translatedBlock n = OK text -> balanced text
}.

(** The text of a template with its tags left out. *)
Fixpoint templateText (template : list Whiskers.Piece) : string :=
  match template with
  | [] => ""
  | Whiskers.Text s :: rest => s ++ templateText rest
  | Whiskers.Tag _ :: rest => templateText rest
  end.

Definition balancedParameters (w : Whiskers.t) : Prop :=
  Forall (fun p => balanced (snd p)) (Whiskers.parameters w).

Lemma balancedParameters_empty : balancedParameters Whiskers.empty.
Proof. constructor. Qed.

Lemma balancedParameters_set w parameter value :
  balancedParameters w -> balanced value ->
  balancedParameters (Whiskers.set w parameter value).
Proof.
  unfold balancedParameters. simpl. intros Hw Hv.
  apply Forall_app. split; [exact Hw|]. now repeat constructor.
Qed.

Lemma balancedParameters_setCondition w parameter value :
  balancedParameters w ->
  balancedParameters (Whiskers.setCondition w parameter value).
Proof. exact (fun H => H). Qed.

Lemma lookup_balanced key l v :
  Forall (fun p : string * string => balanced (snd p)) l ->
  Whiskers.lookup key l = Some v -> balanced v.
Proof.
  induction 1 as [|[k x] l Hx _ IH]; simpl; [discriminate|].
  destruct (String.eqb k key); [|exact IH].
  intros E. injection E as <-. exact Hx.
Qed.

(** Filling a template with balanced values leaves the blocks of the
    template as they are. *)
Lemma render_braceDepth template w text :
  balancedParameters w ->
  Whiskers.render template w = Some text ->
  forall d, braceDepth text d = braceDepth (templateText template) d.
Proof.
  intros Hw. revert text.
  induction template as [|[s|n] rest IH]; simpl; intros text H d.
  - now injection H as <-.
  - destruct (Whiskers.render rest w) as [r|]; [|discriminate].
    injection H as <-. rewrite !braceDepth_app.
    destruct (braceDepth s d); [now apply IH | reflexivity].
  - destruct (Whiskers.lookup n (Whiskers.parameters w)) as [v|] eqn:E;
      [|discriminate].
    destruct (Whiskers.render rest w) as [r|]; [|discriminate].
    injection H as <-. rewrite braceDepth_app.
    rewrite (lookup_balanced _ Hw E d). now apply IH.
Qed.

Lemma render_balanced template w text :
  balanced (templateText template) -> balancedParameters w ->
  Whiskers.render template w = Some text -> balanced text.
Proof.
  intros Ht Hw H d. unfold level.
  rewrite (render_braceDepth _ Hw H). apply Ht.
Qed.

Lemma Forall_map_balanced {A : Type} (f : A -> string) (l : list A) :
  (forall x, balanced (f x)) -> Forall balanced (List.map f l).
Proof. intros H. induction l; constructor; auto. Qed.

Lemma checkedLValue_Tuple ty cs :
  checkedLValue (IRLValue.mk ty (IRLValue.Tuple cs)) <->
  forall l, In (Some l) cs -> checkedLValue l.
Proof.
  simpl. induction cs as [|[c|] cs IH].
  - split; [intros _ l [] | trivial].
  - split.
    + intros [Hc Hcs] l [E|H]; [now injection E as <- | now apply IH].
    + intros H. split; [apply H; now left|].
      apply IH. intros l Hl. apply H. now right.
  - split.
    + intros Hcs l [E|H]; [discriminate | now apply IH].
    + intros H. apply IH. intros l Hl. apply H. now right.
Qed.

Lemma checked_Tuple ty (cs : list (option IRLValue.t)) :
  checked cs -> checkedLValue (IRLValue.mk ty (IRLValue.Tuple cs)).
Proof.
  intros H. apply checkedLValue_Tuple. intros l Hl.
  unfold checked, Checked_list in H. rewrite Forall_forall in H.
  exact (H _ Hl).
Qed.

(** ** Solving the side conditions *)

Create HintDb bal discriminated.

#[export] Hint Resolve level_nil : bal.

Ltac checked_unfold :=
  repeat progress
    unfold checked, Checked_unit, Checked_bool, Checked_nat, Checked_N,
      Checked_SolType, Checked_Expression, Checked_IRVariable,
      Checked_Whiskers, Checked_string, Checked_option, Checked_prod,
      Checked_list, Checked_IRLValue, Checked_VariableDeclaration,
      Checked_EventArguments in *;
  cbn [checkedLValue fst snd IRLValue.kind IRLValue.type nonIndexedArgs]
    in *;
  repeat match goal with
         | H : _ /\ _ |- _ => destruct H
         | H : True |- _ => clear H
         end.

(** The depth after a text made of literals, balanced values and the texts
    of the interfaces. *)
Ltac level_step :=
  lazymatch goal with
  | |- level (_ ++ _) _ _ => eapply level_app
  | |- level (if ?c then _ else _) _ _ => destruct c
  | |- level (match ?x with _ => _ end) _ _ => destruct x
  | H : balanced ?s |- level ?s _ _ => apply H
  | |- level (String _ _) _ _ =>
      first [ reflexivity
            | apply level_cons_plain; [reflexivity | reflexivity |]
            | apply level_cons_open; [reflexivity |]
            | apply level_cons_close; [reflexivity | reflexivity |] ]
  | |- level _ _ _ =>
      first [ reflexivity
            | solve [ eapply to_string_balanced
                    | eapply to_stringN_balanced
                    | eapply formatNumber_balanced
                    | eapply toCompactHexWithPrefix_balanced
                    | eapply name_balanced
                    | eapply commaSeparatedList_balanced
                    | eapply commaSeparatedListPrefixed_balanced
                    | eapply m_utils_balanced
                    | eapply abi_balanced
                    | eapply yulVariableName_balanced
                    | eapply virtualFunctionName_balanced
                    | eapply internalDispatch_balanced
                    | eapply joinHumanReadable_balanced;
                      first [ assumption
                            | apply Forall_map_balanced;
                              apply commaSeparatedList_balanced ]
                    | eapply joinHumanReadablePrefixed_balanced;
                      first [ assumption
                            | apply Forall_map_balanced;
                              apply commaSeparatedList_balanced ] ]
            | solve [ eauto with bal ] ]
  | |- balanced _ => intro
  end.

Ltac level_tac := repeat level_step.


Ltac checked_tac :=
  checked_unfold;
  repeat match goal with
         | |- True => exact I
         | |- _ => assumption
         | |- _ /\ _ => split
         | |- balanced _ => solve [level_tac]
         | |- forall _, level _ _ _ => intro; solve [level_tac]
         | |- Forall (fun _ => True) _ =>
             apply Forall_forall; intros; exact I
         | |- Forall _ [] => constructor
         | |- Forall _ (_ :: _) => constructor
         | |- Forall _ (_ ++ _)%list => apply Forall_app
         | |- match ?x with _ => _ end => destruct x
         | |- balancedParameters (Whiskers.set _ _ _) =>
             apply balancedParameters_set
         | |- balancedParameters (Whiskers.setCondition _ _ _) =>
             apply balancedParameters_setCondition
         | |- balancedParameters (if ?c then _ else _) => destruct c
         | |- balancedParameters Whiskers.empty =>
             apply balancedParameters_empty
         | _ => assumption
         end.

Lemma emitsLevel_at_ {A : Type} {CA : Checked A} (v : list A) i d :
  (forall x : A, checked x) -> emitsLevel (at_ v i) d d.
Proof.
  intros HA. unfold at_. destruct (nth_error v i).
  - apply emitsLevel_ret. apply HA.
  - apply emitsLevel_fail.
Qed.

Lemma emitsLevel_renderTemplate template w d :
  balanced (templateText template) -> balancedParameters w ->
  emitsLevel (renderTemplate template w) d d.
Proof.
  intros Ht Hw. unfold renderTemplate.
  destruct (Whiskers.render template w) as [text|] eqn:E.
  - apply emitsLevel_ret. exact (render_balanced _ Ht Hw E).
  - apply emitsLevel_fail.
Qed.

Create HintDb lvl discriminated.

#[export] Hint Resolve emitsLevel_solAssert emitsLevel_solUnimplementedAssert
  emitsLevel_solUnimplemented emitsLevel_currentLValue emitsLevel_fail : lvl.
#[export] Hint Extern 1 (checked _) => solve [checked_tac] : lvl.
#[export] Hint Extern 1 (balanced _) => solve [checked_tac] : lvl.
#[export] Hint Extern 1 (balancedParameters _) => solve [checked_tac] : lvl.
#[export] Hint Extern 1 (checkedLValue _) => solve [checked_tac] : lvl.
#[export] Hint Extern 1 (Forall _ _) => solve [checked_tac] : lvl.

(** One step of a proof that a computation keeps the blocks balanced. *)
Ltac emits_step :=
  first
    [ progress cbv zeta
    | lazymatch goal with
      | |- emitsLevel (bind _ _) _ _ =>
          eapply emitsLevel_bind; [| intros ? ?; checked_unfold]
      | |- emitsLevel (ret _) _ _ => apply emitsLevel_ret; checked_tac
      | |- emitsLevel (emit _) _ _ => apply emitsLevel_emit; level_tac
      | |- emitsLevel (putLValue _) _ _ =>
          apply emitsLevel_putLValue; checked_tac
      | |- emitsLevel (at_ _ _) _ _ =>
          apply emitsLevel_at_; intros; checked_tac
      | |- emitsLevel (renderTemplate _ _) _ _ =>
          apply emitsLevel_renderTemplate; [intro; reflexivity | checked_tac]
      | |- emitsLevel (if ?c then _ else _) _ _ => destruct c
      | |- emitsLevel (match IRLValue.kind ?l with _ => _ end) _ _ =>
          destruct l as [? ?]; checked_unfold
      | |- emitsLevel (match ?x with _ => _ end) _ _ =>
          destruct x; checked_unfold
      | |- emitsLevel _ _ _ => solve [eauto with lvl]
      end ].

Ltac emits_tac := repeat emits_step.

Section Balance.

Context {TS : TypeSystem} {FM : Formatting} {VO : IRVariableOps}
        {YU : YulUtilFunctions} {AB : ABIFunctions}
        {CX : IRGenerationContext} {GC : GasCosts} {CU : CompilerUtils}
        {IA : InlineAssemblyBridge} {BI : BalancedInterfaces}.

Lemma emitsLevel_newYulVariable d : emitsLevel newYulVariable d d.
Proof.
  intros st x st' Hst H. injection H as <- <-. simpl.
  repeat split; try assumption.
  - apply yulVariableName_balanced.
  - exists "". split; [now rewrite append_nil_r | reflexivity].
Qed.

Lemma emitsLevel_isLocalVariable v d : emitsLevel (isLocalVariable v) d d.
Proof.
  intros st x st' Hst H. injection H as <- <-.
  repeat split; try assumption.
  exists "". split; [now rewrite append_nil_r | reflexivity].
Qed.

Lemma emitsLevel_addLocalVariable v d : emitsLevel (addLocalVariable v) d d.
Proof.
  intros st x st' Hst H. unfold addLocalVariable in H.
  destruct (lookupLocal (declId v) (m_localVariables st)); [discriminate|].
  injection H as <- <-. simpl. repeat split; try assumption.
  exists "". split; [now rewrite append_nil_r | reflexivity].
Qed.

Lemma emitsLevel_localVariable v d : emitsLevel (localVariable v) d d.
Proof.
  intros st x st' Hst H. unfold localVariable in H.
  destruct (lookupLocal (declId v) (m_localVariables st)); [|discriminate].
  injection H as <- <-. repeat split; try assumption.
  exists "". split; [now rewrite append_nil_r | reflexivity].
Qed.

Hint Resolve emitsLevel_newYulVariable emitsLevel_isLocalVariable
  emitsLevel_addLocalVariable emitsLevel_localVariable : lvl.

Lemma fetchFreeMem_balanced : balanced fetchFreeMem.
Proof. unfold fetchFreeMem. level_tac. Qed.

Hint Extern 1 (level fetchFreeMem _ _) => apply fetchFreeMem_balanced : bal.
Hint Extern 1 (level (offsetString ?o) _ _) =>
  unfold offsetString; destruct o; checked_unfold; level_tac : bal.

Lemma emitsLevel_define v d : emitsLevel (define v) d d.
Proof. unfold define. emits_tac. Qed.

Lemma emitsLevel_declare v d : emitsLevel (declare v) d d.
Proof. unfold declare. emits_tac. Qed.

Lemma emitsLevel_declareAssign_at ty :
  forall lhs rhs dcl d, emitsLevel (declareAssign_at ty lhs rhs dcl) d d.
Proof.
  induction ty as [k items IH] using SolType_items_ind. intros lhs rhs dcl d.
  simpl. destruct (type_eqb (m_type lhs) (m_type rhs)); [|emits_tac].
  induction items as [|[n [t|]] items IHitems].
  - emits_tac.
  - eapply emitsLevel_bind.
    + apply (IH n t). now left.
    + intros ? _. apply IHitems. intros n' t' H. apply (IH n' t'). now right.
  - eapply emitsLevel_bind; [emits_tac|].
    intros ? _. apply IHitems. intros n' t' H. apply (IH n' t'). now right.
Qed.

Lemma emitsLevel_declareAssign lhs rhs dcl d :
  emitsLevel (declareAssign lhs rhs dcl) d d.
Proof. apply emitsLevel_declareAssign_at. Qed.

Lemma emitsLevel_defineAs v x d : emitsLevel (defineAs v x) d d.
Proof. apply emitsLevel_declareAssign. Qed.

Lemma emitsLevel_assign v x d : emitsLevel (assign v x) d d.
Proof. apply emitsLevel_declareAssign. Qed.

Hint Resolve emitsLevel_define emitsLevel_declare emitsLevel_defineAs
  emitsLevel_assign : lvl.

Lemma emitsLevel_convert v t d : emitsLevel (convert v t) d d.
Proof. unfold convert. emits_tac. Qed.

Lemma expressionAsType_balanced e t : balanced (expressionAsType e t).
Proof. unfold expressionAsType. level_tac. Qed.

Lemma emitsLevel_binaryOperation op t l r d :
  balanced l -> balanced r -> emitsLevel (binaryOperation op t l r) d d.
Proof. intros Hl Hr. unfold binaryOperation. emits_tac. Qed.

Hint Resolve emitsLevel_convert : lvl.
Hint Extern 1 (level (expressionAsType _ _) _ _) =>
  apply expressionAsType_balanced : bal.

Hint Resolve emitsLevel_binaryOperation : lvl.

Lemma emitsLevel_writeToLValue l :
  forall v d, checked l -> emitsLevel (writeToLValue l v) d d.
Proof.
  induction l as [ty x|ty s o|ty a b|ty cs IH] using IRLValue_components_ind;
    intros v d Hl; checked_unfold.
  - simpl. emits_tac.
  - cbn [writeToLValue]. emits_tac.
  - cbn [writeToLValue]. emits_tac.
  - rewrite writeToLValue_Tuple. apply emitsLevel_forEach. intros i _.
    cbv zeta. unfold writeComponent.
    destruct (nth_error cs (List.length cs - i - 1)) as [[c|]|] eqn:E;
      try (apply emitsLevel_ret; exact I).
    apply IH; [eapply nth_error_In; eauto|].
    apply (proj1 (checkedLValue_Tuple ty cs) Hl). eapply nth_error_In; eauto.
Qed.

Lemma emitsLevel_readFromLValue l d :
  checked l -> emitsLevel (readFromLValue l) d d.
Proof.
  intros Hl. unfold readFromLValue. destruct l as [ty [x|s o|a b|cs]];
    checked_unfold; emits_tac.
Qed.

Hint Resolve emitsLevel_writeToLValue emitsLevel_readFromLValue : lvl.

Lemma emitsLevel_setLValue e l d :
  checked l -> emitsLevel (setLValue e l) d d.
Proof. intros Hl. unfold setLValue. emits_tac. Qed.

Hint Resolve emitsLevel_setLValue : lvl.

Lemma emitsLevel_arrayBaseType t d : emitsLevel (arrayBaseType t) d d.
Proof. unfold arrayBaseType. emits_tac. Qed.

Lemma emitsLevel_memberAccessArrayType e d :
  emitsLevel (memberAccessArrayType e) d d.
Proof. unfold memberAccessArrayType. emits_tac. Qed.

Hint Resolve emitsLevel_arrayBaseType emitsLevel_memberAccessArrayType : lvl.

Lemma emitsLevel_namedArguments args names ps d :
  emitsLevel (namedArguments args names ps) d d.
Proof. induction ps as [|p ps IH]; simpl; emits_tac. Qed.

Lemma emitsLevel_internalCallArguments arb ps args :
  forall i d, emitsLevel (internalCallArguments arb ps args i) d d.
Proof. induction args as [|a args IH]; intros i d; simpl; emits_tac. Qed.

Lemma emitsLevel_eventArguments indexed args ps :
  forall i acc d,
    checked acc -> emitsLevel (eventArguments indexed args ps i acc) d d.
Proof.
  induction indexed as [|b indexed IH]; intros i acc d Hacc; simpl; emits_tac.
Qed.

Lemma emitsLevel_returnSize b ts :
  forall n d, emitsLevel (returnSize b ts n) d d.
Proof. induction ts as [|t ts IH]; intros n d; simpl; emits_tac. Qed.

Hint Resolve emitsLevel_namedArguments emitsLevel_internalCallArguments
  emitsLevel_eventArguments emitsLevel_returnSize : lvl.

Lemma emitsLevel_appendExternalFunctionCall a e args d :
  emitsLevel (appendExternalFunctionCall a e args) d d.
Proof. unfold appendExternalFunctionCall. emits_tac. Qed.

Hint Resolve emitsLevel_appendExternalFunctionCall : lvl.

Lemma emitsLevel_endVisit_FunctionCall a k e args names d :
  emitsLevel (endVisit_FunctionCall a k e args names) d d.
Proof. unfold endVisit_FunctionCall. emits_tac. Qed.

Lemma emitsLevel_endVisit_MemberAccess a dcl e m d :
  emitsLevel (endVisit_MemberAccess a dcl e m) d d.
Proof. unfold endVisit_MemberAccess. emits_tac. Qed.

Lemma emitsLevel_endVisit_IndexAccess a b i d :
  emitsLevel (endVisit_IndexAccess a b i) d d.
Proof. unfold endVisit_IndexAccess. emits_tac. Qed.

Lemma emitsLevel_endVisit_Identifier a dcl n d :
  emitsLevel (endVisit_Identifier a dcl n) d d.
Proof. unfold endVisit_Identifier. emits_tac. Qed.

Lemma emitsLevel_visit_Literal a d : emitsLevel (visit_Literal a) d d.
Proof. unfold visit_Literal. emits_tac. Qed.

Lemma emitsLevel_appendSimpleUnaryOperation a op e d :
  emitsLevel (appendSimpleUnaryOperation a op e) d d.
Proof. unfold appendSimpleUnaryOperation. emits_tac. Qed.

Hint Resolve emitsLevel_appendSimpleUnaryOperation : lvl.

Lemma emitsLevel_endVisit_UnaryOperation a op e p d :
  emitsLevel (endVisit_UnaryOperation a op e p) d d.
Proof. unfold endVisit_UnaryOperation. emits_tac. Qed.

Lemma emitsLevel_compareExpression op sg args d :
  balanced args -> emitsLevel (compareExpression op sg args) d d.
Proof. intros Ha. unfold compareExpression. emits_tac. Qed.

Hint Resolve emitsLevel_endVisit_FunctionCall emitsLevel_endVisit_MemberAccess
  emitsLevel_endVisit_IndexAccess emitsLevel_endVisit_Identifier
  emitsLevel_visit_Literal emitsLevel_endVisit_UnaryOperation
  emitsLevel_compareExpression : lvl.

Lemma emitsLevel_lowerTupleComponents (acc : Expression -> M unit) a cs :
  (forall e d, In (Some e) cs -> emitsLevel (acc e) d d) ->
  forall i lvalues d,
    checked lvalues ->
    emitsLevel (lowerTupleComponents acc a cs i lvalues) d d.
Proof.
  induction cs as [|[c|] cs IH]; intros H i lvalues d Hl; simpl.
  - emits_tac.
  - eapply emitsLevel_bind; [apply H; now left|]. intros ? _.
    assert (forall e d, In (Some e) cs -> emitsLevel (acc e) d d)
      by (intros e d' He; apply H; now right).
    emits_tac.
  - assert (forall e d, In (Some e) cs -> emitsLevel (acc e) d d)
      by (intros e d' He; apply H; now right).
    emits_tac.
Qed.

Lemma emitsLevel_accept : forall e d, emitsLevel (accept e) d d.
Proof.
  induction e using Expression_sub_ind; intros depth; simpl.
  - unfold visit_Conditional. emits_tac.
  - unfold visit_Assignment. emits_tac.
  - unfold visit_TupleExpression.
    destruct i; [emits_tac|].
    eapply emitsLevel_bind; [emits_tac|]. intros ? _.
    destruct (Nat.eqb (List.length cs) 1).
    + destruct cs as [|[front|] cs]; [emits_tac| |emits_tac].
      eapply emitsLevel_bind; [apply H; now left|]. intros ? _. emits_tac.
    + eapply emitsLevel_bind.
      * apply emitsLevel_lowerTupleComponents;
          [intros; now apply H | constructor].
      * intros lvalues Hl. destruct (lValueRequested a); [|emits_tac].
        apply emitsLevel_putLValue. now apply checked_Tuple.
  - emits_tac.
  - unfold visit_BinaryOperation, appendAndOrOperatorCode. emits_tac.
  - eapply emitsLevel_bind; [apply IHe|]. intros ? _.
    eapply emitsLevel_bind;
      [apply emitsLevel_forEach; intros; now apply H|]. intros ? _.
    emits_tac.
  - emits_tac.
  - eapply emitsLevel_bind; [apply IHe|]. intros ? _.
    eapply emitsLevel_bind.
    + destruct i as [x|]; [apply H; reflexivity | emits_tac].
    + intros ? _. emits_tac.
  - eapply emitsLevel_bind; [apply IHe|]. intros ? _.
    eapply emitsLevel_bind.
    + destruct s as [x|]; [apply H; reflexivity | emits_tac].
    + intros ? _. eapply emitsLevel_bind.
      * destruct e0 as [x|]; [apply H0; reflexivity | emits_tac].
      * intros ? _. unfold endVisit_IndexRangeAccess. emits_tac.
  - emits_tac.
  - emits_tac.
  - apply emitsLevel_forEach. intros; now apply H.
Qed.

Hint Resolve emitsLevel_accept : lvl.

Lemma emitsLevel_acceptOptional e d : emitsLevel (acceptOptional e) d d.
Proof. unfold acceptOptional. emits_tac. Qed.

Hint Resolve emitsLevel_acceptOptional : lvl.

Lemma emitsLevel_generateLoop (acc : Statement -> M unit) body c i l dw d :
  (forall d', emitsLevel (acc body) d' d') ->
  (forall x, i = Some x -> forall d', emitsLevel (acc x) d' d') ->
  emitsLevel (generateLoop acc body c i l dw) d d.
Proof.
  intros Hb Hi. unfold generateLoop.
  assert (Hinit : forall d',
             emitsLevel
               match i with Some init => acc init | None => ret tt end d' d').
  { intros d'. destruct i as [x|]; [now apply Hi | emits_tac]. }
  destruct dw; emits_tac.
Qed.

Lemma emitsLevel_assignReturnParameters ps v :
  forall i d, emitsLevel (assignReturnParameters ps v i) d d.
Proof. induction ps as [|p ps IH]; intros i d; simpl; emits_tac. Qed.

Lemma emitsLevel_defineTupleDeclarations ds cs v :
  forall i d, emitsLevel (defineTupleDeclarations ds cs v i) d d.
Proof. induction ds as [|[x|] ds IH]; intros i d; simpl; emits_tac. Qed.

Hint Resolve emitsLevel_assignReturnParameters
  emitsLevel_defineTupleDeclarations : lvl.

Lemma emitsLevel_acceptStatement :
  forall s d, emitsLevel (acceptStatement s) d d.
Proof.
  induction s using Statement_sub_ind; intros depth; simpl.
  - apply emitsLevel_forEach. intros; now apply H.
  - unfold visit_IfStatement.
    eapply emitsLevel_bind; [emits_tac|]. intros ? _. cbv zeta.
    destruct f as [x|].
    + specialize (H x eq_refl). emits_tac.
    + emits_tac.
  - unfold visit_ForStatement. apply emitsLevel_generateLoop; assumption.
  - unfold visit_WhileStatement. apply emitsLevel_generateLoop;
      [assumption | discriminate].
  - unfold visit_Continue. emits_tac.
  - unfold visit_Break. emits_tac.
  - unfold endVisit_Return. emits_tac.
  - unfold endVisit_VariableDeclarationStatement.
    eapply emitsLevel_bind; [emits_tac|]. intros ? _.
    destruct e as [x|]; [emits_tac|].
    apply emitsLevel_forEach. intros [x|] _; emits_tac.
  - emits_tac.
  - unfold visit_InlineAssembly.
    destruct (translatedBlock n) as [text|err] eqn:E; [|emits_tac].
    pose proof (translatedBlock_balanced _ E). emits_tac.
  - eapply emitsLevel_bind; [apply emitsLevel_forEach; intros; emits_tac|].
    intros ? _. apply emitsLevel_forEach. intros; now apply H.
Qed.

End Balance.

#[export] Hint Resolve emitsLevel_newYulVariable emitsLevel_accept
  emitsLevel_acceptOptional emitsLevel_acceptStatement : lvl.
#[export] Hint Extern 1 (level (expressionAsType _ _) _ _) =>
  apply expressionAsType_balanced : bal.

(** * Properties of the lowering *)

Section Properties.

Context {TS : TypeSystem} {FM : Formatting} {VO : IRVariableOps}
        {YU : YulUtilFunctions} {AB : ABIFunctions}
        {CX : IRGenerationContext} {GC : GasCosts} {CU : CompilerUtils}
        {IA : InlineAssemblyBridge}.

(** ** Assignments *)

(** The part of [visit(Assignment)] that a compound assignment adds between
    the lowering of the left-hand side and the write. *)
Definition compoundUpdate (lvalue : IRLValue.t) (op : Token.t)
  (leftType intermediateType : SolType) (value : IRVariable) : M unit :=
  if negb (Token.eqb op Token.Assign) then
    solAssert (type_eqb leftType intermediateType) "" ;;
    solAssert (isValueType intermediateType)
      "Compound operators only available for value types." ;;
    leftIntermediate <- readFromLValue lvalue ;;
    operation <- binaryOperation (Token.AssignmentToBinaryOp op)
                   intermediateType (name leftIntermediate) (name value) ;;
    emit (name value ++ " := " ++ operation)
  else ret tt.

(** The steps of a run of [visit(Assignment)] that returned. *)
Lemma visit_Assignment_run a lhs op rhs st u st' :
  accept (Assignment a lhs op rhs) st = OK (u, st') ->
  let intermediateType :=
    closestTemporaryType (type_of rhs) (type_of lhs) in
  exists value lvalue st1 st2 st3 st4 st5 st6,
    accept rhs st = OK (tt, st1) /\
    convert (IRVariable_of rhs) intermediateType st1 = OK (value, st2) /\
    accept lhs st2 = OK (tt, st3) /\
    m_currentLValue st3 = Some lvalue /\
    compoundUpdate lvalue op (type_of lhs) intermediateType value st3 =
      OK (tt, st4) /\
    writeToLValue lvalue value st4 = OK (tt, st5) /\
    putLValue None st5 = OK (tt, st6) /\
    (if negb (type_eqb (type a) emptyTuple)
     then defineAs (exprVar a) value
     else ret tt) st6 = OK (tt, st').
Proof.
  simpl. unfold visit_Assignment. intros H.
  run_inv H as [] st1 Hr. run_inv H as value st2 Hc.
  run_inv H as [] st3 Hl. run_inv H as cur st3' Hcur.
  apply currentLValue_OK in Hcur as [-> ->].
  destruct (m_currentLValue st3) as [lvalue|] eqn:Elv; [|discriminate].
  run_inv H as [] st4 Hx. run_inv H as [] st5 Hw. run_inv H as [] st6 Hp.
  destruct u.
  exists value, lvalue, st1, st2, st3, st4, st5, st6.
  repeat split; assumption.
Qed.

(** C1.  Lowering an assignment proceeds in this order: the right-hand
    side is lowered first (its text [R]), then converted to the common type
    [closestTemporaryType] of the two sides ([C]), and only then the
    left-hand side is lowered ([L]) and leaves its lvalue.  A compound
    assignment then reads the current value at that lvalue, applies the
    binary operator to it and the converted value and rebinds the converted
    value to the result ([X]); a plain assignment adds nothing there.  The
    value is then written to the lvalue ([W]); [D] is what follows the
    write. *)
Theorem assignment_lowering_order a lhs op rhs st u st' :
  accept (Assignment a lhs op rhs) st = OK (u, st') ->
  let intermediateType :=
    closestTemporaryType (type_of rhs) (type_of lhs) in
  exists (R C L X W D : string) (value : IRVariable) (lvalue : IRLValue.t)
         (st1 st2 st3 st4 st5 : State),
    lowers (accept rhs) st R tt st1 /\
    lowers (convert (IRVariable_of rhs) intermediateType) st1 C value st2 /\
    lowers (accept lhs) st2 L tt st3 /\
    m_currentLValue st3 = Some lvalue /\
    (if Token.eqb op Token.Assign then X = "" /\ st4 = st3
     else
       exists RD leftIntermediate st3' operation,
         lowers (readFromLValue lvalue) st3 RD leftIntermediate st3' /\
         binaryOperation (Token.AssignmentToBinaryOp op) intermediateType
           (name leftIntermediate) (name value) st3' = OK (operation, st3') /\
         emit (name value ++ " := " ++ operation) st3' = OK (tt, st4) /\
         X = RD ++ name value ++ " := " ++ operation) /\
    lowers (writeToLValue lvalue value) st4 W tt st5 /\
    m_code st' = m_code st ++ R ++ C ++ L ++ X ++ W ++ D.
Proof.
  intros H intermediateType.
  destruct (visit_Assignment_run _ _ _ _ _ H)
    as (value & lvalue & st1 & st2 & st3 & st4 & st5 & st6 &
        Hr & Hc & Hl & Hlv & Hx & Hw & Hp & Hd).
  fold intermediateType in Hc, Hx.
  destruct (appends_out (appends_accept rhs) Hr) as [R HR].
  destruct (appends_out (appends_convert _ _) Hc) as [C HC].
  destruct (appends_out (appends_accept lhs) Hl) as [L HL].
  destruct (appends_out (appends_writeToLValue _ _) Hw) as [W HW].
  apply putLValue_OK in Hp as (Hp & _).
  assert (HD : exists D, m_code st' = m_code st6 ++ D).
  { destruct (negb (type_eqb (type a) emptyTuple)).
    - exact (appends_out (appends_defineAs _ _) Hd).
    - apply ret_OK in Hd as [_ ->]. exists "". now rewrite append_nil_r. }
  destruct HD as [D HD].
  assert (HX : exists X,
             m_code st4 = m_code st3 ++ X /\
             if Token.eqb op Token.Assign then X = "" /\ st4 = st3
             else
               exists RD leftIntermediate st3' operation,
                 lowers (readFromLValue lvalue) st3 RD leftIntermediate st3' /\
                 binaryOperation (Token.AssignmentToBinaryOp op)
                   intermediateType (name leftIntermediate) (name value) st3'
                 = OK (operation, st3') /\
                 emit (name value ++ " := " ++ operation) st3' = OK (tt, st4) /\
                 X = RD ++ name value ++ " := " ++ operation).
  { unfold compoundUpdate in Hx.
    destruct (Token.eqb op Token.Assign); simpl in Hx.
    - apply ret_OK in Hx as [_ ->]. exists "".
      rewrite append_nil_r. repeat split.
    - run_inv Hx as [] sta Ha. apply solAssert_OK in Ha as [_ ->].
      run_inv Hx as [] stb Hb. apply solAssert_OK in Hb as [_ ->].
      run_inv Hx as leftIntermediate st3' Hread.
      run_inv Hx as operation stc Hop.
      destruct (appends_out (appends_readFromLValue _) Hread) as [RD HRD].
      assert (stc = st3') as ->.
      { unfold binaryOperation in Hop.
        destruct (isIntegerType intermediateType).
        - run_inv Hop as [] std Hd'.
          apply solUnimplementedAssert_OK in Hd' as [_ ->].
          now apply ret_OK in Hop as [_ ->].
        - run_inv Hop as [] std Hd'. discriminate. }
      exists (RD ++ name value ++ " := " ++ operation). split.
      + apply emit_OK in Hx as (-> & _). rewrite HRD.
        now rewrite append_assoc.
      + exists RD, leftIntermediate, st3', operation.
        repeat split; assumption. }
  destruct HX as (X & HX4 & HX).
  exists R, C, L, X, W, D, value, lvalue, st1, st2, st3, st4, st5.
  repeat split; try assumption.
  rewrite HD, Hp, HW, HX4, HL, HC, HR. now rewrite !append_assoc.
Qed.

(** What a compound assignment adds between the lowering of the left-hand
    side and the write, for a run that returned. *)
Lemma compoundUpdate_run lvalue op leftType intermediateType value st3 st4 :
  compoundUpdate lvalue op leftType intermediateType value st3 =
    OK (tt, st4) ->
  exists X : string,
    m_code st4 = m_code st3 ++ X /\
    if Token.eqb op Token.Assign then X = "" /\ st4 = st3
    else
      exists RD leftIntermediate st3' operation,
        lowers (readFromLValue lvalue) st3 RD leftIntermediate st3' /\
        binaryOperation (Token.AssignmentToBinaryOp op) intermediateType
          (name leftIntermediate) (name value) st3' = OK (operation, st3') /\
        emit (name value ++ " := " ++ operation) st3' = OK (tt, st4) /\
        X = RD ++ name value ++ " := " ++ operation.
Proof.
  intros Hx. unfold compoundUpdate in Hx.
  destruct (Token.eqb op Token.Assign); simpl in Hx.
  - apply ret_OK in Hx as [_ ->]. exists "".
    rewrite append_nil_r. repeat split.
  - run_inv Hx as [] sta Ha. apply solAssert_OK in Ha as [_ ->].
    run_inv Hx as [] stb Hb. apply solAssert_OK in Hb as [_ ->].
    run_inv Hx as leftIntermediate st3' Hread.
    run_inv Hx as operation stc Hop.
    destruct (appends_out (appends_readFromLValue _) Hread) as [RD HRD].
    assert (stc = st3') as ->.
    { unfold binaryOperation in Hop.
      destruct (isIntegerType intermediateType).
      - run_inv Hop as [] std Hd'.
        apply solUnimplementedAssert_OK in Hd' as [_ ->].
        now apply ret_OK in Hop as [_ ->].
      - run_inv Hop as [] std Hd'. discriminate. }
    exists (RD ++ name value ++ " := " ++ operation). split.
    + apply emit_OK in Hx as (-> & _). rewrite HRD.
      now rewrite append_assoc.
    + exists RD, leftIntermediate, st3', operation.
      repeat split; assumption.
Qed.

(** C10.  An assignment whose annotated type is the empty tuple performs
    the write to the lvalue and binds nothing for the assignment itself.
    The run is the chain of the steps of the assignment: the right-hand side
    ([R]), its conversion ([C]), the left-hand side ([L]), which leaves the
    lvalue, what a compound operator adds ([X]), and the write of the
    converted value to that lvalue ([W]).  For the empty tuple the run ends
    there: the final state is the one left by the write with the lvalue
    reset, and the text is [R C L X W] with nothing after the write.  An
    assignment of any other type binds, after the write, the converted
    right-hand value as the value of the assignment expression ([D]). *)
Theorem assignment_result_binding a lhs op rhs st u st' :
  accept (Assignment a lhs op rhs) st = OK (u, st') ->
  let intermediateType :=
    closestTemporaryType (type_of rhs) (type_of lhs) in
  exists (R C L X W : string) (value : IRVariable) (lvalue : IRLValue.t)
         (st1 st2 st3 st4 st5 st6 : State),
    lowers (accept rhs) st R tt st1 /\
    lowers (convert (IRVariable_of rhs) intermediateType) st1 C value st2 /\
    lowers (accept lhs) st2 L tt st3 /\
    m_currentLValue st3 = Some lvalue /\
    m_code st4 = m_code st3 ++ X /\
    (if Token.eqb op Token.Assign then st4 = st3
     else
       exists leftIntermediate st3' operation,
         readFromLValue lvalue st3 = OK (leftIntermediate, st3') /\
         binaryOperation (Token.AssignmentToBinaryOp op) intermediateType
           (name leftIntermediate) (name value) st3' = OK (operation, st3') /\
         emit (name value ++ " := " ++ operation) st3' = OK (tt, st4)) /\
    lowers (writeToLValue lvalue value) st4 W tt st5 /\
    st6 =
      {| m_code := m_code st5;
         m_currentLValue := None;
         m_varCounter := m_varCounter st5;
         m_localVariables := m_localVariables st5 |} /\
    if type_eqb (type a) emptyTuple
    then st' = st6 /\ m_code st' = m_code st ++ R ++ C ++ L ++ X ++ W
    else
      exists D : string,
        lowers (defineAs (exprVar a) value) st6 D tt st' /\
        m_code st' = m_code st ++ R ++ C ++ L ++ X ++ W ++ D.
Proof.
  intros H intermediateType.
  destruct (visit_Assignment_run _ _ _ _ _ H)
    as (value & lvalue & st1 & st2 & st3 & st4 & st5 & st6 &
        Hr & Hc & Hl & Hlv & Hx & Hw & Hp & Hd).
  fold intermediateType in Hc, Hx.
  destruct (appends_out (appends_accept rhs) Hr) as [R HR].
  destruct (appends_out (appends_convert _ _) Hc) as [C HC].
  destruct (appends_out (appends_accept lhs) Hl) as [L HL].
  destruct (appends_out (appends_writeToLValue _ _) Hw) as [W HW].
  apply compoundUpdate_run in Hx as (X & HX4 & HX).
  assert (Hst6 : st6 =
                 {| m_code := m_code st5;
                    m_currentLValue := None;
                    m_varCounter := m_varCounter st5;
                    m_localVariables := m_localVariables st5 |}).
  { injection Hp as <-. reflexivity. }
  assert (Hcode6 : m_code st6 = m_code st ++ R ++ C ++ L ++ X ++ W).
  { rewrite Hst6. simpl. rewrite HW, HX4, HL, HC, HR.
    now rewrite !append_assoc. }
  exists R, C, L, X, W, value, lvalue, st1, st2, st3, st4, st5, st6.
  split; [split; assumption|]. split; [split; assumption|].
  split; [split; assumption|]. split; [exact Hlv|]. split; [exact HX4|].
  split.
  { destruct (Token.eqb op Token.Assign).
    - exact (proj2 HX).
    - destruct HX as (RD & leftIntermediate & st3' & operation &
                      [Hread _] & Hop & Hemit & _).
      exists leftIntermediate, st3', operation.
      repeat split; assumption. }
  split; [split; assumption|]. split; [exact Hst6|].
  destruct (type_eqb (type a) emptyTuple); simpl in Hd.
  - apply ret_OK in Hd as [_ ->]. split; [reflexivity | exact Hcode6].
  - destruct (appends_out (appends_defineAs _ _) Hd) as [D HD].
    exists D. split; [split; assumption|].
    rewrite HD, Hcode6. now rewrite !append_assoc.
Qed.

(** ** Increment and decrement *)

(** C5.  Lowering an integer increment or decrement lowers the operand,
    which leaves the active lvalue; it then reads the current value from
    that lvalue ([RD], into [originalValue]), defines a fresh
    [modifiedValue] as the checked increment or decrement of the original
    value, writes the modified value back to the same lvalue ([W]), resets
    the lvalue, and binds as the value of the expression the modified value
    when the operator is prefix and the original value when it is
    postfix. *)
Theorem increment_decrement_lowering a op sub isPrefix st u st' :
  op = Token.Inc \/ op = Token.Dec ->
  category (type a) = Category.Integer ->
  accept (UnaryOperation a op sub isPrefix) st = OK (u, st') ->
  exists (Sc RD DP W D modifiedName : string) (lvalue : IRLValue.t)
         (originalValue : IRVariable) (st0 st1 st2 st3 st3' st4 st5 : State),
    let modifiedValue := {| m_baseName := modifiedName; m_type := type a |} in
    let update :=
      (if Token.eqb op Token.Inc
       then m_utils (incrementCheckedFunction (type a))
       else m_utils (decrementCheckedFunction (type a))) ++
      "(" ++ name originalValue ++ ")" ++ LF in
    lowers (accept sub) st Sc tt st0 /\
    m_currentLValue st0 = Some lvalue /\
    newYulVariable st0 = OK (modifiedName, st1) /\
    lowers (readFromLValue lvalue) st1 RD originalValue st2 /\
    lowers (define modifiedValue) st2 DP tt st3 /\
    emit update st3 = OK (tt, st3') /\
    lowers (writeToLValue lvalue modifiedValue) st3' W tt st4 /\
    putLValue None st4 = OK (tt, st5) /\
    lowers (defineAs (exprVar a)
              (if isPrefix then modifiedValue else originalValue))
      st5 D tt st' /\
    m_code st' = m_code st ++ Sc ++ RD ++ DP ++ update ++ W ++ D.
Proof.
  intros Hop Hcat H. simpl in H.
  run_inv H as [] st0 Hs. unfold endVisit_UnaryOperation in H.
  assert (Token.eqb op Token.Delete = false) as E1
      by (destruct Hop as [-> | ->]; reflexivity).
  assert (Token.eqb op Token.Inc || Token.eqb op Token.Dec = true) as E2
      by (destruct Hop as [-> | ->]; reflexivity).
  rewrite E1, Hcat in H. simpl in H.
  run_inv H as [] sta Ha. apply solAssert_OK in Ha as [_ ->].
  rewrite E2 in H.
  run_inv H as cur stb Hcur. apply currentLValue_OK in Hcur as [-> ->].
  destruct (m_currentLValue st0) as [lvalue|] eqn:Elv; [|discriminate].
  run_inv H as modifiedName st1 Hn.
  run_inv H as originalValue st2 Hrd.
  run_inv H as [] st3 Hdp. run_inv H as [] st3' He.
  run_inv H as [] st4 Hw. run_inv H as [] st5 Hp. destruct u.
  destruct (appends_out (appends_accept sub) Hs) as [Sc HS].
  destruct (appends_out (appends_readFromLValue _) Hrd) as [RD HRD].
  destruct (appends_out (appends_define _) Hdp) as [DP HDP].
  destruct (appends_out (appends_writeToLValue _ _) Hw) as [W HW].
  destruct (appends_out (appends_defineAs _ _) H) as [D HD].
  exists Sc, RD, DP, W, D, modifiedName, lvalue, originalValue,
    st0, st1, st2, st3, st3', st4, st5.
  cbv zeta. repeat split; try assumption.
  rewrite HD. apply putLValue_OK in Hp as (-> & _). rewrite HW.
  apply emit_OK in He as (-> & _). rewrite HDP, HRD.
  injection Hn as _ <-. simpl. rewrite HS. now rewrite !append_assoc.
Qed.

(** ** Comparisons *)

(** The primitive and text of a comparison, read off the claim: [eq] for
    equality, the strict comparison of the operands' signedness for [<] and
    [>], and the negation of the strict opposite for [>=] and [<=]. *)
Definition comparisonText (op : Token.t) (isSigned : bool) (args : string)
  : string :=
  let lt := if isSigned then "slt(" else "lt(" in
  let gt := if isSigned then "sgt(" else "gt(" in
  match op with
  | Token.Equal => "eq(" ++ args ++ ")"
  | Token.NotEqual => "iszero(eq(" ++ args ++ "))"
  | Token.LessThan => lt ++ args ++ ")"
  | Token.GreaterThan => gt ++ args ++ ")"
  | Token.GreaterThanOrEqual => "iszero(" ++ lt ++ args ++ "))"
  | Token.LessThanOrEqual => "iszero(" ++ gt ++ args ++ "))"
  | _ => ""
  end.

(** C6.  For a comparison over a value type (the common type is not a
    rational number, whose comparisons are folded to a literal), both
    operands are lowered and the expression is defined as the comparison
    primitive applied to the two operands converted to the common type: the
    signed primitives [slt]/[sgt] when the common type is a signed integer,
    [lt]/[gt] otherwise, and [>=], [<=] as [iszero] of the strict [<],
    [>]. *)
Theorem comparison_lowering a commonType l op r st u st' :
  Token.isCompareOp op = true ->
  category commonType <> Category.RationalNumber ->
  accept (BinaryOperation a (Some commonType) l op r) st = OK (u, st') ->
  let isSigned :=
    match tkind commonType with
    | IntegerType signed => signed
    | _ => false
    end in
  let args :=
    expressionAsType l commonType ++ ", " ++ expressionAsType r commonType in
  exists (Lc Rc DP : string) (st1 st2 st3 : State),
    lowers (accept l) st Lc tt st1 /\
    lowers (accept r) st1 Rc tt st2 /\
    lowers (define (exprVar a)) st2 DP tt st3 /\
    isValueType commonType = true /\
    m_code st' =
      m_code st ++ Lc ++ Rc ++ DP ++ comparisonText op isSigned args ++ LF.
Proof.
  intros Hop Hcat H isSigned args. simpl in H.
  unfold visit_BinaryOperation in H.
  assert (Token.eqb op Token.And || Token.eqb op Token.Or = false) as E1
      by (destruct op; try discriminate Hop; reflexivity).
  rewrite E1 in H.
  run_inv H as [] st1 Hl. run_inv H as [] st2 Hr.
  assert (Category.eqb (category commonType) Category.RationalNumber = false)
    as E2 by (destruct (category commonType); try reflexivity; congruence).
  rewrite E2, Hop in H.
  run_inv H as [] sta Ha.
  assert (sta = st2) as ->.
  { destruct (asFunctionType commonType).
    - run_inv Ha as [] stb Hb. apply solAssert_OK in Hb as [_ ->].
      now apply solAssert_OK in Ha as [_ ->].
    - now apply ret_OK in Ha as [_ ->]. }
  run_inv H as [] stb Hv. apply solAssert_OK in Hv as [Hv ->].
  run_inv H as expr stc He. fold isSigned args in He.
  assert (expr = comparisonText op isSigned args /\ stc = st2) as [-> ->].
  { unfold compareExpression in He.
    destruct op; try discriminate Hop; simpl in He;
      apply ret_OK in He as [-> ->]; split; reflexivity. }
  run_inv H as [] st3 Hdp. destruct u.
  destruct (appends_out (appends_accept l) Hl) as [Lc HL].
  destruct (appends_out (appends_accept r) Hr) as [Rc HR].
  destruct (appends_out (appends_define _) Hdp) as [DP HDP].
  exists Lc, Rc, DP, st1, st2, st3. repeat split; try assumption.
  apply emit_OK in H as (-> & _). rewrite HDP, HR, HL.
  now rewrite !append_assoc.
Qed.

(** ** The single active lvalue *)

(** C9.  The active lvalue is the optional [m_currentLValue], so at most
    one is active at any point.  Each operation that establishes an lvalue
    checks first that none is active, and fails with an internal compiler
    error otherwise: [setLValue], and the lowering of a tuple expression
    whose lvalue is requested.  Flushing the code with [code()] fails the
    same way when an lvalue is left active, and returns the text
    otherwise. *)
Theorem one_active_lvalue :
  (forall e lvalue active st,
      m_currentLValue st = Some active ->
      setLValue e lvalue st = Err (InternalCompilerError "")) /\
  (forall a components active st,
      lValueRequested a = true ->
      m_currentLValue st = Some active ->
      accept (TupleExpression a components false) st =
        Err (InternalCompilerError "")) /\
  (forall active st,
      m_currentLValue st = Some active ->
      code st = Err (InternalCompilerError "LValue not reset!")) /\
  (forall st, m_currentLValue st = None -> code st = OK (m_code st, st)).
Proof.
  repeat split.
  - intros e lvalue active st H. unfold setLValue, bind, currentLValue.
    rewrite H. reflexivity.
  - intros a components active st Hl H. simpl.
    unfold visit_TupleExpression, bind, currentLValue. rewrite Hl, H.
    reflexivity.
  - intros active st H. unfold code, bind, currentLValue. rewrite H.
    reflexivity.
  - intros st H. unfold code, bind, currentLValue. rewrite H. reflexivity.
Qed.

(** ** Tuple lvalues *)

(** The writes of a tuple write, read off the claim: the components paired
    with their index are taken in the given order, a hole is skipped, and a
    component that is set receives the component of the value with the same
    index. *)
Fixpoint writeComponentsInOrder (l : list (nat * option IRLValue.t))
  (value : IRVariable) : M unit :=
  match l with
  | [] => ret tt
  | (idx, Some component) :: l' =>
      writeToLValue component (tupleComponent value idx) ;;
      writeComponentsInOrder l' value
  | (_, None) :: l' => writeComponentsInOrder l' value
  end.

(** The construction of a tuple lvalue, read off the claim: every
    component that is not a hole is lowered, in order, and the lvalue it
    leaves is captured and reset; a hole is not lowered and contributes an
    empty slot. *)
Inductive capturesLValues :
  list (option Expression) -> State -> list (option IRLValue.t) -> State ->
  Prop :=
| captures_nil st : capturesLValues [] st [] st
| captures_hole cs st slots st' :
    capturesLValues cs st slots st' ->
    capturesLValues (None :: cs) st (None :: slots) st'
| captures_component e cs st st1 lvalue st2 slots st' :
    accept e st = OK (tt, st1) ->
    m_currentLValue st1 = Some lvalue ->
    putLValue None st1 = OK (tt, st2) ->
    capturesLValues cs st2 slots st' ->
    capturesLValues (Some e :: cs) st (Some lvalue :: slots) st'.

Lemma bind_ext {A B : Type} (m : M A) (k1 k2 : A -> M B) st :
  (forall a st1, k1 a st1 = k2 a st1) -> bind m k1 st = bind m k2 st.
Proof. intros H. unfold bind. destruct (m st) as [[a st1]|e]; auto. Qed.

Lemma forEach_cons {A : Type} (x : A) xs (f : A -> M unit) :
  forEach (x :: xs) f = (f x ;; forEach xs f).
Proof. reflexivity. Qed.

Lemma forEach_ext_in {A : Type} (xs : list A) (f g : A -> M unit) st :
  (forall x, In x xs -> f x = g x) -> forEach xs f st = forEach xs g st.
Proof.
  revert st. induction xs as [|x xs IH]; intros st H; [reflexivity|].
  rewrite !forEach_cons. rewrite (H x) by now left.
  apply bind_ext. intros _ st1. apply IH. intros y Hy. apply H. now right.
Qed.

Lemma forEach_map {A B : Type} (g : A -> B) (xs : list A) (f : B -> M unit)
  st :
  forEach (List.map g xs) f st = forEach xs (fun x => f (g x)) st.
Proof.
  revert st. induction xs as [|x xs IH]; intros st; [reflexivity|].
  simpl List.map. rewrite !forEach_cons. apply bind_ext. intros _ st1.
  apply IH.
Qed.

Lemma combine_snoc {A B : Type} (xs : list A) (ys : list B) x y :
  List.length xs = List.length ys ->
  combine (xs ++ [x]) (ys ++ [y]) = (combine xs ys ++ [(x, y)])%list.
Proof.
  revert ys. induction xs as [|a xs IH]; intros [|b ys] H;
    try discriminate H; simpl; [reflexivity|].
  injection H as H. now rewrite IH.
Qed.

Lemma writeTuple_reversed cs v st :
  forEach (seq 0 (List.length cs))
    (fun i =>
       writeComponent cs (List.length cs - i - 1)
         (tupleComponent v (List.length cs - i - 1))) st =
  writeComponentsInOrder (rev (combine (seq 0 (List.length cs)) cs)) v st.
Proof.
  revert st. induction cs as [|c pre IH] using rev_ind; intros st.
  - reflexivity.
  - rewrite length_app, Nat.add_comm. simpl List.length. simpl Nat.add.
    set (m := List.length pre).
    rewrite seq_S, combine_snoc by (now rewrite length_seq).
    rewrite rev_app_distr. simpl rev. simpl app.
    rewrite <- seq_S. simpl seq. rewrite forEach_cons.
    assert (E0 : writeComponent (pre ++ [c]) (S m - 0 - 1)
                   (tupleComponent v (S m - 0 - 1)) =
                 match c with
                 | Some component =>
                     writeToLValue component (tupleComponent v m)
                 | None => ret tt
                 end).
    { replace (S m - 0 - 1) with m by lia. unfold writeComponent.
      rewrite nth_error_app2 by (unfold m; lia).
      replace (m - List.length pre) with 0 by (unfold m; lia).
      reflexivity. }
    rewrite E0.
    assert (E1 : forall st1,
               forEach (seq 1 m)
                 (fun i =>
                    writeComponent (pre ++ [c]) (S m - i - 1)
                      (tupleComponent v (S m - i - 1))) st1 =
               writeComponentsInOrder (rev (combine (seq 0 m) pre)) v st1).
    { intros st1. rewrite <- seq_shift, forEach_map. rewrite <- IH.
      apply forEach_ext_in. intros i Hi. apply in_seq in Hi.
      replace (S m - S i - 1) with (m - i - 1) by lia.
      unfold writeComponent.
      rewrite nth_error_app1 by (fold m; lia). reflexivity. }
    simpl writeComponentsInOrder. destruct c as [component|].
    + apply bind_ext. intros _ st1. apply E1.
    + unfold bind at 1. simpl. apply E1.
Qed.

Lemma lowerTupleComponents_captures a cs :
  lValueRequested a = true ->
  forall i acc st lvalues st',
    lowerTupleComponents accept a cs i acc st = OK (lvalues, st') ->
    exists slots,
      lvalues = (acc ++ slots)%list /\ capturesLValues cs st slots st'.
Proof.
  intros Hl. induction cs as [|[e|] cs IH]; intros i acc st lvalues st' H;
    simpl in H.
  - apply ret_OK in H as [-> ->]. exists []. rewrite app_nil_r.
    split; [reflexivity | constructor].
  - rewrite Hl in H. run_inv H as [] st1 He.
    run_inv H as cur sta Hcur. apply currentLValue_OK in Hcur as [-> ->].
    run_inv H as [] stb Hs. apply solAssert_OK in Hs as [Hs ->].
    run_inv H as [] st2 Hp.
    destruct (m_currentLValue st1) as [lvalue|] eqn:Elv; [|discriminate].
    apply IH in H as (slots & -> & Hc). exists (Some lvalue :: slots).
    split; [now rewrite <- app_assoc | econstructor; eassumption].
  - rewrite Hl in H. apply IH in H as (slots & -> & Hc).
    exists (None :: slots).
    split; [now rewrite <- app_assoc | now constructor].
Qed.

Lemma capturesLValues_holes cs st slots st' :
  capturesLValues cs st slots st' ->
  Forall2 (fun component slot => component = None <-> slot = None) cs slots.
Proof.
  induction 1; constructor; try assumption.
  - split; reflexivity.
  - split; discriminate.
Qed.

(** C8.  A write to a tuple lvalue decomposes the value by component and
    writes component-wise in reverse component order, the last component
    first, skipping the holes.  The construction of the tuple lvalue, for a
    tuple expression of other than one component whose lvalue is requested,
    lowers the sub-expression of every component that is not a hole, in
    order, and captures its lvalue; a hole is not lowered and contributes an
    empty slot, which the write skips. *)
Theorem tuple_lvalue_write_and_construction :
  (forall ty components value st,
      writeToLValue (IRLValue.mk ty (IRLValue.Tuple components)) value st =
      writeComponentsInOrder
        (rev (combine (seq 0 (List.length components)) components))
        value st) /\
  (forall a components st u st',
      lValueRequested a = true ->
      List.length components <> 1 ->
      accept (TupleExpression a components false) st = OK (u, st') ->
      exists slots st2,
        capturesLValues components st slots st2 /\
        Forall2 (fun component slot => component = None <-> slot = None)
          components slots /\
        putLValue
          (Some (IRLValue.mk (type a) (IRLValue.Tuple slots))) st2 =
          OK (tt, st')).
Proof.
  split.
  - intros ty components value st. rewrite writeToLValue_Tuple.
    apply writeTuple_reversed.
  - intros a components st u st' Hl Hn H. simpl in H.
    unfold visit_TupleExpression in H. rewrite Hl in H.
    run_inv H as [] sta Ha.
    run_inv Ha as cur stb Hcur. apply currentLValue_OK in Hcur as [-> ->].
    apply solAssert_OK in Ha as [_ ->].
    apply Nat.eqb_neq in Hn. rewrite Hn in H.
    run_inv H as lvalues st2 Hc. destruct u.
    apply (lowerTupleComponents_captures _ _ Hl) in Hc as (slots & -> & Hc).
    exists slots, st2. split; [exact Hc|]. split; [|exact H].
    eapply capturesLValues_holes; eassumption.
Qed.

(** ** External calls *)

Lemma lookup_set (w : Whiskers.t) key parameter value :
  Whiskers.lookup key (Whiskers.parameters (Whiskers.set w parameter value)) =
  match Whiskers.lookup key (Whiskers.parameters w) with
  | Some found => Some found
  | None => if String.eqb parameter key then Some value else None
  end.
Proof.
  unfold Whiskers.set. simpl. induction (Whiskers.parameters w) as [|[k v] l IH].
  - reflexivity.
  - simpl. destruct (String.eqb k key); [reflexivity | exact IH].
Qed.

Lemma lookup_setCondition (w : Whiskers.t) key parameter value :
  Whiskers.lookup key
    (Whiskers.parameters (Whiskers.setCondition w parameter value)) =
  Whiskers.lookup key (Whiskers.parameters w).
Proof. reflexivity. Qed.

(** C7.  When [appendExternalFunctionCall] completes, the gas argument of
    the call template is: the explicit gas value when one was set on the
    call; otherwise all remaining gas, [gas()], when the EVM version can
    overcharge gas for calls; otherwise remaining gas minus a margin: the
    call cost plus 10, added as the code adds them, in 32-bit [unsigned]
    arithmetic, then, in a [u256], plus the value-transfer cost exactly when
    a value is set, plus the new-account cost exactly when the existence of
    the target is not checked.  Where neither sum wraps around, as for every
    cost below [2 ^ 31], the margin is the plain sum and so covers the call
    cost. *)
Theorem forwarded_gas a e args funType st templ st' :
  asFunctionType (type_of e) = Some funType ->
  appendExternalFunctionCall a e args st = OK (templ, st') ->
  let checkExistence :=
    Kind.eqb (kind funType) Kind.External ||
    Kind.eqb (kind funType) Kind.DelegateCall in
  let surcharges :=
    ((if valueSet funType then callValueTransferGas else 0) +
     (if checkExistence then 0 else callNewAccountGas))%N in
  let margin :=
    (((callGas evmVersion + 10) mod 2 ^ 32 + surcharges) mod 2 ^ 256)%N in
  Whiskers.lookup "gas" (Whiskers.parameters templ) =
  Some
    (if gasSet funType then name (part (IRVariable_of e) "gas")
     else if canOverchargeGasForCall evmVersion then "gas()"
     else "sub(gas(), " ++ formatNumber margin ++ ")") /\
  ((callGas evmVersion < 2 ^ 31)%N ->
   (callValueTransferGas < 2 ^ 31)%N ->
   (callNewAccountGas < 2 ^ 31)%N ->
   margin = (callGas evmVersion + 10 + surcharges)%N /\
   (callGas evmVersion <= margin)%N).
Proof.
  intros Hft H checkExistence surcharges margin. split.
  - unfold appendExternalFunctionCall in H. rewrite Hft in H.
    run_inv H as [] s1 H1. run_inv H as [] s2 H2. run_inv H as [] s3 H3.
    run_inv H as [] s4 H4. run_inv H as sizes s5 H5.
    run_inv H as [] s6 H6. run_inv H as [] s7 H7. run_inv H as [] s8 H8.
    run_inv H as pos s9 H9. run_inv H as end_ s10 H10.
    run_inv H as result s11 H11. run_inv H as [] s12 H12.
    run_inv H as [] s13 H13. run_inv H as [] s14 H14.
    run_inv H as templ1 s15 H15.
    run_inv H as [] s16 H16. run_inv H as [] s17 H17.
    run_inv H as [] s18 H18.
    apply ret_OK in H as [-> _].
    assert (Hv : Whiskers.lookup "gas" (Whiskers.parameters templ1) = None).
    { clear - H15.
      repeat match type of H15 with
             | (if ?c then _ else _) _ = _ => destruct c
             end;
        try (run_inv H15 as [] sx Hx);
        apply ret_OK in H15 as [-> _]; reflexivity. }
    assert (Hsmall : ((callGas evmVersion + 10) mod 2 ^ 32 < 2 ^ 256)%N).
    { apply N.lt_trans with (2 ^ 32)%N.
      - apply N.mod_upper_bound. discriminate.
      - reflexivity. }
    unfold margin, surcharges. fold checkExistence.
    repeat first
      [ rewrite lookup_set
      | rewrite lookup_setCondition
      | match goal with
        | |- context [Whiskers.parameters (if ?c then _ else _)] => destruct c
        end ];
      rewrite ?Hv; simpl String.eqb; cbv iota;
      try reflexivity;
      clearbody checkExistence;
      destruct (valueSet funType), checkExistence; simpl negb; cbv iota;
      unfold add256, add32;
      rewrite ?N.Div0.add_mod_idemp_l, ?N.add_0_r, ?N.add_0_l, ?N.add_assoc,
        ?(N.mod_small _ _ Hsmall);
      reflexivity.
  - intros Hc Hv Hn.
    assert (Hs : (surcharges < 2 ^ 32)%N).
    { unfold surcharges.
      destruct (valueSet funType), checkExistence;
        change (2 ^ 31)%N with 2147483648%N in *;
        change (2 ^ 32)%N with 4294967296%N; lia. }
    assert (E32 : ((callGas evmVersion + 10) mod 2 ^ 32 =
                   callGas evmVersion + 10)%N).
    { apply N.mod_small.
      change (2 ^ 31)%N with 2147483648%N in *;
        change (2 ^ 32)%N with 4294967296%N; lia. }
    assert (E : margin = (callGas evmVersion + 10 + surcharges)%N).
    { unfold margin. rewrite E32. apply N.mod_small.
      apply N.lt_trans with (2 ^ 33)%N.
      - change (2 ^ 31)%N with 2147483648%N in *;
          change (2 ^ 32)%N with 4294967296%N in *;
          change (2 ^ 33)%N with 8589934592%N; lia.
      - reflexivity. }
    split; [exact E|]. rewrite E. lia.
Qed.

(** The error that ends [appendExternalFunctionCall] on a bare call, by the
    first check of the function that fails. *)
Definition bareCallError (funType : FunctionTypeInfo SolType)
  (args : list Expression) : Error :=
  if negb (takesArbitraryParameters funType ||
           Nat.eqb (List.length args)
             (List.length (parameterTypes funType)))
  then InternalCompilerError ""
  else if bound funType then UnimplementedFeatureError ""
  else if Kind.eqb (kind funType) Kind.BareStaticCall &&
          negb (hasStaticCall evmVersion)
  then InternalCompilerError ""
  else if isBareCall funType || takesArbitraryParameters funType ||
          padArguments funType
  then UnimplementedFeatureError ""
  else if valueSet funType &&
          Kind.eqb (kind funType) Kind.BareDelegateCall
  then InternalCompilerError "Value set for delegatecall"
  else if valueSet funType &&
          (Kind.eqb (kind funType) Kind.BareStaticCall ||
           StateMutability.leb (stateMutability funType)
             StateMutability.View && hasStaticCall evmVersion)
  then InternalCompilerError "Value set for staticcall"
  else UnimplementedFeatureError "".

Lemma appendExternalFunctionCall_bare a e args funType st :
  asFunctionType (type_of e) = Some funType ->
  kind funType = Kind.BareCall \/ kind funType = Kind.BareDelegateCall \/
    kind funType = Kind.BareStaticCall ->
  appendExternalFunctionCall a e args st = Err (bareCallError funType args).
Proof.
  intros Hft Hkind.
  unfold appendExternalFunctionCall, bareCallError. rewrite Hft.
  destruct (takesArbitraryParameters funType ||
            Nat.eqb (List.length args)
              (List.length (parameterTypes funType))) eqn:Ea;
    [|reflexivity].
  destruct (bound funType); [reflexivity|].
  unfold bind at 1. simpl solAssert. cbv iota beta.
  unfold bind at 1. simpl solUnimplementedAssert. cbv iota beta.
  destruct Hkind as [E | [E | E]]; rewrite E; simpl;
    destruct (hasStaticCall evmVersion); simpl; try reflexivity;
    unfold bind; simpl;
    destruct (canOverchargeGasForCall evmVersion); simpl;
    rewrite ?andb_false_r; simpl;
    destruct (isBareCall funType); simpl; try reflexivity;
    rewrite ?orb_false_r;
    destruct (takesArbitraryParameters funType); simpl; try reflexivity;
    destruct (padArguments funType); simpl; try reflexivity;
    destruct (valueSet funType); simpl; try reflexivity;
    destruct (StateMutability.leb (stateMutability funType)
                StateMutability.View);
    simpl; reflexivity.
Qed.

(** C3, as the code has it.  The lowering of a bare low-level call
    ([BareCall], [BareDelegateCall], [BareStaticCall]: the kinds that return
    the success condition and the raw return data), whether or not decoded
    return values are asked for, never returns: [appendExternalFunctionCall]
    stops at the first of its checks that fails, before any call or decoding
    is emitted, and so does the traversal of the call expression.  A call
    that is well formed (its arguments match the parameters unless the
    function takes arbitrary parameters, a static call is one that the EVM
    version has) and whose kind is a bare one for the type system stops with
    an unimplemented-feature error.  The description carried by an
    unimplemented-feature error is always the empty string: no diagnostic
    describes the construct. *)
Theorem bare_call_unimplemented a e args funType st :
  asFunctionType (type_of e) = Some funType ->
  kind funType = Kind.BareCall \/ kind funType = Kind.BareDelegateCall \/
    kind funType = Kind.BareStaticCall ->
  appendExternalFunctionCall a e args st = Err (bareCallError funType args) /\
  (forall callKind names st0 u st',
      accept (FunctionCall a callKind e args names) st0 <> OK (u, st')) /\
  (takesArbitraryParameters funType = true \/
     List.length args = List.length (parameterTypes funType) ->
   (kind funType = Kind.BareStaticCall -> hasStaticCall evmVersion = true) ->
   isBareCall funType = true ->
   bareCallError funType args = UnimplementedFeatureError "") /\
  (forall description,
      bareCallError funType args = UnimplementedFeatureError description ->
      description = "").
Proof.
  intros Hft Hkind. split; [|split; [|split]].
  - now apply appendExternalFunctionCall_bare.
  - intros callKind names st0 u st' H. simpl in H.
    run_inv H as [] s1 He. run_inv H as [] s2 Hargs.
    unfold endVisit_FunctionCall in H.
    run_inv H as [] s3 Hc. apply solUnimplementedAssert_OK in Hc as [Hc ->].
    assert (Hcat : Category.eqb (category (type_of e)) Category.TypeType =
                   false).
    { unfold category. unfold asFunctionType in Hft.
      destruct (tkind (type_of e)); try discriminate Hft. reflexivity. }
    destruct callKind; try discriminate Hc.
    + rewrite Hft in H. cbv zeta in H.
      run_inv H as [] s4 Hn. run_inv H as arguments s5 Hnames.
      run_inv H as [] s6 Hb.
      assert (Happ : forall x s,
                 (appendExternalFunctionCall a e arguments ;; ret tt) s6 <>
                 OK (x, s)).
      { intros x s Hx. run_inv Hx as templ s7 Hy.
        pose proof (@appendExternalFunctionCall_bare a e arguments funType
                      s6 Hft Hkind) as Hz.
        rewrite Hz in Hy. discriminate Hy. }
      destruct Hkind as [E | [E | E]]; rewrite E in H;
        exact (Happ _ _ H).
    + run_inv H as [] s4 Hn. apply solAssert_OK in Hn as [Hn _].
      rewrite Hcat in Hn. discriminate Hn.
  - intros Hargs Hstatic Hbare. unfold bareCallError.
    assert (Ha : takesArbitraryParameters funType ||
                 Nat.eqb (List.length args)
                   (List.length (parameterTypes funType)) = true).
    { destruct Hargs as [-> | ->]; [reflexivity|].
      rewrite Nat.eqb_refl. apply orb_true_r. }
    rewrite Ha, Hbare. simpl.
    destruct (bound funType); [reflexivity|].
    destruct (Kind.eqb (kind funType) Kind.BareStaticCall) eqn:E;
      [|reflexivity].
    rewrite Hstatic; [reflexivity|].
    destruct (kind funType); try discriminate E. reflexivity.
  - intros description. unfold bareCallError.
    repeat match goal with
           | |- (if ?c then _ else _) = _ -> _ => destruct c
           end;
      intros E; try discriminate E; now injection E as <-.
Qed.

(** ** Short-circuit operators *)

(** The steps of a run of [appendAndOrOperatorCode] that returned. *)
Lemma appendAndOrOperatorCode_run a l op r st u st' :
  appendAndOrOperatorCode accept a l op r st = OK (u, st') ->
  let value := exprVar a in
  let guard :=
    if Token.eqb op Token.Or then "iszero(" ++ name value ++ ")"
    else name value in
  exists (Lc D Rc A : string) (st1 st2 st2' st3 st4 : State),
    lowers (accept l) st Lc tt st1 /\
    lowers (defineAs value (IRVariable_of l)) st1 D tt st2 /\
    emit ("if " ++ guard ++ " {" ++ LF) st2 = OK (tt, st2') /\
    lowers (accept r) st2' Rc tt st3 /\
    lowers (assign value (IRVariable_of r)) st3 A tt st4 /\
    m_code st' =
      m_code st ++ Lc ++ D ++ "if " ++ guard ++ " {" ++ LF ++
      Rc ++ A ++ "}" ++ LF /\
    (BalancedInterfaces -> checked (m_currentLValue st) ->
     balanced (Lc ++ D) /\ balanced guard /\
     forall rest,
       blockBody (LF ++ Rc ++ A ++ "}" ++ LF ++ rest) 0 =
       Some (LF ++ Rc ++ A, LF ++ rest)).
Proof.
  intros H value guard. unfold appendAndOrOperatorCode in H.
  run_inv H as [] sta Ha. apply solAssert_OK in Ha as [_ ->].
  run_inv H as [] st1 Hl. run_inv H as [] st2 Hd. fold value in Hd, H.
  run_inv H as [] st2' Hg. run_inv H as [] st3 Hr. run_inv H as [] st4 Has.
  destruct u.
  assert (Hg' : emit ("if " ++ guard ++ " {" ++ LF) st2 = OK (tt, st2')).
  { unfold guard. destruct (Token.eqb op Token.Or); [|exact Hg].
    simpl. simpl in Hg. rewrite append_assoc. exact Hg. }
  destruct (appends_out (appends_accept l) Hl) as [Lc HL].
  destruct (appends_out (appends_defineAs _ _) Hd) as [D HD].
  destruct (appends_out (appends_accept r) Hr) as [Rc HR].
  destruct (appends_out (appends_assign _ _) Has) as [A HA].
  exists Lc, D, Rc, A, st1, st2, st2', st3, st4.
  repeat (split; [assumption || (split; assumption)|]).
  split.
  - apply emit_OK in H as (-> & _). rewrite HA, HR.
    apply emit_OK in Hg' as (-> & _). rewrite HD, HL.
    now rewrite !append_assoc.
  - intros BI Hst.
    destruct (emitsLevel_lowers (emitsLevel_accept l) Hst (conj Hl HL))
      as (Hst1 & _ & BL).
    destruct (emitsLevel_lowers (emitsLevel_defineAs _ _) Hst1 (conj Hd HD))
      as (Hst2 & _ & BD).
    apply emit_OK in Hg' as (_ & Hlv & _). rewrite <- Hlv in Hst2.
    destruct (emitsLevel_lowers (emitsLevel_accept r) Hst2 (conj Hr HR))
      as (Hst3 & _ & BR).
    destruct (emitsLevel_lowers (emitsLevel_assign _ _) Hst3 (conj Has HA))
      as (_ & _ & BA).
    split; [now apply balanced_app|]. split.
    + unfold guard. destruct (Token.eqb op Token.Or); level_tac.
    + intros rest.
      assert (E : LF ++ Rc ++ A ++ "}" ++ LF ++ rest =
                  (LF ++ Rc ++ A) ++ "}" ++ (LF ++ rest))
        by now rewrite !append_assoc.
      rewrite E. apply blockBody_balanced.
      apply (balanced_app (a := LF)); [intro; reflexivity|].
      now apply balanced_app.
Qed.

(** C2.  For a logical AND the left operand is lowered ([Lc]) and bound as
    the result ([D]); the code of the right operand ([Rc]) and the rebinding
    of the result to it ([A]) are emitted between the opening of an [if]
    block on the result and the closing brace, and nowhere else.  For OR the
    block is the same, entered when the result is zero.  When the texts of
    the interfaces are balanced, what precedes the [if] and its guard are
    balanced, and the body of the block that the [if] opens is the code of
    the right operand followed by the rebinding, whatever text comes after
    the closing brace. *)
Theorem short_circuit_lowering a commonType l op r st u st' :
  op = Token.And \/ op = Token.Or ->
  accept (BinaryOperation a (Some commonType) l op r) st = OK (u, st') ->
  let value := exprVar a in
  let guard :=
    if Token.eqb op Token.Or then "iszero(" ++ name value ++ ")"
    else name value in
  exists (Lc D Rc A : string) (st1 st2 st2' st3 st4 : State),
    lowers (accept l) st Lc tt st1 /\
    lowers (defineAs value (IRVariable_of l)) st1 D tt st2 /\
    emit ("if " ++ guard ++ " {" ++ LF) st2 = OK (tt, st2') /\
    lowers (accept r) st2' Rc tt st3 /\
    lowers (assign value (IRVariable_of r)) st3 A tt st4 /\
    m_code st' =
      m_code st ++ Lc ++ D ++ "if " ++ guard ++ " {" ++ LF ++
      Rc ++ A ++ "}" ++ LF /\
    (BalancedInterfaces -> checked (m_currentLValue st) ->
     balanced (Lc ++ D) /\ balanced guard /\
     forall rest,
       blockBody (LF ++ Rc ++ A ++ "}" ++ LF ++ rest) 0 =
       Some (LF ++ Rc ++ A, LF ++ rest)).
Proof.
  intros Hop H. simpl in H. unfold visit_BinaryOperation in H.
  assert (Token.eqb op Token.And || Token.eqb op Token.Or = true) as E
      by (destruct Hop as [-> | ->]; reflexivity).
  rewrite E in H. exact (appendAndOrOperatorCode_run _ _ _ _ _ H).
Qed.

(** ** Loops *)

(** The text of a loop, read off the claim.  The Yul loop has the constant
    condition [1]; its body starts with the code of the condition and the
    test that breaks out when the condition is false, then runs the body of
    the source loop.  For a do-while the test is guarded by the flag
    [firstRun], which is 1 before the loop and set to 0 after the guarded
    test in every pass. *)
Definition loopText (isDoWhile : bool)
  (firstRun init post conditionCode condition bodyCode : string) : string :=
  (if isDoWhile then "let " ++ firstRun ++ " := 1" ++ LF else "") ++
  "for {" ++ LF ++ init ++ "} 1 {" ++ LF ++ post ++ "}" ++ LF ++
  "{" ++ LF ++
  (if isDoWhile then "if iszero(" ++ firstRun ++ ") {" ++ LF else "") ++
  conditionCode ++
  "if iszero(" ++ condition ++ ") { break }" ++ LF ++
  (if isDoWhile then "}" ++ LF ++ firstRun ++ " := 0" ++ LF else "") ++
  bodyCode ++ "}" ++ LF.

(** The steps of a run of [generateLoop], for a loop with a condition. *)
Lemma generateLoop_run body condition init post isDoWhile st u st' :
  generateLoop acceptStatement body (Some condition) init post isDoWhile st =
    OK (u, st') ->
  exists (firstRun I P Cc Bc : string) (st0 sc sc' sb sb' : State),
    (if isDoWhile then newYulVariable st = OK (firstRun, st0)
     else st0 = st) /\
    match init with
    | Some x => exists si si', lowers (acceptStatement x) si I tt si'
    | None => I = ""
    end /\
    match post with
    | Some e => exists sp sp', lowers (accept e) sp P tt sp'
    | None => P = ""
    end /\
    lowers (accept condition) sc Cc tt sc' /\
    lowers (acceptStatement body) sb Bc tt sb' /\
    m_code st' =
      m_code st ++
      loopText isDoWhile firstRun I P Cc
        (expressionAsType condition boolean) Bc /\
    (BalancedInterfaces -> checked (m_currentLValue st) ->
     balanced firstRun /\ balanced I /\ balanced P /\ balanced Cc /\
     balanced Bc).
Proof.
  intros H. unfold generateLoop in H.
  run_inv H as firstRun s1 Hf. run_inv H as [] s2 H2.
  run_inv H as [] s3 Hi. run_inv H as [] s4 H4.
  run_inv H as [] s5 Hp. run_inv H as [] s6 H6. run_inv H as [] s7 H7.
  run_inv H as [] s8 Hc. run_inv H as [] sb' Hb.
  run_inv Hc as [] s9 Hg. run_inv Hc as [] s10 Hcond.
  run_inv Hc as [] s11 Ht.
  destruct (appends_out (appends_accept condition) Hcond) as [Cc HCc].
  destruct (appends_out (appends_acceptStatement body) Hb) as [Bc HBc].
  assert (HI : exists I,
             lowers match init with
                    | Some x => acceptStatement x
                    | None => ret tt
                    end s2 I tt s3 /\
             match init with
             | Some x => exists si si', lowers (acceptStatement x) si I tt si'
             | None => I = ""
             end).
  { destruct init as [x|].
    - destruct (appends_out (appends_acceptStatement x) Hi) as [I HI].
      exists I. split; [split; assumption|]. exists s2, s3. split; assumption.
    - pose proof Hi as Hi'. apply ret_OK in Hi' as [_ ->]. exists "".
      split; [split; [exact Hi | now rewrite append_nil_r] | reflexivity]. }
  destruct HI as (I & [_ HI] & HI').
  assert (HP : exists P,
             m_code s5 = m_code s4 ++ P /\
             match post with
             | Some e => exists sp sp', lowers (accept e) sp P tt sp'
             | None => P = ""
             end).
  { destruct post as [e|]; simpl in Hp.
    - destruct (appends_out (appends_accept e) Hp) as [P HP].
      exists P. split; [exact HP|]. exists s4, s5. split; assumption.
    - pose proof Hp as Hp'. apply ret_OK in Hp' as [_ ->]. exists "".
      split; [now rewrite append_nil_r | reflexivity]. }
  destruct HP as (P & HP & HP').
  assert (Hbal : BalancedInterfaces -> checked (m_currentLValue st) ->
                 balanced firstRun /\ balanced I /\ balanced P /\
                 balanced Cc /\ balanced Bc).
  { intros BI Hst.
    assert (K1 : checked (m_currentLValue s1) /\ balanced firstRun).
    { eapply (emitsLevel_checked (A := string) (d := 0) (d' := 0));
        [|exact Hst|exact Hf].
      destruct isDoWhile; emits_tac. }
    destruct K1 as [K1 Bf].
    apply (checked_emit H2) in K1.
    destruct (emitsLevel_lowers (m := match init with
                                      | Some x => acceptStatement x
                                      | None => ret tt
                                      end)
                (fun d => ltac:(destruct init;
                                  [apply emitsLevel_acceptStatement
                                  | emits_tac]))
                K1 (conj Hi HI)) as (K3 & _ & BI').
    apply (checked_emit H4) in K3.
    destruct (emitsLevel_lowers (emitsLevel_acceptOptional post) K3
                (conj Hp HP)) as (K5 & _ & BP).
    apply (checked_emit H6) in K5.
    apply (checked_emit H7) in K5.
    assert (K9 : checked (m_currentLValue s9)).
    { eapply (emitsLevel_lvalue (A := unit) (d := 0)
                (d' := if isDoWhile then 1 else 0));
        [|exact K5|exact Hg].
      destruct isDoWhile; emits_tac. }
    destruct (emitsLevel_lowers (emitsLevel_accept condition) K9
                (conj Hcond HCc)) as (K10 & _ & BC).
    apply (checked_emit Ht) in K10.
    assert (K8 : checked (m_currentLValue s8)).
    { eapply (emitsLevel_lvalue (A := unit) (d := 1)
                (d' := if isDoWhile then 0 else 1));
        [|exact K10|exact Hc].
      destruct isDoWhile; emits_tac. }
    destruct (emitsLevel_lowers (emitsLevel_acceptStatement body) K8
                (conj Hb HBc)) as (_ & _ & BB).
    repeat split; assumption. }
  apply emit_OK in H as (Hend & _).
  apply emit_OK in H2 as (H2 & _). apply emit_OK in H4 as (H4 & _).
  apply emit_OK in H6 as (H6 & _). apply emit_OK in H7 as (H7 & _).
  apply emit_OK in Ht as (Ht & _).
  destruct isDoWhile.
  - run_inv Hf as [] sa Ha. apply solAssert_OK in Ha as [_ ->].
    run_inv Hf as fresh st0 Hn. run_inv Hf as [] sd Hlet.
    apply ret_OK in Hf as [-> ->].
    apply emit_OK in Hlet as (Hlet & _). apply emit_OK in Hg as (Hg & _).
    apply emit_OK in Hc as (Hc & _).
    exists fresh, I, P, Cc, Bc, st0, s9, s10, s8, sb'.
    split; [exact Hn|]. split; [exact HI'|]. split; [exact HP'|].
    split; [split; assumption|]. split; [split; assumption|].
    split; [|exact Hbal].
    rewrite Hend, HBc, Hc, Ht, HCc, Hg, H7, H6, HP, H4, HI, H2, Hlet.
    injection Hn as _ <-. unfold loopText. simpl m_code.
    now rewrite !append_assoc.
  - apply ret_OK in Hf as [-> ->]. apply ret_OK in Hg as [_ ->].
    apply ret_OK in Hc as [_ ->].
    exists "", I, P, Cc, Bc, st, s7, s10, s11, sb'.
    split; [reflexivity|]. split; [exact HI'|]. split; [exact HP'|].
    split; [split; assumption|]. split; [split; assumption|].
    split; [|exact Hbal].
    rewrite Hend, HBc, Ht, HCc, H7, H6, HP, H4, HI, H2.
    unfold loopText. now rewrite !append_assoc.
Qed.

(** C4.  A [while] or do-while statement, and a [for] statement with a
    condition, are lowered to the text [loopText]: the condition is tested
    at the top of the loop body in every pass and a false condition breaks
    out; for a do-while the test is inside a block entered only when the
    fresh flag [firstRun] is zero, the flag is 1 when the loop is entered
    and is cleared right after that block, so that the first pass skips the
    test and goes on to the body.  When the texts of the interfaces are
    balanced, so are the code of the condition and of the body (and of the
    initialization and of the loop expression of a [for]); the block that
    guards the test of a do-while then holds the code of the condition and
    the test, and ends before the flag is cleared. *)
Theorem loop_lowering :
  (forall condition body isDoWhile st u st',
      acceptStatement (WhileStatement condition body isDoWhile) st =
        OK (u, st') ->
      exists (firstRun Cc Bc : string) (st0 sc sc' sb sb' : State),
        (if isDoWhile then newYulVariable st = OK (firstRun, st0)
         else st0 = st) /\
        lowers (accept condition) sc Cc tt sc' /\
        lowers (acceptStatement body) sb Bc tt sb' /\
        m_code st' =
          m_code st ++
          loopText isDoWhile firstRun "" "" Cc
            (expressionAsType condition boolean) Bc /\
        (BalancedInterfaces -> checked (m_currentLValue st) ->
         balanced Cc /\ balanced Bc /\
         forall rest,
           let test :=
             LF ++ Cc ++ "if iszero(" ++ expressionAsType condition boolean ++
             ") { break }" ++ LF in
           blockBody (test ++ "}" ++ rest) 0 = Some (test, rest))) /\
  (forall init condition post body st u st',
      acceptStatement (ForStatement init (Some condition) post body) st =
        OK (u, st') ->
      exists (I P Cc Bc : string) (sc sc' sb sb' : State),
        match init with
        | Some x => exists si si', lowers (acceptStatement x) si I tt si'
        | None => I = ""
        end /\
        match post with
        | Some e => exists sp sp', lowers (accept e) sp P tt sp'
        | None => P = ""
        end /\
        lowers (accept condition) sc Cc tt sc' /\
        lowers (acceptStatement body) sb Bc tt sb' /\
        m_code st' =
          m_code st ++
          loopText false "" I P Cc (expressionAsType condition boolean) Bc /\
        (BalancedInterfaces -> checked (m_currentLValue st) ->
         balanced I /\ balanced P /\ balanced Cc /\ balanced Bc)).
Proof.
  split.
  - intros condition body isDoWhile st u st' H. simpl in H.
    unfold visit_WhileStatement in H.
    destruct (generateLoop_run _ _ _ _ _ _ H)
      as (firstRun & I & P & Cc & Bc & st0 & sc & sc' & sb & sb' &
          Hf & -> & -> & Hc & Hb & Hcode & Hbal).
    exists firstRun, Cc, Bc, st0, sc, sc', sb, sb'.
    split; [exact Hf|]. split; [exact Hc|]. split; [exact Hb|].
    split; [exact Hcode|].
    intros BI Hst. destruct (Hbal BI Hst) as (_ & _ & _ & BC & BB).
    split; [exact BC|]. split; [exact BB|].
    intros rest test. apply blockBody_balanced.
    intro d. unfold test. level_tac.
  - intros init condition post body st u st' H. simpl in H.
    unfold visit_ForStatement in H.
    destruct (generateLoop_run _ _ _ _ _ _ H)
      as (firstRun & I & P & Cc & Bc & st0 & sc & sc' & sb & sb' &
          Hf & HI & HP & Hc & Hb & Hcode & Hbal).
    exists I, P, Cc, Bc, sc, sc', sb, sb'.
    split; [exact HI|]. split; [exact HP|].
    split; [exact Hc|]. split; [exact Hb|].
    split.
    + assert (loopText false firstRun I P Cc
                (expressionAsType condition boolean) Bc =
              loopText false "" I P Cc
                (expressionAsType condition boolean) Bc) as <-
          by reflexivity.
      exact Hcode.
    + intros BI Hst. destruct (Hbal BI Hst) as (_ & BI' & BP & BC & BB).
      repeat split; assumption.
Qed.

End Properties.

(** * Invariants of every run

    Every computation of the generator is put together from [ret], [fail],
    [bind] and the operations on the state: [emit], [currentLValue],
    [putLValue], [newYulVariable] and the three operations on the table of
    local variables.  A property of computations that these have, every
    traversal has. *)
Section Invariant.

Context {TS : TypeSystem} {FM : Formatting} {VO : IRVariableOps}
        {YU : YulUtilFunctions} {AB : ABIFunctions}
        {CX : IRGenerationContext} {GC : GasCosts} {CU : CompilerUtils}
        {IA : InlineAssemblyBridge}.

Variable Inv : forall A : Type, M A -> Prop.

Hypothesis Inv_ret : forall (A : Type) (a : A), Inv (ret a).
Hypothesis Inv_fail : forall (A : Type) (e : Error), Inv (@fail A e).
Hypothesis Inv_bind :
  forall (A B : Type) (m : M A) (k : A -> M B),
    Inv m -> (forall a, Inv (k a)) -> Inv (bind m k).
Hypothesis Inv_emit : forall s, Inv (emit s).
Hypothesis Inv_currentLValue : Inv currentLValue.
Hypothesis Inv_putLValue : forall l, Inv (putLValue l).
Hypothesis Inv_newYulVariable : Inv newYulVariable.
Hypothesis Inv_isLocalVariable : forall d, Inv (isLocalVariable d).
Hypothesis Inv_localVariable : forall d, Inv (localVariable d).
Hypothesis Inv_addLocalVariable : forall d, Inv (addLocalVariable d).

Lemma Inv_solAssert c d : Inv (solAssert c d).
Proof. destruct c; [apply Inv_ret | apply Inv_fail]. Qed.

Lemma Inv_solUnimplementedAssert c d : Inv (solUnimplementedAssert c d).
Proof. destruct c; [apply Inv_ret | apply Inv_fail]. Qed.

Lemma Inv_solUnimplemented (A : Type) d : Inv (@solUnimplemented A d).
Proof. apply Inv_fail. Qed.

Lemma Inv_forEach (A : Type) (xs : list A) (body : A -> M unit) :
  (forall x, In x xs -> Inv (body x)) -> Inv (forEach xs body).
Proof.
  unfold forEach. induction xs as [|x xs IH]; intros H.
  - apply Inv_ret.
  - apply Inv_bind.
    + apply H. now left.
    + intros _. apply IH. intros y Hy. apply H. now right.
Qed.

Ltac inv_step :=
  first
    [ solve [auto using Inv_solAssert, Inv_solUnimplementedAssert,
               Inv_solUnimplemented]
    | progress cbv zeta
    | apply Inv_bind; [| intro]
    | match goal with
      | |- Inv (if ?c then _ else _) => destruct c
      | |- Inv (match ?x with _ => _ end) => destruct x
      end ].

Ltac inv_tac := repeat inv_step.

Lemma Inv_define v : Inv (define v).
Proof. unfold define. inv_tac. Qed.

Lemma Inv_declare v : Inv (declare v).
Proof. unfold declare. inv_tac. Qed.

Lemma Inv_declareAssign_at ty :
  forall lhs rhs d, Inv (declareAssign_at ty lhs rhs d).
Proof.
  induction ty as [k items IH] using SolType_items_ind. intros lhs rhs d.
  simpl. destruct (type_eqb (m_type lhs) (m_type rhs)); [|inv_tac].
  induction items as [|[n [t|]] items IHitems].
  - inv_tac.
  - apply Inv_bind.
    + apply (IH n t). now left.
    + intros _. apply IHitems. intros n' t' H. apply (IH n' t'). now right.
  - apply Inv_bind; [inv_tac|].
    intros _. apply IHitems. intros n' t' H. apply (IH n' t'). now right.
Qed.

Lemma Inv_defineAs v x : Inv (defineAs v x).
Proof. apply Inv_declareAssign_at. Qed.

Lemma Inv_assign v x : Inv (assign v x).
Proof. apply Inv_declareAssign_at. Qed.

Hint Resolve Inv_define Inv_declare Inv_defineAs Inv_assign : core.

Lemma Inv_convert v t : Inv (convert v t).
Proof. unfold convert. inv_tac. Qed.

Lemma Inv_binaryOperation op t l r : Inv (binaryOperation op t l r).
Proof. unfold binaryOperation. inv_tac. Qed.

Hint Resolve Inv_convert Inv_binaryOperation : core.

Lemma Inv_writeToLValue l : forall v, Inv (writeToLValue l v).
Proof.
  induction l as [ty x|ty s o|ty a b|ty cs IH] using IRLValue_components_ind;
    intros v.
  - simpl. inv_tac.
  - simpl. inv_tac.
  - simpl. inv_tac.
  - rewrite writeToLValue_Tuple. apply Inv_forEach. intros i _.
    cbv zeta. unfold writeComponent.
    destruct (nth_error cs (List.length cs - i - 1)) as [[c|]|] eqn:E;
      try apply Inv_ret.
    apply IH. eapply nth_error_In; eauto.
Qed.

Hint Resolve Inv_writeToLValue : core.

Lemma Inv_readFromLValue l : Inv (readFromLValue l).
Proof. unfold readFromLValue. inv_tac. Qed.

Hint Resolve Inv_readFromLValue : core.

Lemma Inv_setLValue e l : Inv (setLValue e l).
Proof. unfold setLValue. inv_tac. Qed.

Hint Resolve Inv_setLValue : core.

Lemma Inv_at_ (A : Type) (v : list A) i : Inv (at_ v i).
Proof. unfold at_. inv_tac. Qed.

Lemma Inv_renderTemplate t w : Inv (renderTemplate t w).
Proof. unfold renderTemplate. inv_tac. Qed.

Lemma Inv_arrayBaseType t : Inv (arrayBaseType t).
Proof. unfold arrayBaseType. inv_tac. Qed.

Lemma Inv_memberAccessArrayType e : Inv (memberAccessArrayType e).
Proof. unfold memberAccessArrayType. inv_tac. Qed.

Hint Resolve Inv_at_ Inv_renderTemplate Inv_arrayBaseType
  Inv_memberAccessArrayType : core.

Lemma Inv_namedArguments args names ps : Inv (namedArguments args names ps).
Proof. induction ps as [|p ps IH]; simpl; inv_tac. Qed.

Lemma Inv_internalCallArguments arb ps args :
  forall i, Inv (internalCallArguments arb ps args i).
Proof. induction args as [|a args IH]; intros i; simpl; inv_tac. Qed.

Lemma Inv_eventArguments indexed args ps :
  forall i acc, Inv (eventArguments indexed args ps i acc).
Proof.
  induction indexed as [|b indexed IH]; intros i acc; simpl; inv_tac.
Qed.

Lemma Inv_returnSize b ts : forall n, Inv (returnSize b ts n).
Proof. induction ts as [|t ts IH]; intros n; simpl; inv_tac. Qed.

Hint Resolve Inv_namedArguments Inv_internalCallArguments
  Inv_eventArguments Inv_returnSize : core.

Lemma Inv_appendExternalFunctionCall a e args :
  Inv (appendExternalFunctionCall a e args).
Proof. unfold appendExternalFunctionCall. inv_tac. Qed.

Hint Resolve Inv_appendExternalFunctionCall : core.

Lemma Inv_endVisit_FunctionCall a k e args names :
  Inv (endVisit_FunctionCall a k e args names).
Proof. unfold endVisit_FunctionCall. inv_tac. Qed.

Lemma Inv_endVisit_MemberAccess a d e m :
  Inv (endVisit_MemberAccess a d e m).
Proof. unfold endVisit_MemberAccess. inv_tac. Qed.

Lemma Inv_endVisit_IndexAccess a b i : Inv (endVisit_IndexAccess a b i).
Proof. unfold endVisit_IndexAccess. inv_tac. Qed.

Lemma Inv_endVisit_Identifier a d n : Inv (endVisit_Identifier a d n).
Proof. unfold endVisit_Identifier. inv_tac. Qed.

Lemma Inv_visit_Literal a : Inv (visit_Literal a).
Proof. unfold visit_Literal. inv_tac. Qed.

Lemma Inv_appendSimpleUnaryOperation a op e :
  Inv (appendSimpleUnaryOperation a op e).
Proof. unfold appendSimpleUnaryOperation. inv_tac. Qed.

Hint Resolve Inv_appendSimpleUnaryOperation : core.

Lemma Inv_endVisit_UnaryOperation a op e p :
  Inv (endVisit_UnaryOperation a op e p).
Proof. unfold endVisit_UnaryOperation. inv_tac. Qed.

Lemma Inv_compareExpression op sg args : Inv (compareExpression op sg args).
Proof. unfold compareExpression. inv_tac. Qed.

Hint Resolve Inv_endVisit_FunctionCall Inv_endVisit_MemberAccess
  Inv_endVisit_IndexAccess Inv_endVisit_Identifier Inv_visit_Literal
  Inv_endVisit_UnaryOperation Inv_compareExpression : core.

Lemma Inv_lowerTupleComponents (acc : Expression -> M unit) a cs :
  (forall e, In (Some e) cs -> Inv (acc e)) ->
  forall i lvalues, Inv (lowerTupleComponents acc a cs i lvalues).
Proof.
  induction cs as [|[c|] cs IH]; intros H i lvalues; simpl.
  - inv_tac.
  - apply Inv_bind; [apply H; now left|]. intros _.
    assert (forall e, In (Some e) cs -> Inv (acc e))
      by (intros e He; apply H; now right).
    inv_tac.
  - assert (forall e, In (Some e) cs -> Inv (acc e))
      by (intros e He; apply H; now right).
    inv_tac.
Qed.

Lemma Inv_accept : forall e, Inv (accept e).
Proof.
  induction e using Expression_sub_ind; simpl.
  - unfold visit_Conditional. inv_tac.
  - unfold visit_Assignment. inv_tac.
  - unfold visit_TupleExpression.
    destruct i; [inv_tac|].
    apply Inv_bind; [inv_tac|]. intros _.
    destruct (Nat.eqb (List.length cs) 1).
    + destruct cs as [|[front|] cs]; [inv_tac| |inv_tac].
      apply Inv_bind; [apply H; now left|]. intros _. inv_tac.
    + apply Inv_bind; [apply Inv_lowerTupleComponents; exact H|].
      intros lvalues. inv_tac.
  - inv_tac.
  - unfold visit_BinaryOperation, appendAndOrOperatorCode. inv_tac.
  - apply Inv_bind; [assumption|]. intros _.
    apply Inv_bind; [apply Inv_forEach; assumption|]. intros _.
    inv_tac.
  - inv_tac.
  - apply Inv_bind; [assumption|]. intros _.
    apply Inv_bind.
    + destruct i as [x|]; [apply H; reflexivity | inv_tac].
    + intros _. inv_tac.
  - apply Inv_bind; [assumption|]. intros _.
    apply Inv_bind.
    + destruct s as [x|]; [apply H; reflexivity | inv_tac].
    + intros _. apply Inv_bind.
      * destruct e0 as [x|]; [apply H0; reflexivity | inv_tac].
      * intros _. unfold endVisit_IndexRangeAccess. inv_tac.
  - inv_tac.
  - inv_tac.
  - apply Inv_forEach. assumption.
Qed.

Hint Resolve Inv_accept : core.

Lemma Inv_acceptOptional e : Inv (acceptOptional e).
Proof. unfold acceptOptional. inv_tac. Qed.

Hint Resolve Inv_acceptOptional : core.

Lemma Inv_generateLoop (acc : Statement -> M unit) body c i l d :
  Inv (acc body) -> (forall x, i = Some x -> Inv (acc x)) ->
  Inv (generateLoop acc body c i l d).
Proof.
  intros Hb Hi. unfold generateLoop.
  apply Inv_bind; [inv_tac|]. intros firstRun.
  apply Inv_bind; [inv_tac|]. intros _.
  apply Inv_bind.
  { destruct i as [x|]; [apply Hi; reflexivity | inv_tac]. }
  intros _. inv_tac.
Qed.

Lemma Inv_assignReturnParameters ps v :
  forall i, Inv (assignReturnParameters ps v i).
Proof. induction ps as [|p ps IH]; intros i; simpl; inv_tac. Qed.

Lemma Inv_defineTupleDeclarations ds cs v :
  forall i, Inv (defineTupleDeclarations ds cs v i).
Proof. induction ds as [|[d|] ds IH]; intros i; simpl; inv_tac. Qed.

Hint Resolve Inv_assignReturnParameters Inv_defineTupleDeclarations : core.

Lemma Inv_acceptStatement : forall s, Inv (acceptStatement s).
Proof.
  induction s using Statement_sub_ind; simpl.
  - apply Inv_forEach. assumption.
  - unfold visit_IfStatement.
    apply Inv_bind; [inv_tac|]. intros _. cbv zeta.
    apply Inv_bind.
    + destruct f as [x|]; [|inv_tac].
      apply Inv_bind; [inv_tac|]. intros _.
      apply Inv_bind; [apply H; reflexivity|]. intros _. inv_tac.
    + intros _. inv_tac.
  - unfold visit_ForStatement. apply Inv_generateLoop; assumption.
  - unfold visit_WhileStatement. apply Inv_generateLoop;
      [assumption | discriminate].
  - unfold visit_Continue. inv_tac.
  - unfold visit_Break. inv_tac.
  - unfold endVisit_Return. inv_tac.
  - unfold endVisit_VariableDeclarationStatement.
    apply Inv_bind; [inv_tac|]. intros _.
    destruct e as [x|]; [inv_tac|].
    apply Inv_forEach. intros [d|] _; inv_tac.
  - inv_tac.
  - unfold visit_InlineAssembly. inv_tac.
  - apply Inv_bind; [apply Inv_forEach; intros; inv_tac|].
    intros _. apply Inv_forEach. assumption.
Qed.

End Invariant.

(** * More properties of the lowering *)

(** ** Relations between the state before and after a run *)

(** [keeps R m]: a run of [m] that returns takes a state to one related to
    it by [R]. *)
Definition keeps (R : State -> State -> Prop) (A : Type) (m : M A) : Prop :=
  forall st a st', m st = OK (a, st') -> R st st'.

(** The state with the text [c] put before its output. *)
Definition prefixCode (c : string) (st : State) : State :=
  {| m_code := c ++ m_code st;
     m_currentLValue := m_currentLValue st;
     m_varCounter := m_varCounter st;
     m_localVariables := m_localVariables st |}.

Definition prefixResult (A : Type) (c : string) (r : Result (A * State))
  : Result (A * State) :=
  match r with
  | OK (a, st') => OK (a, prefixCode c st')
  | Err e => Err e
  end.

(** [streamBlind m]: [m] does not read the output stream; what was written
    before changes neither its result, nor its error, nor what it
    appends. *)
Definition streamBlind (A : Type) (m : M A) : Prop :=
  forall c st, m (prefixCode c st) = prefixResult c (m st).

Section Frames.

Context {TS : TypeSystem} {FM : Formatting} {VO : IRVariableOps}
        {YU : YulUtilFunctions} {AB : ABIFunctions}
        {CX : IRGenerationContext} {GC : GasCosts} {CU : CompilerUtils}
        {IA : InlineAssemblyBridge}.

Section Keeps.

Variable R : State -> State -> Prop.
Hypothesis R_refl : forall st, R st st.
Hypothesis R_trans : forall a b c, R a b -> R b c -> R a c.

Lemma keeps_ret (A : Type) (a : A) : keeps R (ret a).
Proof. intros st x st' H. apply ret_OK in H as [_ ->]. apply R_refl. Qed.

Lemma keeps_fail (A : Type) (e : Error) : keeps R (@fail A e).
Proof. intros st x st' H. discriminate H. Qed.

Lemma keeps_bind (A B : Type) (m : M A) (k : A -> M B) :
  keeps R m -> (forall a, keeps R (k a)) -> keeps R (bind m k).
Proof.
  intros Hm Hk st b st' H. apply bind_OK in H as (a & st1 & H1 & H2).
  exact (R_trans (Hm _ _ _ H1) (Hk _ _ _ _ H2)).
Qed.

Lemma keeps_currentLValue : keeps R currentLValue.
Proof.
  intros st x st' H. apply currentLValue_OK in H as [_ ->]. apply R_refl.
Qed.

Lemma keeps_isLocalVariable d : keeps R (isLocalVariable d).
Proof. intros st x st' H. injection H as _ <-. apply R_refl. Qed.

Lemma keeps_localVariable d : keeps R (localVariable d).
Proof.
  intros st x st' H. unfold localVariable in H.
  destruct (lookupLocal (declId d) (m_localVariables st)); [|discriminate].
  injection H as _ <-. apply R_refl.
Qed.

Hypothesis R_emit : forall s, keeps R (emit s).
Hypothesis R_putLValue : forall l, keeps R (putLValue l).
Hypothesis R_newYulVariable : keeps R newYulVariable.

(** The traversal of an expression keeps every relation that is reflexive,
    transitive, and kept by writing to the output, by setting the active
    lvalue and by taking a fresh name. *)
Lemma keeps_accept e : keeps R (accept e).
Proof.
  apply (Inv_accept (keeps R)); intros;
    auto using keeps_ret, keeps_fail, keeps_bind, keeps_currentLValue,
      keeps_isLocalVariable, keeps_localVariable.
Qed.

Hypothesis R_addLocalVariable : forall d, keeps R (addLocalVariable d).

Lemma keeps_acceptStatement s : keeps R (acceptStatement s).
Proof.
  apply (Inv_acceptStatement (keeps R)); intros;
    auto using keeps_ret, keeps_fail, keeps_bind, keeps_currentLValue,
      keeps_isLocalVariable, keeps_localVariable.
Qed.

End Keeps.

(** X1.  The counter of fresh names never goes back in a run of the
    traversal of a statement (an expression is traversed as an expression
    statement), so a name taken later in the run has a larger index than
    every name taken before. *)
Theorem fresh_name_counter_never_decreases s st u st' :
  acceptStatement s st = OK (u, st') -> m_varCounter st <= m_varCounter st'.
Proof.
  revert st u st'.
  apply (keeps_acceptStatement
           (R := fun a b => m_varCounter a <= m_varCounter b)).
  - intros. apply Nat.le_refl.
  - intros a b c. apply Nat.le_trans.
  - intros t st x st' H. apply emit_OK in H as (_ & _ & -> & _).
    apply Nat.le_refl.
  - intros l st x st' H. apply putLValue_OK in H as (_ & _ & -> & _).
    apply Nat.le_refl.
  - intros st x st' H. injection H as _ <-. simpl. apply Nat.le_succ_diag_r.
  - intros d st x st' H. unfold addLocalVariable in H.
    destruct (lookupLocal (declId d) (m_localVariables st)); [discriminate|].
    injection H as _ <-. apply Nat.le_refl.
Qed.

Lemma accept_localVariables e st u st' :
  accept e st = OK (u, st') -> m_localVariables st' = m_localVariables st.
Proof.
  revert st u st'.
  apply (keeps_accept
           (R := fun a b => m_localVariables b = m_localVariables a)).
  - reflexivity.
  - intros a b c Hab Hbc. now rewrite Hbc.
  - intros t st x st' H. now apply emit_OK in H as (_ & _ & _ & ->).
  - intros l st x st' H. now apply putLValue_OK in H as (_ & _ & _ & ->).
  - intros st x st' H. now injection H as _ <-.
Qed.

(** X2.  The traversal of an expression neither declares nor removes a
    local variable: the table of local variables after the run is the table
    before it. *)
Theorem expressions_keep_local_variables e st u st' :
  accept e st = OK (u, st') -> m_localVariables st' = m_localVariables st.
Proof. apply accept_localVariables. Qed.

(** X3.  A local variable that is declared stays declared, with the same
    value handle, in every later state of the traversal of a statement. *)
Theorem declared_variables_persist s st u st' n v :
  acceptStatement s st = OK (u, st') ->
  lookupLocal n (m_localVariables st) = Some v ->
  lookupLocal n (m_localVariables st') = Some v.
Proof.
  intros H. revert n v. revert st u st' H.
  apply (keeps_acceptStatement
           (R := fun a b =>
                   forall n v,
                     lookupLocal n (m_localVariables a) = Some v ->
                     lookupLocal n (m_localVariables b) = Some v)).
  - auto.
  - auto.
  - intros t st x st' H. apply emit_OK in H as (_ & _ & _ & ->). auto.
  - intros l st x st' H. apply putLValue_OK in H as (_ & _ & _ & ->). auto.
  - intros st x st' H. injection H as _ <-. auto.
  - intros d st x st' H. unfold addLocalVariable in H.
    destruct (lookupLocal (declId d) (m_localVariables st)) eqn:E;
      [discriminate|].
    injection H as _ <-. simpl. intros n v Hn.
    destruct (Nat.eqb (declId d) n) eqn:En; [|exact Hn].
    apply Nat.eqb_eq in En. subst n. congruence.
Qed.

(** *** The output stream is written, never read *)

Lemma streamBlind_ret (A : Type) (a : A) : streamBlind (ret a).
Proof. intros c st. reflexivity. Qed.

Lemma streamBlind_fail (A : Type) (e : Error) : streamBlind (@fail A e).
Proof. intros c st. reflexivity. Qed.

Lemma streamBlind_bind (A B : Type) (m : M A) (k : A -> M B) :
  streamBlind m -> (forall a, streamBlind (k a)) -> streamBlind (bind m k).
Proof.
  intros Hm Hk c st. unfold bind. rewrite Hm.
  destruct (m st) as [[a st1]|e]; simpl; [apply Hk | reflexivity].
Qed.

Lemma streamBlind_emit s : streamBlind (emit s).
Proof.
  intros c st. unfold emit, prefixCode. simpl. now rewrite append_assoc.
Qed.

Lemma streamBlind_addLocalVariable d : streamBlind (addLocalVariable d).
Proof.
  intros c st. unfold addLocalVariable. simpl.
  now destruct (lookupLocal (declId d) (m_localVariables st)).
Qed.

Lemma streamBlind_localVariable d : streamBlind (localVariable d).
Proof.
  intros c st. unfold localVariable. simpl.
  now destruct (lookupLocal (declId d) (m_localVariables st)).
Qed.

(** X4.  The traversal of a statement does not read the output stream: run
    after any text [c] it gives the same result or the same error, and
    appends the same text. *)
Theorem traversal_is_blind_to_the_stream s c st :
  acceptStatement s (prefixCode c st) = prefixResult c (acceptStatement s st).
Proof.
  revert c st. change (streamBlind (acceptStatement s)).
  apply (Inv_acceptStatement streamBlind);
    auto using streamBlind_ret, streamBlind_fail, streamBlind_bind,
      streamBlind_emit, streamBlind_addLocalVariable,
      streamBlind_localVariable;
    intros; intros c st; reflexivity.
Qed.

(** ** The active lvalue *)

Definition sameLValue (a b : State) : Prop :=
  m_currentLValue b = m_currentLValue a.

Lemma sameLValue_emit s : keeps sameLValue (emit s).
Proof.
  intros st x st' H. unfold sameLValue.
  now apply emit_OK in H as (_ & -> & _).
Qed.

Lemma sameLValue_defineAs v x : keeps sameLValue (defineAs v x).
Proof.
  apply (Inv_defineAs (keeps sameLValue)); intros.
  - apply keeps_ret. reflexivity.
  - apply keeps_bind; try assumption.
    unfold sameLValue. intros a0 b c Hab Hbc. now rewrite Hbc.
  - apply sameLValue_emit.
Qed.

(** X5.  The operations that use up the active lvalue leave none active: an
    assignment, a [delete], and an increment or decrement of an integer. *)
Theorem lvalue_consumers_leave_none_active :
  (forall a lhs op rhs st u st',
      accept (Assignment a lhs op rhs) st = OK (u, st') ->
      m_currentLValue st' = None) /\
  (forall a sub isPrefix st u st',
      accept (UnaryOperation a Token.Delete sub isPrefix) st = OK (u, st') ->
      m_currentLValue st' = None) /\
  (forall a op sub isPrefix st u st',
      op = Token.Inc \/ op = Token.Dec ->
      category (type a) = Category.Integer ->
      accept (UnaryOperation a op sub isPrefix) st = OK (u, st') ->
      m_currentLValue st' = None).
Proof.
  repeat split.
  - intros a lhs op rhs st u st' H.
    destruct (visit_Assignment_run _ _ _ _ _ H)
      as (value & lvalue & st1 & st2 & st3 & st4 & st5 & st6 &
          _ & _ & _ & _ & _ & _ & Hp & Hd).
    apply putLValue_OK in Hp as (_ & Hp & _).
    destruct (negb (type_eqb (type a) emptyTuple)).
    + pose proof (sameLValue_defineAs _ _ _ Hd) as E.
      unfold sameLValue in E. now rewrite E.
    + apply ret_OK in Hd as [_ ->]. exact Hp.
  - intros a sub isPrefix st u st' H. simpl in H.
    run_inv H as [] st0 Hs. unfold endVisit_UnaryOperation in H.
    simpl in H. run_inv H as cur st1 Hcur.
    destruct cur as [[ty [x|s o|ad b|cs]]|]; simpl in H; try discriminate;
      repeat (apply bind_OK in H as (? & ? & _ & H));
      now apply putLValue_OK in H as (_ & -> & _).
  - intros a op sub isPrefix st u st' Hop Hcat H. simpl in H.
    run_inv H as [] st0 Hs. unfold endVisit_UnaryOperation in H.
    assert (Token.eqb op Token.Delete = false) as E1
        by (destruct Hop as [-> | ->]; reflexivity).
    assert (Token.eqb op Token.Inc || Token.eqb op Token.Dec = true) as E2
        by (destruct Hop as [-> | ->]; reflexivity).
    rewrite E1, Hcat in H. simpl in H.
    run_inv H as [] sta Ha. rewrite E2 in H.
    run_inv H as cur stb Hcur.
    destruct cur as [lvalue|]; [|discriminate].
    run_inv H as modifiedName st1 Hn.
    run_inv H as originalValue st2 Hrd.
    run_inv H as [] st3 Hdp. run_inv H as [] st3' He.
    run_inv H as [] st4 Hw. run_inv H as [] st5 Hp.
    apply putLValue_OK in Hp as (_ & Hp & _).
    pose proof (sameLValue_defineAs _ _ _ H) as E.
    unfold sameLValue in E. now rewrite E.
Qed.

(** X6.  A tuple expression with a single component is that component in
    parentheses: when its lvalue is requested, lowering it is lowering the
    component, whose lvalue is left active as it is; no tuple lvalue is
    built and nothing is emitted besides the component's code. *)
Theorem parenthesised_lvalue a component st u st' :
  lValueRequested a = true ->
  accept (TupleExpression a [Some component] false) st = OK (u, st') ->
  m_currentLValue st = None /\
  accept component st = OK (tt, st') /\
  exists lvalue, m_currentLValue st' = Some lvalue.
Proof.
  intros Hreq H. simpl in H. unfold visit_TupleExpression in H.
  rewrite Hreq in H. simpl in H.
  run_inv H as [] st0 H0. run_inv H0 as cur st0' Hcur.
  apply currentLValue_OK in Hcur as [-> ->].
  apply solAssert_OK in H0 as [Hnone ->].
  run_inv H as [] st1 Hc. run_inv H as cur st1' Hcur.
  apply currentLValue_OK in Hcur as [-> ->].
  apply solAssert_OK in H as [Hsome ->].
  split; [now destruct (m_currentLValue st)|]. split; [exact Hc|].
  destruct (m_currentLValue st1) as [lvalue|]; [|discriminate].
  now exists lvalue.
Qed.

(** The state with [lvalue] as its active lvalue. *)
Definition withLValue (st : State) (lvalue : IRLValue.t) : State :=
  {| m_code := m_code st;
     m_currentLValue := Some lvalue;
     m_varCounter := m_varCounter st;
     m_localVariables := m_localVariables st |}.

(** X7.  An identifier that names a variable and whose lvalue is requested
    resolves by the kind of the declaration, a local variable first: to the
    stack lvalue of the handle in the table of local variables, else (a
    state variable) to the storage lvalue at the slot and the static offset
    that the context assigns to it; a variable that is neither is an
    internal compiler error.  Nothing is emitted. *)
Theorem identifier_resolution a varDecl identifierName st :
  isConstant varDecl = false ->
  lValueRequested a = true ->
  m_currentLValue st = None ->
  dataStoredIn (declType varDecl) DataLocation.CallData = false ->
  accept (Identifier a (VariableDecl varDecl) identifierName) st =
  match lookupLocal (declId varDecl) (m_localVariables st) with
  | Some variable =>
      OK (tt, withLValue st
                (IRLValue.mk (declType varDecl) (IRLValue.Stack variable)))
  | None =>
      if isStateVariable varDecl then
        OK (tt, withLValue st
                  (IRLValue.mk (declType varDecl)
                     (IRLValue.Storage
                        (toCompactHexWithPrefix
                           (fst (storageLocationOfVariable varDecl)))
                        (inr (snd (storageLocationOfVariable varDecl))))))
      else Err (InternalCompilerError "Invalid variable kind.")
  end.
Proof.
  intros Hconst Hreq Hnone Hdata. simpl. unfold endVisit_Identifier.
  rewrite Hconst. simpl. unfold bind at 1. simpl.
  unfold bind at 1. unfold isLocalVariable.
  destruct (lookupLocal (declId varDecl) (m_localVariables st))
    as [variable|] eqn:E; simpl.
  - unfold bind at 1. unfold localVariable. rewrite E.
    unfold setLValue, bind, currentLValue. rewrite Hnone, Hreq. simpl.
    rewrite Hdata. reflexivity.
  - destruct (isStateVariable varDecl); [|reflexivity].
    unfold setLValue, bind, currentLValue. rewrite Hnone, Hreq. simpl.
    rewrite Hdata. reflexivity.
Qed.

(** X8.  A declaration enters its variable in the table of local variables:
    the variable was not in the table before, it is looked up afterwards
    with the handle made from the declaration, whether or not there is an
    initial value, and declaring it once more never succeeds. *)
Theorem declaration_then_lookup d init st u st' :
  acceptStatement (VariableDeclarationStatement [Some d] init) st =
    OK (u, st') ->
  localVariable d st' = OK (IRVariable_decl d, st') /\
  forall init' u2 st2,
    acceptStatement (VariableDeclarationStatement [Some d] init') st' <>
    OK (u2, st2).
Proof.
  intros H. simpl in H. run_inv H as [] st0 Hi.
  unfold endVisit_VariableDeclarationStatement in H.
  assert (Hin : lookupLocal (declId d) (m_localVariables st') =
                Some (IRVariable_decl d)).
  { destruct init as [e|]; simpl in H.
    - run_inv H as variable st1 Ha. unfold addLocalVariable in Ha.
      destruct (lookupLocal (declId d) (m_localVariables st0));
        [discriminate|].
      injection Ha as <- <-.
      apply (Inv_defineAs
               (keeps (fun a b => m_localVariables b = m_localVariables a)))
        in H.
      + rewrite H. simpl. now rewrite Nat.eqb_refl.
      + intros. apply keeps_ret. reflexivity.
      + intros. apply keeps_bind; try assumption.
        intros a0 b c Hab Hbc. now rewrite Hbc.
      + intros t sa x sb Hs. now apply emit_OK in Hs as (_ & _ & _ & ->).
    - run_inv H as [] st1 Hb. apply ret_OK in H as [_ ->].
      run_inv Hb as variable st2 Ha. unfold addLocalVariable in Ha.
      destruct (lookupLocal (declId d) (m_localVariables st0));
        [discriminate|].
      injection Ha as <- <-.
      apply (Inv_declare
               (keeps (fun a b => m_localVariables b = m_localVariables a)))
        in Hb.
      + rewrite Hb. simpl. now rewrite Nat.eqb_refl.
      + intros. apply keeps_ret. reflexivity.
      + intros t sa x sb Hs. now apply emit_OK in Hs as (_ & _ & _ & ->). }
  split.
  - unfold localVariable. now rewrite Hin.
  - intros init' u2 st2 H2. simpl in H2. run_inv H2 as [] sa Hi'.
    assert (Hsa : lookupLocal (declId d) (m_localVariables sa) =
                  Some (IRVariable_decl d)).
    { destruct init' as [e|]; simpl in Hi'.
      - now rewrite (accept_localVariables _ _ Hi').
      - now apply ret_OK in Hi' as [_ ->]. }
    unfold endVisit_VariableDeclarationStatement in H2.
    destruct init' as [e|]; simpl in H2.
    + run_inv H2 as variable sb Ha. unfold addLocalVariable in Ha.
      now rewrite Hsa in Ha.
    + run_inv H2 as [] sb Hb. run_inv Hb as variable sc Ha.
      unfold addLocalVariable in Ha. now rewrite Hsa in Ha.
Qed.

(** ** Branches *)

(** X9.  A conditional expression lowers its condition, declares the
    result, and dispatches on the condition converted to a boolean: the
    code of the false expression and the binding of the result to it are in
    the block of [case 0], those of the true expression in the block of
    [default].  When the texts of the interfaces are balanced, each of the
    two blocks holds the code of one branch and nothing of the other. *)
Theorem conditional_lowering a c t f st u st' :
  accept (Conditional a c t f) st = OK (u, st') ->
  let result := exprVar a in
  exists (Cc DC Fc Fa Tc Ta : string) (st1 st2 sf sf1 sf2 stt stt1 stt2 : State),
    lowers (accept c) st Cc tt st1 /\
    lowers (declare result) st1 DC tt st2 /\
    lowers (accept f) sf Fc tt sf1 /\
    lowers (assign result (IRVariable_of f)) sf1 Fa tt sf2 /\
    lowers (accept t) stt Tc tt stt1 /\
    lowers (assign result (IRVariable_of t)) stt1 Ta tt stt2 /\
    m_code st' =
      m_code st ++ Cc ++ DC ++
      "switch " ++ expressionAsType c boolean ++ LF ++
      "case 0 {" ++ LF ++ Fc ++ Fa ++ "}" ++ LF ++
      "default {" ++ LF ++ Tc ++ Ta ++ "}" ++ LF /\
    (BalancedInterfaces -> checked (m_currentLValue st) ->
     forall rest,
       blockBody (LF ++ Fc ++ Fa ++ "}" ++ rest) 0 =
         Some (LF ++ Fc ++ Fa, rest) /\
       blockBody (LF ++ Tc ++ Ta ++ "}" ++ rest) 0 =
         Some (LF ++ Tc ++ Ta, rest)).
Proof.
  intros H result. simpl in H. unfold visit_Conditional in H.
  run_inv H as [] st1 Hc. run_inv H as [] st2 Hd. fold result in Hd, H.
  run_inv H as [] sf He1. run_inv H as [] sf1 Hf. run_inv H as [] sf2 Hfa.
  run_inv H as [] stt He2. run_inv H as [] stt1 Ht. run_inv H as [] stt2 Hta.
  destruct (appends_out (appends_accept c) Hc) as [Cc HCc].
  destruct (appends_out (appends_declare _) Hd) as [DC HDC].
  destruct (appends_out (appends_accept f) Hf) as [Fc HFc].
  destruct (appends_out (appends_assign _ _) Hfa) as [Fa HFa].
  destruct (appends_out (appends_accept t) Ht) as [Tc HTc].
  destruct (appends_out (appends_assign _ _) Hta) as [Ta HTa].
  exists Cc, DC, Fc, Fa, Tc, Ta, st1, st2, sf, sf1, sf2, stt, stt1, stt2.
  repeat (split; [split; assumption|]).
  split.
  - apply emit_OK in H as (-> & _). rewrite HTa, HTc.
    apply emit_OK in He2 as (-> & _). rewrite HFa, HFc.
    apply emit_OK in He1 as (-> & _). rewrite HDC, HCc.
    now rewrite !append_assoc.
  - intros BI Hst rest.
    destruct (emitsLevel_lowers (emitsLevel_accept c) Hst (conj Hc HCc))
      as (K1 & _ & _).
    destruct (emitsLevel_lowers (emitsLevel_declare _) K1 (conj Hd HDC))
      as (K2 & _ & _).
    apply (checked_emit He1) in K2.
    destruct (emitsLevel_lowers (emitsLevel_accept f) K2 (conj Hf HFc))
      as (K3 & _ & BF).
    destruct (emitsLevel_lowers (emitsLevel_assign _ _) K3 (conj Hfa HFa))
      as (K4 & _ & BFa).
    apply (checked_emit He2) in K4.
    destruct (emitsLevel_lowers (emitsLevel_accept t) K4 (conj Ht HTc))
      as (K5 & _ & BT).
    destruct (emitsLevel_lowers (emitsLevel_assign _ _) K5 (conj Hta HTa))
      as (_ & _ & BTa).
    split.
    + assert (E : LF ++ Fc ++ Fa ++ "}" ++ rest =
                  (LF ++ Fc ++ Fa) ++ "}" ++ rest)
        by now rewrite !append_assoc.
      rewrite E. apply blockBody_balanced.
      apply (balanced_app (a := LF)); [intro; reflexivity|].
      now apply balanced_app.
    + assert (E : LF ++ Tc ++ Ta ++ "}" ++ rest =
                  (LF ++ Tc ++ Ta) ++ "}" ++ rest)
        by now rewrite !append_assoc.
      rewrite E. apply blockBody_balanced.
      apply (balanced_app (a := LF)); [intro; reflexivity|].
      now apply balanced_app.
Qed.

(** X10.  An [if] statement lowers its condition and then, without an
    [else], opens an [if] block on the condition converted to a boolean
    that holds the code of the true statement; with an [else], it opens a
    [switch] whose [case 0] block holds the code of the false statement and
    whose [default] block holds the code of the true statement. *)
Theorem if_statement_lowering condition trueStatement falseStatement
  st u st' :
  acceptStatement (IfStatement condition trueStatement falseStatement) st =
    OK (u, st') ->
  exists (Cc Tc : string) (st1 stt stt1 : State),
    lowers (accept condition) st Cc tt st1 /\
    lowers (acceptStatement trueStatement) stt Tc tt stt1 /\
    match falseStatement with
    | None =>
        m_code st' =
          m_code st ++ Cc ++
          "if " ++ expressionAsType condition boolean ++ " {" ++ LF ++
          Tc ++ "}" ++ LF
    | Some falseStatement_ =>
        exists (Fc : string) (sf sf1 : State),
          lowers (acceptStatement falseStatement_) sf Fc tt sf1 /\
          m_code st' =
            m_code st ++ Cc ++
            "switch " ++ expressionAsType condition boolean ++ LF ++
            "case 0 {" ++ LF ++ Fc ++ "}" ++ LF ++
            "default {" ++ LF ++ Tc ++ "}" ++ LF
    end.
Proof.
  intros H. simpl in H. unfold visit_IfStatement in H.
  run_inv H as [] st1 Hc. cbv zeta in H.
  run_inv H as [] stt Hopen. run_inv H as [] stt1 Ht.
  destruct (appends_out (appends_accept condition) Hc) as [Cc HCc].
  destruct (appends_out (appends_acceptStatement trueStatement) Ht)
    as [Tc HTc].
  exists Cc, Tc, st1, stt, stt1.
  split; [split; assumption|]. split; [split; assumption|].
  apply emit_OK in H as (-> & _). rewrite HTc.
  destruct falseStatement as [falseStatement_|].
  - run_inv Hopen as [] sf He1. run_inv Hopen as [] sf1 Hf.
    destruct (appends_out (appends_acceptStatement falseStatement_) Hf)
      as [Fc HFc].
    exists Fc, sf, sf1. split; [split; assumption|].
    apply emit_OK in Hopen as (-> & _). rewrite HFc.
    apply emit_OK in He1 as (-> & _). rewrite HCc.
    now rewrite !append_assoc.
  - apply emit_OK in Hopen as (-> & _). rewrite HCc.
    now rewrite !append_assoc.
Qed.

(** X11.  A [for] statement without a condition is lowered to a Yul loop
    with the constant condition [1] whose body block holds the code of the
    body and no test: nothing in the loop breaks out of it besides what the
    body itself emits. *)
Theorem for_without_condition init post body st u st' :
  acceptStatement (ForStatement init None post body) st = OK (u, st') ->
  exists (I P Bc : string) (s1 s2 s3 s4 sb sb' : State),
    lowers match init with
           | Some x => acceptStatement x
           | None => ret tt
           end s1 I tt s2 /\
    lowers (acceptOptional post) s3 P tt s4 /\
    lowers (acceptStatement body) sb Bc tt sb' /\
    m_code st' =
      m_code st ++ "for {" ++ LF ++ I ++ "} 1 {" ++ LF ++ P ++ "}" ++ LF ++
      "{" ++ LF ++ Bc ++ "}" ++ LF.
Proof.
  intros H. simpl in H. unfold visit_ForStatement, generateLoop in H.
  run_inv H as firstRun s0 Hf. apply ret_OK in Hf as [-> ->].
  run_inv H as [] s1 H1. run_inv H as [] s2 Hi. run_inv H as [] s3 H3.
  run_inv H as [] s4 Hp. run_inv H as [] s5 H5. run_inv H as [] s6 H6.
  run_inv H as [] s7 Hc. apply ret_OK in Hc as [_ ->].
  run_inv H as [] sb' Hb.
  assert (HI : exists I, m_code s2 = m_code s1 ++ I).
  { destruct init as [x|].
    - exact (appends_out (appends_acceptStatement x) Hi).
    - pose proof Hi as Hi'. apply ret_OK in Hi' as [_ ->]. exists "".
      now rewrite append_nil_r. }
  destruct HI as [I HI].
  destruct (appends_out (appends_acceptOptional post) Hp) as [P HP].
  destruct (appends_out (appends_acceptStatement body) Hb) as [Bc HBc].
  exists I, P, Bc, s1, s2, s3, s4, s6, sb'.
  repeat (split; [split; assumption|]).
  apply emit_OK in H as (-> & _). rewrite HBc.
  apply emit_OK in H6 as (-> & _). apply emit_OK in H5 as (-> & _).
  rewrite HP. apply emit_OK in H3 as (-> & _). rewrite HI.
  apply emit_OK in H1 as (-> & _). now rewrite !append_assoc.
Qed.

(** X12.  The last thing a [return] statement emits is [leave].  Without a
    value it emits nothing else; with a value, the function's return
    parameters must be known, and the code of the value and of the
    assignments to the return parameters comes before the [leave]. *)
Theorem return_lowering expression returnParameters st u st' :
  acceptStatement (Return expression returnParameters) st = OK (u, st') ->
  exists before : string,
    m_code st' = m_code st ++ before ++ "leave" ++ LF /\
    match expression with
    | None => before = ""
    | Some value =>
        exists (parameters : list VariableDeclaration) (V : string)
               (st1 : State),
          returnParameters = Some parameters /\
          lowers (accept value) st V tt st1 /\
          exists A, before = V ++ A /\
                    (parameters = [] -> A = "")
    end.
Proof.
  intros H. simpl in H. run_inv H as [] st1 Hv.
  unfold endVisit_Return in H. run_inv H as [] st2 Ha.
  apply emit_OK in H as (Hcode & _).
  destruct expression as [value|]; simpl in Hv.
  - destruct returnParameters as [parameters|]; [|discriminate].
    destruct (appends_out (appends_accept value) Hv) as [V HV].
    assert (HA : exists A, m_code st2 = m_code st1 ++ A /\
                           (parameters = [] -> A = "")).
    { destruct parameters as [|p ps].
      - simpl in Ha. apply ret_OK in Ha as [_ ->]. exists "".
        split; [now rewrite append_nil_r | reflexivity].
      - assert (appends
                  (if Nat.ltb 1 (List.length (p :: ps))
                   then assignReturnParameters (p :: ps)
                          (IRVariable_of value) 0
                   else if Nat.eqb (List.length (p :: ps)) 1
                        then front <- at_ (p :: ps) 0 ;;
                             variable <- localVariable front ;;
                             assign variable (IRVariable_of value)
                        else ret tt)) as Happ.
        { pose proof (appends_assignReturnParameters (p :: ps)
                        (IRVariable_of value)).
          pose proof appends_localVariable. pose proof appends_assign.
          pose proof (@appends_at_ VariableDeclaration).
          appends_tac. }
        destruct (appends_out Happ Ha) as [A HA]. exists A.
        split; [exact HA | discriminate]. }
    destruct HA as (A & HA & HA0).
    exists (V ++ A). split.
    + rewrite Hcode, HA, HV. now rewrite !append_assoc.
    + exists parameters, V, st1. split; [reflexivity|].
      split; [split; assumption|]. exists A. split; [reflexivity|exact HA0].
  - apply ret_OK in Hv as [_ ->]. apply ret_OK in Ha as [_ ->].
    exists "". split; [exact Hcode | reflexivity].
Qed.

(** ** What is not lowered *)

(** X13.  Constructs without a lowering never lower: an index range access,
    an inline array, a struct member access and an index access into fixed
    bytes fail whatever code their sub-expressions emitted; an identifier
    that names a constant variable or a library fails before anything is
    emitted. *)
Theorem unsupported_constructs_never_lower :
  (forall a b s e st u st',
      accept (IndexRangeAccess a b s e) st <> OK (u, st')) /\
  (forall a components st,
      accept (TupleExpression a components true) st =
      Err (UnimplementedFeatureError "")) /\
  (forall a d e member st u st',
      tkind (type_of e) = StructType ->
      accept (MemberAccess a d e member) st <> OK (u, st')) /\
  (forall a b i n st u st',
      tkind (type_of b) = FixedBytesType n ->
      accept (IndexAccess a b i) st <> OK (u, st')) /\
  (forall a d n st,
      isConstant d = true ->
      accept (Identifier a (VariableDecl d) n) st =
      Err (UnimplementedFeatureError "")) /\
  (forall a n st,
      accept (Identifier a (ContractDefinition true) n) st =
      Err (UnimplementedFeatureError "Libraries not yet supported.")).
Proof.
  repeat split.
  - intros a b s e st u st' H. simpl in H.
    run_inv H as [] s1 H1. run_inv H as [] s2 H2. run_inv H as [] s3 H3.
    discriminate H.
  - intros a d e member st u st' Hk H. simpl in H.
    run_inv H as [] s1 H1. unfold endVisit_MemberAccess in H.
    run_inv H as [] s2 H2. rewrite Hk in H. discriminate H.
  - intros a b i n st u st' Hk H. simpl in H.
    run_inv H as [] s1 H1. run_inv H as [] s2 H2.
    unfold endVisit_IndexAccess in H. rewrite Hk in H. discriminate H.
  - intros a d n st Hc. simpl. unfold endVisit_Identifier. now rewrite Hc.
Qed.

(** ** Calls *)

(** X14.  A call of [require] or [assert] takes one or two arguments: with
    none, or with more than two, lowering fails with an internal compiler
    error; with one it emits the call of the helper on the condition; with
    two it emits the call of the helper chosen for the type of the message,
    and passes the message only when its type takes room on the stack. *)
Theorem require_assert_arguments a e args functionType st :
  asFunctionType (type_of e) = Some functionType ->
  bound functionType = false ->
  takesArbitraryParameters functionType = true \/
  List.length args = List.length (parameterTypes functionType) ->
  kind functionType = Kind.Require \/ kind functionType = Kind.Assert ->
  let helper messageType :=
    m_utils (requireOrAssertFunction
               (Kind.eqb (kind functionType) Kind.Assert) messageType) in
  endVisit_FunctionCall a FunctionCallKind.FunctionCall e args [] st =
  match args with
  | [] =>
      Err (InternalCompilerError
             "Expected at least one parameter for require/assert")
  | [condition] =>
      emit (helper None ++ "(" ++ name (IRVariable_of condition) ++ ")" ++ LF)
        st
  | [condition; message] =>
      emit (helper (Some (type_of message)) ++ "(" ++
            name (IRVariable_of condition) ++
            (if Nat.ltb 0 (sizeOnStack (type_of message))
             then ", " ++ commaSeparatedList (IRVariable_of message)
             else "") ++
            ")" ++ LF) st
  | _ =>
      Err (InternalCompilerError
             "Expected no more than two parameters for require/assert")
  end.
Proof.
  intros Hf Hb Hn Hk helper. unfold helper.
  unfold endVisit_FunctionCall. rewrite Hf, Hb. simpl.
  unfold bind at 1. simpl. unfold bind at 1.
  assert (E : (if negb (takesArbitraryParameters functionType)
               then solAssert
                      (Nat.eqb (List.length args)
                         (List.length (parameterTypes functionType))) ""
               else ret tt) st = OK (tt, st)).
  { destruct Hn as [-> | ->]; [reflexivity|].
    rewrite Nat.eqb_refl. now destruct (takesArbitraryParameters _). }
  rewrite E. unfold bind at 1. simpl. unfold bind at 1. simpl.
  destruct args as [|condition [|message [|third rest]]].
  - destruct Hk as [-> | ->]; reflexivity.
  - destruct Hk as [-> | ->]; simpl; unfold bind, emit; simpl;
      rewrite !append_assoc; reflexivity.
  - destruct Hk as [-> | ->]; simpl;
      destruct (Nat.ltb 0 (sizeOnStack (type_of message))); simpl;
      unfold bind, emit; simpl; rewrite ?append_nil_r, !append_assoc;
      reflexivity.
  - destruct Hk as [-> | ->]; reflexivity.
Qed.

(** Peeling the checks off the front of a run that returned. *)
Ltac checks_inv H :=
  repeat
    match type of H with
    | bind (solAssert _ _) _ _ = OK _ =>
        let Ha := fresh "Ha" in
        apply bind_OK in H as ([] & ? & Ha & H);
        apply solAssert_OK in Ha as [Ha ->]
    | bind (solUnimplementedAssert _ _) _ _ = OK _ =>
        let Ha := fresh "Ha" in
        apply bind_OK in H as ([] & ? & Ha & H);
        apply solUnimplementedAssert_OK in Ha as [Ha ->]
    end.

(** X15.  Lowering an external call fills the call template and does not
    render it: the only text it may append is the store that touches the
    end of the output area; it takes three fresh names and leaves the
    active lvalue and the local variables as they are.  No call instruction
    is emitted and the variables of the call expression are not defined. *)
Theorem external_call_emits_no_call a e args st templ st' :
  appendExternalFunctionCall a e args st = OK (templ, st') ->
  m_currentLValue st' = m_currentLValue st /\
  m_localVariables st' = m_localVariables st /\
  m_varCounter st' = 3 + m_varCounter st /\
  (m_code st' = m_code st \/
   exists retSize : N,
     m_code st' =
       m_code st ++ "mstore(add(" ++ fetchFreeMem ++ ", " ++
       to_stringN retSize ++ "), 0)" ++ LF).
Proof.
  intros H. unfold appendExternalFunctionCall in H.
  destruct (asFunctionType (type_of e)) as [funType|]; [|discriminate].
  checks_inv H. cbv zeta in H.
  run_inv H as sizes s1 Hs.
  assert (s1 = st) as ->.
  { destruct (negb _) in Hs.
    - revert Hs.
      apply (Inv_returnSize (keeps (fun a b : State => b = a))); intros.
      + now apply keeps_ret.
      + apply keeps_fail.
      + apply keeps_bind; try assumption. intros x y z -> ->. reflexivity.
    - now apply ret_OK in Hs as [_ ->]. }
  checks_inv H. run_inv H as [] s2 Hm. checks_inv H.
  run_inv H as pos s3 Hp1. run_inv H as end_ s4 Hp2.
  run_inv H as result s5 Hp3. checks_inv H.
  run_inv H as templ0 s6 Ht. checks_inv H. apply ret_OK in H as [_ ->].
  assert (s6 = s5) as ->.
  { repeat match type of Ht with
           | (if ?c then _ else _) _ = _ => destruct c
           end;
      checks_inv Ht; now apply ret_OK in Ht as [_ ->]. }
  injection Hp1 as _ <-. injection Hp2 as _ <-. injection Hp3 as _ <-.
  simpl.
  assert (Hm' : m_currentLValue s2 = m_currentLValue st /\
                m_localVariables s2 = m_localVariables st /\
                m_varCounter s2 = m_varCounter st /\
                (m_code s2 = m_code st \/
                 exists retSize : N,
                   m_code s2 =
                     m_code st ++ "mstore(add(" ++ fetchFreeMem ++ ", " ++
                     to_stringN retSize ++ "), 0)" ++ LF)).
  { repeat match type of Hm with
           | (if ?c then _ else _) _ = _ => destruct c
           end;
      try (apply ret_OK in Hm as [_ ->]; repeat split; now left).
    apply emit_OK in Hm as (Hc & Hl & Hv & Hlv).
    repeat split; try assumption. right. now exists (fst sizes). }
  destruct Hm' as (Hl & Hlv & Hv & Hc).
  repeat split; try assumption. now rewrite Hv.
Qed.

(** ** State variables and declarations *)

(** X16.  Initializing a state variable: a variable that is not a state
    variable, or a constant, is an internal compiler error; without an
    initial value nothing is done; with one, the value is lowered and then
    written, as it is, to the storage slot and static offset that the
    context assigns to the variable. *)
Theorem state_variable_initialization d st :
  (isStateVariable d = false ->
   forall value,
     initializeStateVar d value st =
     Err (InternalCompilerError "Must be a state variable.")) /\
  (isStateVariable d = true -> isConstant d = true ->
   forall value,
     initializeStateVar d value st = Err (InternalCompilerError "")) /\
  (isStateVariable d = true -> isConstant d = false ->
   initializeStateVar d None st = OK (tt, st) /\
   forall initialValue,
     initializeStateVar d (Some initialValue) st =
     (accept initialValue ;;
      emit (m_utils (updateStorageValueFunction (declType d)
                       (Some (snd (storageLocationOfVariable d)))) ++
            "(" ++
            toCompactHexWithPrefix (fst (storageLocationOfVariable d)) ++
            commaSeparatedListPrefixed (IRVariable_of initialValue) ++
            ")" ++ LF)) st).
Proof.
  unfold initializeStateVar. split; [|split].
  - intros Hs value. rewrite Hs. reflexivity.
  - intros Hs Hc value. rewrite Hs, Hc. reflexivity.
  - intros Hs Hc. rewrite Hs, Hc. split; [reflexivity|].
    intros initialValue. reflexivity.
Qed.

(** The entries that a list of declarations adds to the table of local
    variables: one for each declaration that is not a hole. *)
Definition declaredEntries (declarations : list (option VariableDeclaration))
  : list (nat * IRVariable) :=
  flat_map
    (fun declaration =>
       match declaration with
       | Some d => [(declId d, IRVariable_decl d)]
       | None => []
       end) declarations.

Lemma defineAs_localVariables v x st u st' :
  defineAs v x st = OK (u, st') -> m_localVariables st' = m_localVariables st.
Proof.
  revert st u st'.
  apply (Inv_defineAs
           (keeps (fun a b => m_localVariables b = m_localVariables a)));
    intros.
  - now apply keeps_ret.
  - apply keeps_bind; try assumption.
    intros a0 b c Hab Hbc. now rewrite Hbc.
  - intros sa y sb Hs. now apply emit_OK in Hs as (_ & _ & _ & ->).
Qed.

Lemma defineTupleDeclarations_localVariables ds cs v :
  forall i st u st',
    defineTupleDeclarations ds cs v i st = OK (u, st') ->
    m_localVariables st' =
    (rev (declaredEntries ds) ++ m_localVariables st)%list.
Proof.
  induction ds as [|[d|] ds IH]; intros i st u st' H; simpl in H.
  - now apply ret_OK in H as [_ ->].
  - run_inv H as component s1 Hc.
    assert (s1 = st) as ->.
    { unfold at_ in Hc. destruct (nth_error cs i); [|discriminate].
      now apply ret_OK in Hc as [_ ->]. }
    checks_inv H. run_inv H as variable s2 Hadd. run_inv H as [] s3 Hd.
    rewrite (IH _ _ _ _ H), (defineAs_localVariables _ _ _ Hd).
    unfold addLocalVariable in Hadd.
    destruct (lookupLocal (declId d) (m_localVariables st)); [discriminate|].
    injection Hadd as _ <-. simpl. now rewrite <- app_assoc.
  - exact (IH _ _ _ _ H).
Qed.

(** X17.  A declaration of several variables from one value needs a value
    of tuple type with as many components as there are declarations.  It
    enters the declared variables in the table of local variables in the
    order of the declarations, the last one first in the table, and enters
    nothing for a hole. *)
Theorem tuple_declaration_table declarations e st u st' :
  1 < List.length declarations ->
  acceptStatement (VariableDeclarationStatement declarations (Some e)) st =
    OK (u, st') ->
  (exists components,
      tupleComponents (type_of e) = Some components /\
      List.length components = List.length declarations) /\
  m_localVariables st' =
    (rev (declaredEntries declarations) ++ m_localVariables st)%list.
Proof.
  intros Hn H. simpl in H. run_inv H as [] s1 He.
  unfold endVisit_VariableDeclarationStatement in H.
  apply Nat.ltb_lt in Hn. rewrite Hn in H.
  destruct (tupleComponents (type_of e)) as [components|]; [|discriminate].
  checks_inv H. apply Nat.eqb_eq in Ha. split.
  - exists components. split; [reflexivity | now symmetry].
  - rewrite (defineTupleDeclarations_localVariables _ _ _ _ _ H).
    now rewrite (accept_localVariables _ _ He).
Qed.

(** X18.  A tuple lvalue cannot be read: reading it is an internal compiler
    error, so a compound assignment whose target is a tuple of several
    components never lowers. *)
Theorem tuple_lvalue_cannot_be_read :
  (forall ty components st,
      readFromLValue (IRLValue.mk ty (IRLValue.Tuple components)) st =
      Err (InternalCompilerError "Attempted to read from tuple lvalue.")) /\
  (forall a ta components op rhs st u st',
      lValueRequested ta = true ->
      List.length components <> 1 ->
      op <> Token.Assign ->
      accept (Assignment a (TupleExpression ta components false) op rhs) st
      <> OK (u, st')).
Proof.
  split; [reflexivity|].
  intros a ta components op rhs st u st' Hreq Hlen Hop H.
  destruct (visit_Assignment_run _ _ _ _ _ H)
    as (value & lvalue & st1 & st2 & st3 & st4 & st5 & st6 &
        _ & _ & Hl & Hlv & Hx & _).
  simpl in Hl. unfold visit_TupleExpression in Hl. rewrite Hreq in Hl.
  run_inv Hl as [] s0 H0.
  apply Nat.eqb_neq in Hlen. rewrite Hlen in Hl.
  run_inv Hl as lvalues s1 Hc.
  apply putLValue_OK in Hl as (_ & Hput & _).
  rewrite Hput in Hlv. injection Hlv as <-.
  unfold compoundUpdate in Hx.
  assert (Token.eqb op Token.Assign = false) as E.
  { destruct (Token.eqb op Token.Assign) eqn:E; [|reflexivity].
    apply Token.eqb_eq in E. contradiction. }
  rewrite E in Hx. simpl in Hx. checks_inv Hx.
  run_inv Hx as leftIntermediate s2 Hr. discriminate Hr.
Qed.

(** ** Named arguments *)

Lemma namedArguments_pure args names ps st l st' :
  namedArguments args names ps st = OK (l, st') -> st' = st.
Proof.
  revert st l st'.
  apply (Inv_namedArguments (keeps (fun a b : State => b = a))); intros.
  - now apply keeps_ret.
  - apply keeps_fail.
  - apply keeps_bind; try assumption. intros x y z -> ->. reflexivity.
Qed.

(** X19.  The arguments of a call with named arguments are put in the order
    of the parameters of the function: the argument for a parameter is the
    one at the position where the name of the parameter first occurs among
    the names of the call.  The state is left as it is. *)
Theorem named_arguments_follow_parameters args names ps st l st' :
  namedArguments args names ps st = OK (l, st') ->
  st' = st /\
  List.length l = List.length ps /\
  forall i parameterName,
    nth_error ps i = Some parameterName ->
    exists position,
      findName parameterName names = Some position /\
      nth_error names position = Some parameterName /\
      nth_error l i = nth_error args position /\
      nth_error l i <> None.
Proof.
  intros H. split; [eapply namedArguments_pure; eassumption|].
  revert st l st' H. induction ps as [|p ps IH]; intros st l st' H.
  - simpl in H. apply ret_OK in H as [-> _].
    split; [reflexivity|]. intros [|i] parameterName E; discriminate E.
  - simpl in H. destruct (findName p names) as [distance|] eqn:Ef.
    + run_inv H as argument s1 Ha. run_inv H as others s2 Ho.
      apply ret_OK in H as [-> _].
      destruct (IH _ _ _ Ho) as [Hlen Hnth].
      split; [simpl; now rewrite Hlen|].
      intros [|i] parameterName E.
      * injection E as <-. exists distance. split; [exact Ef|].
        unfold at_ in Ha.
        destruct (nth_error args distance) as [x|] eqn:Ex; [|discriminate].
        apply ret_OK in Ha as [-> _]. simpl.
        split; [|split; [reflexivity | discriminate]].
        clear - Ef. revert distance Ef.
        induction names as [|n names IHn]; intros distance Ef;
          [discriminate|].
        simpl in Ef. destruct (String.eqb n p) eqn:En.
        -- injection Ef as <-. apply String.eqb_eq in En. now subst.
        -- destruct (findName p names) as [k|]; [|discriminate].
           injection Ef as <-. simpl. now apply IHn.
      * exact (Hnth i parameterName E).
    + run_inv H as [] s1 Ha. discriminate Ha.
Qed.

(** X20.  When the texts of the interfaces are balanced, the code emitted
    for a statement is balanced: every block it opens it closes, and it
    closes no block that was open before. *)
Theorem statement_code_is_balanced s st out u st' :
  BalancedInterfaces ->
  checked (m_currentLValue st) ->
  lowers (acceptStatement s) st out u st' ->
  balanced out /\ checked (m_currentLValue st').
Proof.
  intros BI Hst H.
  destruct (emitsLevel_lowers (emitsLevel_acceptStatement s) Hst H)
    as (K & _ & B).
  split; assumption.
Qed.

(** ** Arithmetic and conversions *)

(** The checked function of an arithmetic operator on integers. *)
Definition checkedFunction (op : Token.t) (t : SolType) : option string :=
  match op with
  | Token.Add => Some (m_utils (overflowCheckedIntAddFunction t))
  | Token.Sub => Some (m_utils (overflowCheckedIntSubFunction t))
  | Token.Mul => Some (m_utils (overflowCheckedIntMulFunction t))
  | Token.Div => Some (m_utils (overflowCheckedIntDivFunction t))
  | Token.Mod => Some (m_utils (checkedIntModFunction t))
  | _ => None
  end.

(** X21.  A binary operator that is neither logical nor a comparison, on a
    common type that is not a rational number, lowers only for an integer
    type and only for [+], [-], [*], [/] and [%]: both operands are
    lowered, and the expression is defined as the call of the overflow
    checked function of the operator on the operands converted to the
    common type. *)
Theorem arithmetic_lowering a commonType l op r st u st' :
  Token.eqb op Token.And || Token.eqb op Token.Or = false ->
  Token.isCompareOp op = false ->
  category commonType <> Category.RationalNumber ->
  accept (BinaryOperation a (Some commonType) l op r) st = OK (u, st') ->
  isIntegerType commonType = true /\
  exists (function Lc Rc DP : string) (st1 st2 st3 : State),
    checkedFunction op commonType = Some function /\
    lowers (accept l) st Lc tt st1 /\
    lowers (accept r) st1 Rc tt st2 /\
    lowers (define (exprVar a)) st2 DP tt st3 /\
    m_code st' =
      m_code st ++ Lc ++ Rc ++ DP ++
      function ++ "(" ++ expressionAsType l commonType ++ ", " ++
      expressionAsType r commonType ++ ")" ++ LF ++ LF.
Proof.
  intros E1 Hop Hcat H. simpl in H. unfold visit_BinaryOperation in H.
  rewrite E1 in H.
  run_inv H as [] st1 Hl. run_inv H as [] st2 Hr.
  assert (Category.eqb (category commonType) Category.RationalNumber = false)
    as E2 by (destruct (category commonType); try reflexivity; congruence).
  rewrite E2, Hop in H. cbv zeta in H.
  run_inv H as [] st3 Hdp. run_inv H as operation st4 Hb.
  unfold binaryOperation in Hb.
  destruct (isIntegerType commonType); [|discriminate Hb].
  split; [reflexivity|]. cbv zeta in Hb. checks_inv Hb.
  apply ret_OK in Hb as [-> ->].
  destruct (appends_out (appends_accept l) Hl) as [Lc HL].
  destruct (appends_out (appends_accept r) Hr) as [Rc HR].
  destruct (appends_out (appends_define _) Hdp) as [DP HDP].
  assert (exists function,
             checkedFunction op commonType = Some function /\
             match op with
             | Token.Add => m_utils (overflowCheckedIntAddFunction commonType)
             | Token.Sub => m_utils (overflowCheckedIntSubFunction commonType)
             | Token.Mul => m_utils (overflowCheckedIntMulFunction commonType)
             | Token.Div => m_utils (overflowCheckedIntDivFunction commonType)
             | Token.Mod => m_utils (checkedIntModFunction commonType)
             | _ => ""
             end = function) as (function & Hfn & Hname).
  { destruct op; try discriminate Ha; eexists; split; reflexivity. }
  rewrite Hname in H. apply emit_OK in H as (Hcode & _).
  exists function, Lc, Rc, DP, st1, st2, st3.
  split; [exact Hfn|]. repeat (split; [split; assumption|]).
  rewrite Hcode, HDP, HR, HL. now rewrite !append_assoc.
Qed.

(** X22.  A conversion to the type that the value already has gives the
    value back and does nothing; any other conversion takes one fresh name
    and emits one line, the definition of the fresh value as the call of
    the conversion function from the type of the value to the target
    type. *)
Theorem conversion_lowering v t st :
  (type_eqb (m_type v) t = true -> convert v t st = OK (v, st)) /\
  (type_eqb (m_type v) t = false -> type_eqb t (m_type v) = false ->
   let converted :=
     {| m_baseName := yulVariableName (S (m_varCounter st)); m_type := t |} in
   convert v t st =
   OK (converted,
       {| m_code :=
            m_code st ++ "let " ++ commaSeparatedList converted ++ " := " ++
            m_utils (conversionFunction (m_type v) t) ++ "(" ++
            commaSeparatedList v ++ ")" ++ LF;
          m_currentLValue := m_currentLValue st;
          m_varCounter := S (m_varCounter st);
          m_localVariables := m_localVariables st |})).
Proof.
  unfold convert. split.
  - intros ->. reflexivity.
  - intros E1 E2. cbv zeta. rewrite E1.
    unfold bind, newYulVariable, defineAs, declareAssign. simpl.
    destruct t as [k items]. simpl in *. rewrite E2. reflexivity.
Qed.

(** ** Events *)

Lemma eventArguments_indexedArgs indexed args ps :
  forall i acc st r st',
    eventArguments indexed args ps i acc st = OK (r, st') ->
    List.length (indexedArgs r) =
    List.length (indexedArgs acc) + count_occ Bool.bool_dec indexed true.
Proof.
  induction indexed as [|isIndexed indexed IH]; intros i acc st r st' H;
    simpl in H.
  - apply ret_OK in H as [-> _]. simpl. now rewrite Nat.add_0_r.
  - run_inv H as arg s1 H1. run_inv H as paramType s2 H2.
    run_inv H as acc' s3 H3. rewrite (IH _ _ _ _ _ H).
    destruct isIndexed.
    + assert (E : List.length (indexedArgs acc') =
                  S (List.length (indexedArgs acc))).
      { destruct (isReferenceType paramType).
        - run_inv H3 as fresh s4 H4. run_inv H3 as u1 s5 H5.
          run_inv H3 as u2 s6 H6. apply ret_OK in H3 as [-> _]. simpl.
          rewrite length_app. simpl. lia.
        - run_inv H3 as converted s4 H4. apply ret_OK in H3 as [-> _].
          simpl. rewrite length_app. simpl. lia. }
      rewrite E. simpl. lia.
    + apply ret_OK in H3 as [-> _]. simpl.
      destruct (Bool.bool_dec false true); [discriminate|]. reflexivity.
Qed.

(** The event template, filled. *)
Lemma render_eventTemplate (pos end_ fmp encode nia log ia : string) :
  Whiskers.render eventTemplate
    (Whiskers.set
       (Whiskers.set
          (Whiskers.set
             (Whiskers.set
                (Whiskers.set
                   (Whiskers.set (Whiskers.set Whiskers.empty "pos" pos)
                      "end" end_)
                   "freeMemoryPointer" fmp)
                "encode" encode)
             "nonIndexedArgs" nia)
          "log" log)
       "indexedArgs" ia) =
  Some (("{" ++ LF ++ TAB ++ TAB ++ TAB ++ "let ") ++ pos ++ " := mload(" ++
        fmp ++ (")" ++ LF ++ TAB ++ TAB ++ TAB ++ "let ") ++ end_ ++ " := " ++
        encode ++ "(" ++ pos ++ " " ++ nia ++
        (")" ++ LF ++ TAB ++ TAB ++ TAB) ++ log ++ "(" ++ pos ++ ", sub(" ++
        end_ ++ ", " ++ pos ++ ") " ++ ia ++
        (")" ++ LF ++ TAB ++ TAB ++ "}")).
Proof. reflexivity. Qed.

(** X23.  An event is emitted with at most four topics: the hash of the
    signature unless the event is anonymous, and one topic for every
    indexed parameter.  With more, lowering fails; when it returns, the
    appended text calls the log instruction named by the number of
    topics. *)
Theorem event_topics a e args functionType event st u st' :
  asFunctionType (type_of e) = Some functionType ->
  kind functionType = Kind.Event ->
  declaration functionType = Some event ->
  endVisit_FunctionCall a FunctionCallKind.FunctionCall e args [] st =
    OK (u, st') ->
  let topics :=
    (if isAnonymous event then 0 else 1) +
    count_occ Bool.bool_dec (parametersIndexed event) true in
  topics <= 4 /\
  exists before after : string,
    m_code st' =
    m_code st ++ before ++ "log" ++ to_string topics ++ "(" ++ after.
Proof.
  intros Hf Hk Hd H topics.
  unfold endVisit_FunctionCall in H. rewrite Hf in H.
  checks_inv H. cbv zeta in H.
  run_inv H as u0 s0 H0.
  assert (m_code s0 = m_code st) as E0.
  { destruct (negb _) in H0.
    - now apply solAssert_OK in H0 as [_ ->].
    - now apply ret_OK in H0 as [_ ->]. }
  run_inv H as arguments s1 H1. apply ret_OK in H1 as [-> ->].
  checks_inv H. rewrite Hk, Hd in H.
  run_inv H as initial s2 H2. run_inv H as collected s3 H3.
  checks_inv H.
  run_inv H as pos s4 H4. run_inv H as end_ s5 H5.
  run_inv H as text s6 H6.
  destruct (appends_eventArguments _ _ _ _ _ _ H3) as [C3 E3].
  apply eventArguments_indexedArgs in H3. simpl in H3.
  assert (Hi : List.length initial = (if isAnonymous event then 0 else 1) /\
               exists C2, m_code s2 = m_code s0 ++ C2).
  { destruct (isAnonymous event); simpl in H2.
    - apply ret_OK in H2 as [-> ->]. split; [reflexivity|].
      exists "". now rewrite append_nil_r.
    - run_inv H2 as fresh t1 G1. run_inv H2 as u1 t2 G2.
      run_inv H2 as u2 t3 G3. apply ret_OK in H2 as [-> ->].
      split; [reflexivity|].
      apply appends_newYulVariable in G1 as [c1 e1].
      apply appends_define in G2 as [c2 e2].
      apply appends_emit in G3 as [c3 e3].
      exists (c1 ++ c2 ++ c3). rewrite e3, e2, e1.
      now rewrite !append_assoc. }
  destruct Hi as (Hi & C2 & E2).
  assert (Ht : List.length (indexedArgs collected) = topics).
  { unfold topics. rewrite H3, Hi. reflexivity. }
  split.
  - rewrite <- Ht. now apply Nat.leb_le.
  - apply appends_newYulVariable in H4 as [c4 e4].
    apply appends_newYulVariable in H5 as [c5 e5].
    unfold renderTemplate in H6. rewrite render_eventTemplate in H6.
    apply ret_OK in H6 as [E6 ->].
    apply emit_OK in H as (-> & _). subst text.
    rewrite e5, e4, E3, E2, E0, Ht.
    exists (C2 ++ C3 ++ c4 ++ c5 ++
            ("{" ++ LF ++ TAB ++ TAB ++ TAB ++ "let ") ++ pos ++
            " := mload(" ++ to_string freeMemoryPointer ++
            (")" ++ LF ++ TAB ++ TAB ++ TAB ++ "let ") ++ end_ ++ " := " ++
            abi (tupleEncoder (nonIndexedArgTypes collected)
                   (nonIndexedParamTypes collected) false) ++
            "(" ++ pos ++ " " ++ nonIndexedArgs collected ++
            (")" ++ LF ++ TAB ++ TAB ++ TAB)).
    exists (pos ++ ", sub(" ++ end_ ++ ", " ++ pos ++ ") " ++
            joinHumanReadablePrefixed
              (List.map commaSeparatedList (indexedArgs collected)) ++
            (")" ++ LF ++ TAB ++ TAB ++ "}")).
    now rewrite !append_assoc.
Qed.

End Frames.

(** ** Identifiers of inline assembly *)

Section AssemblyIdentifiers.

Context {FM : Formatting} {VO : IRVariableOps} {CX : IRGenerationContext}.

Variable this : CopyTranslate.

(** X24.  An identifier of an inline assembly block that refers to the
    storage slot, or to the offset, of a variable is copied as the number
    that the context assigns: the slot, or the offset, whatever the state
    is and whether or not the variable is in the table of local variables;
    the state is left as it is.  A reference marked as both is an internal
    compiler error. *)
Theorem assembly_storage_reference identifier reference varDecl st :
  m_references this (Yul.node identifier) = Some reference ->
  ExternalIdentifierInfo.declaration reference = VariableDecl varDecl ->
  ExternalIdentifierInfo.isSlot reference = true \/
  ExternalIdentifierInfo.isOffset reference = true ->
  copyIdentifier this identifier st =
  if ExternalIdentifierInfo.isSlot reference &&
     ExternalIdentifierInfo.isOffset reference
  then Err (InternalCompilerError "")
  else
    OK (Yul.NumberLiteral
          (if ExternalIdentifierInfo.isSlot reference
           then to_stringN (fst (storageLocationOfVariable varDecl))
           else to_string (snd (storageLocationOfVariable varDecl))),
        st).
Proof.
  intros Hr Hd Hs. unfold copyIdentifier. rewrite Hr, Hd.
  destruct (ExternalIdentifierInfo.isSlot reference),
    (ExternalIdentifierInfo.isOffset reference);
    try reflexivity.
  destruct Hs; discriminate.
Qed.

(** X25.  The names of the identifiers that refer to nothing outside the
    block: a builtin of the dialect keeps its name and any other name gets
    the prefix [usr$].  Two names that are not builtins stay different; and
    when no builtin starts with the prefix, a name that is not a builtin is
    never renamed to a builtin nor to the translation of one. *)
Theorem assembly_names_do_not_collide :
  (forall n, m_dialect this ("usr$" ++ n) = false) ->
  (forall n, m_dialect this n = true -> translateIdentifier this n = n) /\
  (forall n, m_dialect this n = false ->
             translateIdentifier this n = "usr$" ++ n) /\
  (forall n1 n2,
      m_dialect this n1 = false -> m_dialect this n2 = false ->
      translateIdentifier this n1 = translateIdentifier this n2 -> n1 = n2) /\
  (forall n1 n2,
      m_dialect this n1 = false -> m_dialect this n2 = true ->
      translateIdentifier this n1 <> n2 /\
      translateIdentifier this n1 <> translateIdentifier this n2).
Proof.
  intros Hprefix. unfold translateIdentifier.
  split; [|split; [|split]].
  - intros n ->. reflexivity.
  - intros n ->. reflexivity.
  - intros n1 n2 -> -> E. exact (append_inv_head _ _ _ E).
  - intros n1 n2 E1 E2. rewrite E1, E2.
    assert (Hne : "usr$" ++ n1 <> n2).
    { intros E. rewrite <- E, Hprefix in E2. discriminate. }
    split; exact Hne.
Qed.

(** X26.  The translation of an identifier of an inline assembly block that
    refers to a declaration outside the block: for a variable it is the
    name of the handle of the variable in the table of local variables; a
    reference to the slot or the offset of the variable, or to a variable
    that is not in the table, is an internal compiler error, and a
    reference to a declaration that is not a variable is not
    implemented. *)
Theorem assembly_variable_reference identifier reference st :
  m_references this (Yul.node identifier) = Some reference ->
  translate this identifier st =
  match ExternalIdentifierInfo.declaration reference with
  | VariableDecl varDecl =>
      if ExternalIdentifierInfo.isOffset reference ||
         ExternalIdentifierInfo.isSlot reference
      then Err (InternalCompilerError "Should not be called for offset/slot")
      else
        match lookupLocal (declId varDecl) (m_localVariables st) with
        | Some variable => OK (name variable, st)
        | None => Err (InternalCompilerError "Unknown variable.")
        end
  | _ => Err (UnimplementedFeatureError "")
  end.
Proof.
  intros Hr. unfold translate. rewrite Hr.
  destruct (ExternalIdentifierInfo.declaration reference);
    try reflexivity.
  destruct (ExternalIdentifierInfo.isOffset reference),
    (ExternalIdentifierInfo.isSlot reference); try reflexivity.
  simpl. unfold bind, localVariable. simpl.
  now destruct (lookupLocal (declId varDecl) (m_localVariables st)).
Qed.

End AssemblyIdentifiers.

(** * The theorems at work on the concrete configuration *)

Import Demo.

(** ** The concrete configuration supplies balanced texts *)

(** A text without braces. *)
Fixpoint braceFree (s : string) : bool :=
  match s with
  | EmptyString => true
  | String c s' => negb (isOpenBrace c) && negb (isCloseBrace c) && braceFree s'
  end.

Lemma braceFree_balanced s : braceFree s = true -> balanced s.
Proof.
  induction s as [|c s IH]; simpl; intros H d; [reflexivity|].
  apply andb_prop in H as [H Hs]. apply andb_prop in H as [Ho Hc].
  apply level_cons_plain;
    [now destruct (isOpenBrace c) | now destruct (isCloseBrace c) |].
  now apply IH.
Qed.

Lemma braceFree_app a b :
  braceFree a = true -> braceFree b = true -> braceFree (a ++ b) = true.
Proof.
  induction a as [|c a IH]; simpl; intros Ha Hb; [exact Hb|].
  apply andb_prop in Ha as [-> Ha]. now apply IH.
Qed.

Lemma identifier_braceFree s : braceFree (identifier s) = true.
Proof.
  induction s as [|c s IH]; simpl; [reflexivity|]. rewrite IH.
  destruct c as [[] [] [] [] [] [] [] []]; reflexivity.
Qed.

Lemma decimal_uint_braceFree u :
  braceFree (DecimalString.NilEmpty.string_of_uint u) = true.
Proof. induction u; simpl; auto. Qed.

Lemma decimal_braceFree n : braceFree (decimal n) = true.
Proof.
  unfold decimal, DecimalString.NilZero.string_of_uint.
  destruct (Nat.to_uint n); try reflexivity; apply decimal_uint_braceFree.
Qed.

Lemma decimalN_braceFree n : braceFree (decimalN n) = true.
Proof.
  unfold decimalN, DecimalString.NilZero.string_of_uint.
  destruct (N.to_uint n); try reflexivity; apply decimal_uint_braceFree.
Qed.

Lemma hexadecimal_uint_braceFree u :
  braceFree (HexadecimalString.NilEmpty.string_of_uint u) = true.
Proof. induction u; simpl; auto. Qed.

Lemma hexN_braceFree n : braceFree (hexN n) = true.
Proof.
  unfold hexN, HexadecimalString.NilZero.string_of_uint.
  destruct (N.to_hex_uint n); try reflexivity;
    apply hexadecimal_uint_braceFree.
Qed.

Lemma joinWith_balanced separator l :
  balanced separator -> Forall balanced l -> balanced (joinWith separator l).
Proof.
  intros Hs. unfold joinWith. induction 1 as [|x l Hx Hl IH]; simpl.
  - apply balanced_nil.
  - destruct l as [|y l]; [exact Hx|].
    apply balanced_app; [exact Hx|]. apply balanced_app; [exact Hs|exact IH].
Qed.

Lemma stackSlots_balanced t : forall base, Forall balanced (stackSlots t base).
Proof.
  induction t as [k items IH] using SolType_items_ind. intros base. simpl.
  induction items as [|[n [t|]] items IHitems]; simpl.
  - constructor.
  - apply Forall_app. split.
    + apply (IH n t). now left.
    + apply IHitems. intros n' t' H. apply (IH n' t'). now right.
  - constructor.
    + apply braceFree_balanced, identifier_braceFree.
    + apply IHitems. intros n' t' H. apply (IH n' t'). now right.
Qed.

#[export] Hint Extern 1 (level (decimal _) _ _) =>
  apply braceFree_balanced, decimal_braceFree : bal.
#[export] Hint Extern 1 (level (decimalN _) _ _) =>
  apply braceFree_balanced, decimalN_braceFree : bal.

#[export] Instance balancedInterfaces_Demo : BalancedInterfaces.
Proof.
  split.
  - intros n. apply braceFree_balanced, decimal_braceFree.
  - intros n. apply braceFree_balanced, decimalN_braceFree.
  - intros n. apply braceFree_balanced, decimalN_braceFree.
  - intros n. apply braceFree_balanced, hexN_braceFree.
  - intros l Hl. apply joinWith_balanced; [intro; reflexivity | exact Hl].
  - intros [|x l] Hl; [apply balanced_nil|].
    apply (balanced_app (a := ", ")); [intro; reflexivity|].
    apply joinWith_balanced; [intro; reflexivity | exact Hl].
  - intros v. apply braceFree_balanced, identifier_braceFree.
  - intros v. apply joinWith_balanced; [intro; reflexivity|].
    apply stackSlots_balanced.
  - intros v. apply (joinWith_balanced (separator := ""));
      [apply balanced_nil|].
    apply Forall_map.
    eapply Forall_impl; [|apply stackSlots_balanced].
    intros x Hx. apply (balanced_app (a := ", ")); [intro; reflexivity|].
    exact Hx.
  - intros f d. destruct f; cbn [m_utils yulUtilFunctions]; level_tac.
  - intros f d. destruct f; cbn [abi abiFunctions]; level_tac.
  - intros n d. cbn [yulVariableName context]. level_tac.
  - intros n d. cbn [virtualFunctionName context]. level_tac.
  - intros i o d. cbn [internalDispatch context]. level_tac.
  - intros n text E. injection E as <-. intro; reflexivity.
Qed.

Example compoundAssignment_code :
  accept compoundAssignment withLocals =
  OK (tt,
      {| m_code :=
           "let _1 := read_from_storage_offset_0(0x2)" ++ LF ++
           "let expr_12 := _1" ++ LF ++
           "let _2 := vloc_1" ++ LF ++
           "expr_12 := checked_add(_2, expr_12)" ++ LF ++
           "vloc_1 := expr_12" ++ LF ++
           "let expr_10 := expr_12" ++ LF;
         m_currentLValue := None;
         m_varCounter := 2;
         m_localVariables := m_localVariables withLocals |}).
Proof. vm_compute. reflexivity. Qed.

Example prefixIncrement_code :
  accept prefixIncrement withLocals =
  OK (tt,
      {| m_code :=
           "let _2 := read_from_storage_offset_0(0x2)" ++ LF ++
           "let _1 := increment(_2)" ++ LF ++
           "update_storage_value_offset_0(0x2, _1)" ++ LF ++
           "let expr_20 := _1" ++ LF;
         m_currentLValue := None;
         m_varCounter := 2;
         m_localVariables := m_localVariables withLocals |}).
Proof. vm_compute. reflexivity. Qed.

Example postfixDecrement_code :
  accept postfixDecrement withLocals =
  OK (tt,
      {| m_code :=
           "let _2 := read_from_storage_offset_0(0x2)" ++ LF ++
           "let _1 := decrement(_2)" ++ LF ++
           "update_storage_value_offset_0(0x2, _1)" ++ LF ++
           "let expr_20 := _2" ++ LF;
         m_currentLValue := None;
         m_varCounter := 2;
         m_localVariables := m_localVariables withLocals |}).
Proof. vm_compute. reflexivity. Qed.

Example disjunction_code :
  accept disjunction withLocals =
  OK (tt,
      {| m_code :=
           "let _1 := vloc_3" ++ LF ++
           "let expr_31 := _1" ++ LF ++
           "let expr_30 := expr_31" ++ LF ++
           "if iszero(expr_30) {" ++ LF ++
           "let _2 := vloc_3" ++ LF ++
           "let expr_32 := _2" ++ LF ++
           "expr_30 := expr_32" ++ LF ++
           "}" ++ LF;
         m_currentLValue := None;
         m_varCounter := 2;
         m_localVariables := m_localVariables withLocals |}).
Proof. vm_compute. reflexivity. Qed.

Example doWhile_code :
  acceptStatement doWhile withLocals =
  OK (tt,
      {| m_code :=
           "let _1 := 1" ++ LF ++
           "for {" ++ LF ++
           "} 1 {" ++ LF ++
           "}" ++ LF ++
           "{" ++ LF ++
           "if iszero(_1) {" ++ LF ++
           "let _2 := vloc_3" ++ LF ++
           "let expr_40 := _2" ++ LF ++
           "if iszero(expr_40) { break }" ++ LF ++
           "}" ++ LF ++
           "_1 := 0" ++ LF ++
           "let _3 := vloc_1" ++ LF ++
           "let expr_41 := _3" ++ LF ++
           "}" ++ LF;
         m_currentLValue := None;
         m_varCounter := 3;
         m_localVariables := m_localVariables withLocals |}).
Proof. vm_compute. reflexivity. Qed.

Example tupleTarget_lvalue :
  accept tupleTarget withLocals =
  OK (tt,
      {| m_code := "";
         m_currentLValue :=
           Some
             (IRLValue.mk (tupleT [Some uint256T; None; Some uint256T])
                (IRLValue.Tuple
                   [Some
                      (IRLValue.mk uint256T
                         (IRLValue.Stack
                            {| m_baseName := "vloc_1";
                               m_type := uint256T |}));
                    None;
                    Some
                      (IRLValue.mk uint256T
                         (IRLValue.Storage "0x2" (inr 0)))]));
         m_varCounter := 0;
         m_localVariables := m_localVariables withLocals |}).
Proof. vm_compute. reflexivity. Qed.

(** Writing [v] to that tuple lvalue: the storage slot of the last
    component is updated first, the hole is skipped, the local variable of
    the first component is assigned last. *)
Example tupleTarget_write :
  forall lvalue,
    m_currentLValue
      (match accept tupleTarget withLocals with
       | OK (_, st) => st
       | Err _ => start
       end) = Some lvalue ->
    match
      writeToLValue lvalue
        {| m_baseName := "v";
           m_type := tupleT [Some uint256T; Some boolT; Some uint256T] |}
        start
    with
    | OK (_, st) => m_code st
    | Err _ => ""
    end =
    "update_storage_value_offset_0(0x2, v_component_3)" ++ LF ++
    "vloc_1 := v_component_1" ++ LF.
Proof.
  intros lvalue H. vm_compute in H. injection H as <-.
  vm_compute. reflexivity.
Qed.

Lemma assignment_lowering_order_witness :
  exists st' : State,
    accept compoundAssignment withLocals = OK (tt, st') /\
    exists R C L X W D : string,
      m_code st' = m_code withLocals ++ R ++ C ++ L ++ X ++ W ++ D.
Proof.
  assert (H : exists st',
             accept compoundAssignment withLocals = OK (tt, st'))
    by (vm_compute; eexists; reflexivity).
  destruct H as [st' H]. exists st'. split; [exact H|].
  pose proof H as H'.
  apply assignment_lowering_order in H'
    as (R & C & L & X & W & D & value & lvalue & st1 & st2 & st3 & st4 &
        st5 & _ & _ & _ & _ & _ & _ & Hcode).
  exists R, C, L, X, W, D. exact Hcode.
Defined.

Lemma assignment_result_binding_witness :
  (exists st' : State,
      accept unitAssignment withLocals = OK (tt, st') /\
      exists (R C L X W : string) (value : IRVariable) (lvalue : IRLValue.t)
             (st4 st5 : State),
        lowers (writeToLValue lvalue value) st4 W tt st5 /\
        m_code st' = m_code withLocals ++ R ++ C ++ L ++ X ++ W) /\
  (exists st' : State,
      accept plainAssignment withLocals = OK (tt, st') /\
      exists (value : IRVariable) (st6 : State) (D : string),
        lowers (defineAs (exprVar (node 10 uint256T false)) value) st6 D tt
          st').
Proof.
  split.
  - assert (H : exists st', accept unitAssignment withLocals = OK (tt, st'))
      by (vm_compute; eexists; reflexivity).
    destruct H as [st' H]. exists st'. split; [exact H|].
    pose proof H as H'.
    apply assignment_result_binding in H'
      as (R & C & L & X & W & value & lvalue & st1 & st2 & st3 & st4 & st5 &
          st6 & _ & _ & _ & _ & _ & _ & Hw & _ & Hd).
    change (st' = st6 /\
            m_code st' = m_code withLocals ++ R ++ C ++ L ++ X ++ W) in Hd.
    exists R, C, L, X, W, value, lvalue, st4, st5.
    split; [exact Hw | exact (proj2 Hd)].
  - assert (H : exists st', accept plainAssignment withLocals = OK (tt, st'))
      by (vm_compute; eexists; reflexivity).
    destruct H as [st' H]. exists st'. split; [exact H|].
    pose proof H as H'.
    apply assignment_result_binding in H'
      as (R & C & L & X & W & value & lvalue & st1 & st2 & st3 & st4 & st5 &
          st6 & _ & _ & _ & _ & _ & _ & _ & _ & Hd).
    change (exists D : string,
               lowers (defineAs (exprVar (node 10 uint256T false)) value)
                 st6 D tt st' /\
               m_code st' =
                 m_code withLocals ++ R ++ C ++ L ++ X ++ W ++ D) in Hd.
    destruct Hd as (D & Hd & _). exists value, st6, D. exact Hd.
Defined.

Lemma increment_decrement_lowering_witness :
  exists st' : State,
    accept prefixIncrement withLocals = OK (tt, st') /\
    exists (modifiedName : string) (st5 : State) (D : string),
      lowers
        (defineAs (exprVar (node 20 uint256T false))
           {| m_baseName := modifiedName; m_type := uint256T |})
        st5 D tt st'.
Proof.
  assert (H : exists st', accept prefixIncrement withLocals = OK (tt, st'))
    by (vm_compute; eexists; reflexivity).
  destruct H as [st' H]. exists st'. split; [exact H|].
  pose proof H as H'.
  apply increment_decrement_lowering in H'
    as (Sc & RD & DP & W & D & modifiedName & lvalue & originalValue & st0 &
        st1 & st2 & st3 & st3' & st4 & st5 & _ & _ & _ & _ & _ & _ & _ & _ &
        Hd & _);
    [|left; reflexivity|reflexivity].
  exists modifiedName, st5, D. exact Hd.
Defined.

Lemma comparison_lowering_witness :
  exists st' : State,
    accept signedLessOrEqual withLocals = OK (tt, st') /\
    exists Lc Rc DP : string,
      m_code st' =
        m_code withLocals ++ Lc ++ Rc ++ DP ++
        "iszero(sgt(convert(expr_31), convert(expr_32)))" ++ LF.
Proof.
  assert (H : exists st', accept signedLessOrEqual withLocals = OK (tt, st'))
    by (vm_compute; eexists; reflexivity).
  destruct H as [st' H]. exists st'. split; [exact H|].
  assert (Hcat : category int256T <> Category.RationalNumber)
    by (vm_compute; discriminate).
  pose proof H as H'.
  apply comparison_lowering in H'
    as (Lc & Rc & DP & st1 & st2 & st3 & _ & _ & _ & _ & Hcode);
    [|reflexivity|exact Hcat].
  exists Lc, Rc, DP. exact Hcode.
Defined.

Lemma short_circuit_lowering_witness :
  exists st' : State,
    accept conjunction withLocals = OK (tt, st') /\
    exists Lc D Rc A : string,
      m_code st' =
        m_code withLocals ++ Lc ++ D ++ "if " ++ "expr_30" ++ " {" ++ LF ++
        Rc ++ A ++ "}" ++ LF /\
      balanced (Lc ++ D) /\
      forall rest,
        blockBody (LF ++ Rc ++ A ++ "}" ++ LF ++ rest) 0 =
        Some (LF ++ Rc ++ A, LF ++ rest).
Proof.
  assert (H : exists st', accept conjunction withLocals = OK (tt, st'))
    by (vm_compute; eexists; reflexivity).
  destruct H as [st' H]. exists st'. split; [exact H|].
  pose proof H as H'.
  apply short_circuit_lowering in H'
    as (Lc & D & Rc & A & st1 & st2 & st2' & st3 & st4 & _ & _ & _ & _ & _ &
        Hcode & Hblock);
    [|left; reflexivity].
  exists Lc, D, Rc, A. split; [exact Hcode|].
  destruct (Hblock balancedInterfaces_Demo I) as (Hbefore & _ & Hbody).
  split; [exact Hbefore | exact Hbody].
Defined.

Lemma forwarded_gas_witness :
  exists (templ : Whiskers.t) (st' : State),
    appendExternalFunctionCall (node 70 uint256T false) externalCallee
      [readX 72] withLocals = OK (templ, st') /\
    Whiskers.lookup "gas" (Whiskers.parameters templ) =
      Some "sub(gas(), 9050)".
Proof.
  assert (H : exists templ st',
             appendExternalFunctionCall (node 70 uint256T false)
               externalCallee [readX 72] withLocals = OK (templ, st'))
    by (vm_compute; do 2 eexists; reflexivity).
  destruct H as (templ & st' & H). exists templ, st'. split; [exact H|].
  apply forwarded_gas with (funType := externalCallType) in H;
    [|reflexivity].
  exact (proj1 H).
Defined.

Lemma bare_call_unimplemented_witness :
  appendExternalFunctionCall (node 50 uint256T false) bareCallee [readX 53]
    withAddress = Err (UnimplementedFeatureError "") /\
  (forall u st', accept bareCall withAddress <> OK (u, st')).
Proof.
  destruct (bare_call_unimplemented (node 50 uint256T false) bareCallee
              [readX 53] withAddress (funType := bareCallType) eq_refl
              (or_introl eq_refl))
    as (Herror & Haccept & Hwell & _).
  split.
  - rewrite Herror, Hwell.
    + reflexivity.
    + left. reflexivity.
    + intros E. discriminate E.
    + reflexivity.
  - intros u st'. apply Haccept.
Defined.

(** C3, as stated, fails: lowering the bare call [a.call(x)] stops with an
    unimplemented-feature error whose description is the empty string, so
    no diagnostic describes the construct. *)
Lemma bare_call_diagnostic_is_empty :
  accept bareCall withAddress = Err (UnimplementedFeatureError "") /\
  ~ (exists description : string,
        accept bareCall withAddress =
          Err (UnimplementedFeatureError description) /\
        description <> "").
Proof.
  assert (H : accept bareCall withAddress =
              Err (UnimplementedFeatureError ""))
    by (vm_compute; reflexivity).
  split; [exact H|].
  intros (description & Hd & Hne). rewrite H in Hd.
  injection Hd as Hd. apply Hne. symmetry. exact Hd.
Qed.

(** ** The further properties on the concrete configuration *)

Lemma fresh_name_counter_never_decreases_witness :
  exists st' : State,
    acceptStatement doWhile withLocals = OK (tt, st') /\
    m_varCounter withLocals <= m_varCounter st'.
Proof.
  assert (H : exists st', acceptStatement doWhile withLocals = OK (tt, st'))
    by (vm_compute; eexists; reflexivity).
  destruct H as [st' H]. exists st'. split; [exact H|].
  exact (fresh_name_counter_never_decreases _ _ H).
Defined.

Lemma expressions_keep_local_variables_witness :
  exists st' : State,
    accept compoundAssignment withLocals = OK (tt, st') /\
    m_localVariables st' = m_localVariables withLocals.
Proof.
  assert (H : exists st',
             accept compoundAssignment withLocals = OK (tt, st'))
    by (vm_compute; eexists; reflexivity).
  destruct H as [st' H]. exists st'. split; [exact H|].
  exact (expressions_keep_local_variables _ _ H).
Defined.

Lemma declared_variables_persist_witness :
  exists st' : State,
    acceptStatement declareY withLocals = OK (tt, st') /\
    lookupLocal 1 (m_localVariables st') =
      Some {| m_baseName := "vloc_1"; m_type := uint256T |}.
Proof.
  assert (H : exists st', acceptStatement declareY withLocals = OK (tt, st'))
    by (vm_compute; eexists; reflexivity).
  destruct H as [st' H]. exists st'. split; [exact H|].
  eapply declared_variables_persist; [exact H | reflexivity].
Defined.

Lemma parenthesised_lvalue_witness :
  exists st' : State,
    accept parenthesised withLocals = OK (tt, st') /\
    accept (writeX 91) withLocals = OK (tt, st') /\
    exists lvalue, m_currentLValue st' = Some lvalue.
Proof.
  assert (H : exists st', accept parenthesised withLocals = OK (tt, st'))
    by (vm_compute; eexists; reflexivity).
  destruct H as [st' H]. exists st'. split; [exact H|].
  pose proof H as H'.
  apply parenthesised_lvalue in H' as (_ & Hc & Hl); [|reflexivity].
  split; [exact Hc | exact Hl].
Defined.

Lemma identifier_resolution_witness :
  accept (writeX 11) withLocals =
  OK (tt,
      withLValue withLocals
        (IRLValue.mk uint256T
           (IRLValue.Stack
              {| m_baseName := "vloc_1"; m_type := uint256T |}))) /\
  accept (writeS 11) withLocals =
  OK (tt,
      withLValue withLocals
        (IRLValue.mk uint256T (IRLValue.Storage "0x2" (inr 0)))).
Proof.
  split.
  - exact (identifier_resolution (node 11 uint256T true) xDecl "x"
             withLocals eq_refl eq_refl eq_refl eq_refl).
  - exact (identifier_resolution (node 11 uint256T true) sDecl "s"
             withLocals eq_refl eq_refl eq_refl eq_refl).
Defined.

Lemma declaration_then_lookup_witness :
  exists st' : State,
    acceptStatement declareY withLocals = OK (tt, st') /\
    localVariable yDecl st' = OK (IRVariable_decl yDecl, st').
Proof.
  assert (H : exists st', acceptStatement declareY withLocals = OK (tt, st'))
    by (vm_compute; eexists; reflexivity).
  destruct H as [st' H]. exists st'. split; [exact H|].
  pose proof H as H'.
  apply declaration_then_lookup in H' as (Hl & _). exact Hl.
Defined.

Lemma conditional_lowering_witness :
  exists st' : State,
    accept conditional withLocals = OK (tt, st') /\
    exists Cc DC Fc Fa Tc Ta : string,
      m_code st' =
        m_code withLocals ++ Cc ++ DC ++
        "switch " ++ "expr_81" ++ LF ++
        "case 0 {" ++ LF ++ Fc ++ Fa ++ "}" ++ LF ++
        "default {" ++ LF ++ Tc ++ Ta ++ "}" ++ LF /\
      forall rest,
        blockBody (LF ++ Fc ++ Fa ++ "}" ++ rest) 0 =
          Some (LF ++ Fc ++ Fa, rest).
Proof.
  assert (H : exists st', accept conditional withLocals = OK (tt, st'))
    by (vm_compute; eexists; reflexivity).
  destruct H as [st' H]. exists st'. split; [exact H|].
  pose proof H as H'.
  apply conditional_lowering in H'
    as (Cc & DC & Fc & Fa & Tc & Ta & st1 & st2 & sf & sf1 & sf2 & stt &
        stt1 & stt2 & _ & _ & _ & _ & _ & _ & Hcode & Hblock).
  exists Cc, DC, Fc, Fa, Tc, Ta. split; [exact Hcode|].
  intros rest. exact (proj1 (Hblock balancedInterfaces_Demo I rest)).
Defined.

Lemma if_statement_lowering_witness :
  exists st' : State,
    acceptStatement ifElse withLocals = OK (tt, st') /\
    exists Cc Tc Fc : string,
      m_code st' =
        m_code withLocals ++ Cc ++
        "switch " ++ "expr_84" ++ LF ++
        "case 0 {" ++ LF ++ Fc ++ "}" ++ LF ++
        "default {" ++ LF ++ Tc ++ "}" ++ LF.
Proof.
  assert (H : exists st', acceptStatement ifElse withLocals = OK (tt, st'))
    by (vm_compute; eexists; reflexivity).
  destruct H as [st' H]. exists st'. split; [exact H|].
  pose proof H as H'.
  apply if_statement_lowering in H'
    as (Cc & Tc & st1 & stt & stt1 & _ & _ & Fc & sf & sf1 & _ & Hcode).
  exists Cc, Tc, Fc. exact Hcode.
Defined.

Lemma for_without_condition_witness :
  exists st' : State,
    acceptStatement forever withLocals = OK (tt, st') /\
    exists I P Bc : string,
      m_code st' =
        m_code withLocals ++ "for {" ++ LF ++ I ++ "} 1 {" ++ LF ++ P ++
        "}" ++ LF ++ "{" ++ LF ++ Bc ++ "}" ++ LF.
Proof.
  assert (H : exists st', acceptStatement forever withLocals = OK (tt, st'))
    by (vm_compute; eexists; reflexivity).
  destruct H as [st' H]. exists st'. split; [exact H|].
  pose proof H as H'.
  apply for_without_condition in H'
    as (I & P & Bc & s1 & s2 & s3 & s4 & sb & sb' & _ & _ & _ & Hcode).
  exists I, P, Bc. exact Hcode.
Defined.

Lemma return_lowering_witness :
  exists st' : State,
    acceptStatement returnS withLocals = OK (tt, st') /\
    exists before : string,
      m_code st' = m_code withLocals ++ before ++ "leave" ++ LF.
Proof.
  assert (H : exists st', acceptStatement returnS withLocals = OK (tt, st'))
    by (vm_compute; eexists; reflexivity).
  destruct H as [st' H]. exists st'. split; [exact H|].
  pose proof H as H'.
  apply return_lowering in H' as (before & Hcode & _).
  exists before. exact Hcode.
Defined.

Lemma require_assert_arguments_witness :
  endVisit_FunctionCall (node 110 (tupleT []) false)
    FunctionCallKind.FunctionCall requireCallee [readB 112] [] withLocals =
  emit ("require_helper" ++ "(" ++ "expr_112" ++ ")" ++ LF) withLocals.
Proof.
  exact (require_assert_arguments (node 110 (tupleT []) false)
           requireCallee [readB 112] withLocals
           (functionType := requireType) eq_refl eq_refl
           (or_intror eq_refl) (or_introl eq_refl)).
Defined.

Lemma external_call_emits_no_call_witness :
  exists (templ : Whiskers.t) (st' : State),
    appendExternalFunctionCall (node 70 uint256T false) externalCallee
      [readX 72] withLocals = OK (templ, st') /\
    m_varCounter st' = 3 + m_varCounter withLocals.
Proof.
  assert (H : exists templ st',
             appendExternalFunctionCall (node 70 uint256T false)
               externalCallee [readX 72] withLocals = OK (templ, st'))
    by (vm_compute; do 2 eexists; reflexivity).
  destruct H as (templ & st' & H). exists templ, st'. split; [exact H|].
  pose proof H as H'.
  apply external_call_emits_no_call in H' as (_ & _ & Hv & _). exact Hv.
Defined.

Lemma tuple_declaration_table_witness :
  exists st' : State,
    acceptStatement declareYZ withLocals = OK (tt, st') /\
    m_localVariables st' =
      (rev (declaredEntries [Some yDecl; None; Some zDecl]) ++
       m_localVariables withLocals)%list.
Proof.
  assert (H : exists st', acceptStatement declareYZ withLocals = OK (tt, st'))
    by (vm_compute; eexists; reflexivity).
  destruct H as [st' H]. exists st'. split; [exact H|].
  pose proof H as H'.
  apply tuple_declaration_table in H' as (_ & Ht); [exact Ht|].
  simpl. lia.
Defined.

Lemma named_arguments_follow_parameters_witness :
  exists l : list Expression,
    namedArguments [readX 1; readS 2] ["b"; "a"] ["a"; "b"] start =
      OK (l, start) /\
    List.length l = 2.
Proof.
  assert (H : exists l,
             namedArguments [readX 1; readS 2] ["b"; "a"] ["a"; "b"] start =
               OK (l, start))
    by (vm_compute; eexists; reflexivity).
  destruct H as [l H]. exists l. split; [exact H|].
  pose proof H as H'.
  apply named_arguments_follow_parameters in H' as (_ & Hl & _). exact Hl.
Defined.

Lemma statement_code_is_balanced_witness :
  exists (out : string) (st' : State),
    lowers (acceptStatement doWhile) withLocals out tt st' /\ balanced out.
Proof.
  assert (H : exists out st',
             lowers (acceptStatement doWhile) withLocals out tt st')
    by (vm_compute; do 2 eexists; split; reflexivity).
  destruct H as (out & st' & H). exists out, st'. split; [exact H|].
  pose proof H as H'.
  apply statement_code_is_balanced in H' as [Hb _];
    [exact Hb | exact balancedInterfaces_Demo | exact I].
Defined.

Lemma arithmetic_lowering_witness :
  exists st' : State,
    accept sum withLocals = OK (tt, st') /\
    exists Lc Rc DP : string,
      m_code st' =
        m_code withLocals ++ Lc ++ Rc ++ DP ++
        "checked_add" ++ "(" ++ "expr_31" ++ ", " ++ "expr_32" ++ ")" ++
        LF ++ LF.
Proof.
  assert (H : exists st', accept sum withLocals = OK (tt, st'))
    by (vm_compute; eexists; reflexivity).
  destruct H as [st' H]. exists st'. split; [exact H|].
  assert (Hcat : category uint256T <> Category.RationalNumber)
    by (vm_compute; discriminate).
  pose proof H as H'.
  apply arithmetic_lowering in H'
    as (_ & function & Lc & Rc & DP & st1 & st2 & st3 & Hf & _ & _ & _ &
        Hcode);
    [|reflexivity|reflexivity|exact Hcat].
  injection Hf as <-.
  exists Lc, Rc, DP. exact Hcode.
Defined.

Lemma event_topics_witness :
  exists st' : State,
    endVisit_FunctionCall (node 120 (tupleT []) false)
      FunctionCallKind.FunctionCall eventCallee [readX 122; readS 123] []
      withLocals = OK (tt, st') /\
    exists before after : string,
      m_code st' =
        m_code withLocals ++ before ++ "log" ++ "2" ++ "(" ++ after.
Proof.
  assert (H : exists st',
             endVisit_FunctionCall (node 120 (tupleT []) false)
               FunctionCallKind.FunctionCall eventCallee
               [readX 122; readS 123] [] withLocals = OK (tt, st'))
    by (vm_compute; eexists; reflexivity).
  destruct H as [st' H]. exists st'. split; [exact H|].
  pose proof H as H'.
  apply event_topics with (functionType := eventType)
                          (event := {| isAnonymous := false;
                                       parametersIndexed := [true; false] |})
    in H' as (_ & Hcode); [exact Hcode|reflexivity..].
Defined.

Lemma assembly_storage_reference_witness :
  copyIdentifier copier {| Yul.node := 1; Yul.name := "s.slot" |} start =
  OK (Yul.NumberLiteral "2", start).
Proof.
  exact (assembly_storage_reference copier
           {| Yul.node := 1; Yul.name := "s.slot" |} start
           (reference :=
              {| ExternalIdentifierInfo.declaration := VariableDecl sDecl;
                 ExternalIdentifierInfo.isSlot := true;
                 ExternalIdentifierInfo.isOffset := false |})
           (varDecl := sDecl) eq_refl eq_refl (or_introl eq_refl)).
Defined.

Lemma assembly_names_do_not_collide_witness :
  translateIdentifier copier "mload" = "mload" /\
  translateIdentifier copier "x" = "usr$x" /\
  translateIdentifier copier "x" <> "mload".
Proof.
  assert (Hprefix : forall n, m_dialect copier ("usr$" ++ n) = false)
    by (intros n; reflexivity).
  destruct (assembly_names_do_not_collide copier Hprefix)
    as (Hb & Hn & _ & Hd).
  split; [apply Hb; reflexivity|].
  split; [apply Hn; reflexivity|].
  apply (Hd "x" "mload"); reflexivity.
Defined.

Lemma assembly_variable_reference_witness :
  translate copier {| Yul.node := 2; Yul.name := "x" |} withLocals =
  OK ("vloc_1", withLocals).
Proof.
  exact (assembly_variable_reference copier
           {| Yul.node := 2; Yul.name := "x" |} withLocals
           (reference :=
              {| ExternalIdentifierInfo.declaration := VariableDecl xDecl;
                 ExternalIdentifierInfo.isSlot := false;
                 ExternalIdentifierInfo.isOffset := false |})
           eq_refl).
Defined.
